(** * French cardinal-number normalisation (normalize_french_fst.py)

    A shallow embedding of the module: the linguistic rule table, the
    dynamic lexicon builders, the transducer they are unioned into, the
    regex tokenizer, the tagging classifier, the tag stripper and the
    [FrenchNormalizer] class, followed by the properties stated about them.

    Python values are modelled as follows.
    - [str] is a list of Unicode code points ([N]); literals are written as
      UTF-8 text and decoded by [u].
    - [int] is [Z]; [%] and [//] with a positive divisor are [Z.modulo] and
      [Z.div].
    - a [dict] is an association list in insertion order.
    - a raised exception is [None] in the [option] monad.
    - the transducers of the pynini library are finite relations, kept as
      lists of (input, output) pairs.
    - [self.stats] is threaded through [normalize_number] explicitly.

    Not modelled: the layout of what the program prints, the stateless
    [self.rules] field, and [export_to_far], which only writes a file.

    The file has six parts: the program, the vocabulary of the
    statements, the lemmas, the properties C1 to C10, and the lemmas and
    the statements of the further properties X1 to X15. *)

From Stdlib Require Import ZArith NArith List Bool Lia String Ascii.
From Stdlib Require Import Numbers.DecimalString.
Import ListNotations.

Local Open Scope Z_scope.

(* ================================================================== *)
(** * Part I: the program *)
(* ================================================================== *)

(* ------------------------------------------------------------------ *)
(** ** Python strings *)
(* ------------------------------------------------------------------ *)

Module PyStr.

(** A character is its code point; a string is the list of them. *)
Abbreviation char := N.
Abbreviation str := (list N).

Definition byte_of (a : ascii) : N := N_of_ascii a.

(** Continuation bytes of a UTF-8 sequence carry six payload bits. *)
Definition cont (b : N) : N := N.land b 63.

(** UTF-8 decoding of a byte list into code points (well-formed input is
    all the literals of this file need). *)
Fixpoint decode (fuel : nat) (bs : list N) : str :=
  match fuel with
  | O => []
  | S fuel' =>
    match bs with
    | [] => []
    | b0 :: r0 =>
      if (b0 <? 128)%N then b0 :: decode fuel' r0
      else if (b0 <? 224)%N then
        match r0 with
        | b1 :: r1 => (N.land b0 31 * 64 + cont b1)%N :: decode fuel' r1
        | _ => []
        end
      else if (b0 <? 240)%N then
        match r0 with
        | b1 :: b2 :: r2 =>
            ((N.land b0 15 * 64 + cont b1) * 64 + cont b2)%N :: decode fuel' r2
        | _ => []
        end
      else
        match r0 with
        | b1 :: b2 :: b3 :: r3 =>
            (((N.land b0 7 * 64 + cont b1) * 64 + cont b2) * 64 + cont b3)%N
              :: decode fuel' r3
        | _ => []
        end
    end
  end.

(** [u "texte"] is the Python string written [texte] in the source. *)
Definition u (s : string) : str :=
  let bs := map byte_of (list_ascii_of_string s) in
  decode (List.length bs) bs.

(** The double quote, which a literal of this file cannot hold. *)
Definition dq : char := 34%N.

Definition ch_eqb (a b : char) : bool := N.eqb a b.

Fixpoint str_eqb (a b : str) : bool :=
  match a, b with
  | [], [] => true
  | x :: a', y :: b' => ch_eqb x y && str_eqb a' b'
  | _, _ => false
  end.

(** [sep.join(parts)] *)
Fixpoint join (sep : str) (parts : list str) : str :=
  match parts with
  | [] => []
  | [p] => p
  | p :: rest => p ++ sep ++ join sep rest
  end.

(** [s.startswith(p)] *)
Fixpoint startswith (p s : str) : bool :=
  match p, s with
  | [], _ => true
  | x :: p', y :: s' => ch_eqb x y && startswith p' s'
  | _ :: _, [] => false
  end.

(** [str(n)] for an [int]: the canonical decimal rendering. *)
Definition str_of_int (n : Z) : str :=
  u (NilZero.string_of_int (Z.to_int n)).

End PyStr.
Import PyStr.

(* ------------------------------------------------------------------ *)
(** ** The interpreter's character tables *)
(* ------------------------------------------------------------------ *)

(** The classes behind [\s], [\d], [\w], [str.isdigit], [str.strip] and
    [int] come from the interpreter's Unicode database, which is not part
    of the program.  On U+0000..U+00FF (Basic Latin and Latin-1 Supplement)
    they are fixed and written out below; above U+00FF they are left to a
    [unicode_db], over which every statement is quantified. *)
Record unicode_db := {
  db_space   : char -> bool;        (* Py_UNICODE_ISSPACE   *)
  db_decimal : char -> option N;    (* Py_UNICODE_TODECIMAL *)
  db_digit   : char -> bool;        (* Py_UNICODE_ISDIGIT   *)
  db_alnum   : char -> bool         (* Py_UNICODE_ISALNUM   *)
}.

Module Unicode.

Definition between (lo hi c : N) : bool := ((lo <=? c) && (c <=? hi))%N.

Definition latin1 (c : char) : bool := (c <? 256)%N.

Definition latin1_space (c : char) : bool :=
  between 9 13 c || between 28 32 c || (c =? 133)%N || (c =? 160)%N.

Definition latin1_decimal (c : char) : option N :=
  if between 48 57 c then Some (c - 48)%N else None.

Definition latin1_digit (c : char) : bool :=
  between 48 57 c || (c =? 178)%N || (c =? 179)%N || (c =? 185)%N.

Definition latin1_alnum (c : char) : bool :=
  between 48 57 c || between 65 90 c || between 97 122 c
  || (c =? 170)%N || (c =? 178)%N || (c =? 179)%N || (c =? 181)%N
  || (c =? 185)%N || (c =? 186)%N || between 188 190 c
  || between 192 214 c || between 216 246 c || between 248 255 c.

Section Classes.
Variable db : unicode_db.

Definition isspace (c : char) : bool :=
  if latin1 c then latin1_space c else db_space db c.

Definition todecimal (c : char) : option N :=
  if latin1 c then latin1_decimal c else db_decimal db c.

Definition isdecimal (c : char) : bool :=
  match todecimal c with Some _ => true | None => false end.

Definition isdigit (c : char) : bool :=
  if latin1 c then latin1_digit c else db_digit db c.

Definition isalnum (c : char) : bool :=
  if latin1 c then latin1_alnum c else db_alnum db c.

(** [\w] of a str pattern: alphanumeric or underscore. *)
Definition isword (c : char) : bool := isalnum c || (c =? 95)%N.

End Classes.

(** Py_ISSPACE, the ASCII-only test used by the integer parser. *)
Definition ascii_isspace (c : char) : bool := between 9 13 c || (c =? 32)%N.

End Unicode.

(* ------------------------------------------------------------------ *)
(** ** Exceptions and dictionaries *)
(* ------------------------------------------------------------------ *)

(** A computation that may raise: [None] is a raised exception. *)
Definition raising (A : Type) := option A.

Definition bind {A B : Type} (m : raising A) (k : A -> raising B) : raising B :=
  match m with
  | Some a => k a
  | None => None
  end.

Notation "x <- m ;; k" := (bind m (fun x => k))
  (at level 61, m at next level, right associativity).

(** A loop [for x in xs: acc = body(acc, x)] whose body may raise. *)
Fixpoint for_each {A S : Type} (xs : list A) (body : S -> A -> raising S)
    (acc : S) : raising S :=
  match xs with
  | [] => Some acc
  | x :: xs' => acc' <- body acc x ;; for_each xs' body acc'
  end.

(** [range(a, b)] *)
Definition range (a b : Z) : list Z :=
  map (fun i => a + Z.of_nat i) (seq 0 (Z.to_nat (b - a))).

Module Dict.
Section WithKey.
Context {K V : Type} (keq : K -> K -> bool).

Definition dict := list (K * V).

(** [d[k]]: raises KeyError on a missing key. *)
Fixpoint getitem (d : dict) (k : K) : raising V :=
  match d with
  | [] => None
  | (k', v) :: d' => if keq k' k then Some v else getitem d' k
  end.

(** [d.get(k, default)] *)
Definition get (d : dict) (k : K) (default : V) : V :=
  match getitem d k with
  | Some v => v
  | None => default
  end.

(** [k in d] *)
Definition contains (d : dict) (k : K) : bool :=
  match getitem d k with
  | Some _ => true
  | None => false
  end.

(** [d[k] = v]: an existing key keeps its place, a new one goes last. *)
Fixpoint setitem (d : dict) (k : K) (v : V) : dict :=
  match d with
  | [] => [(k, v)]
  | (k', v') :: d' =>
      if keq k' k then (k', v) :: d' else (k', v') :: setitem d' k v
  end.

(** [{**a, **b}] *)
Definition merge (a b : dict) : dict :=
  fold_left (fun d kv => setitem d (fst kv) (snd kv)) b a.

(** [d.items()], in insertion order. *)
Definition items (d : dict) : list (K * V) := d.

End WithKey.
End Dict.

(* ------------------------------------------------------------------ *)
(** ** The transducer library, as finite relations *)
(* ------------------------------------------------------------------ *)

(** The program uses pynini only to build one-pair transducers, to union
    them, to optimise (which keeps the relation) and to read off the output
    of the best path for one input string.  A transducer is therefore the
    list of its (input, output) pairs.  No arc carries a weight, so every
    path for an input is a shortest one; the model takes the first.  The
    built transducer holds one pair per input (property C5), so the choice
    never arises. *)
Module Pynini.

Definition Fst := list (str * str).

(** [pynini.cross(pynini.accep(i), pynini.accep(o))] *)
Definition cross (i o : str) : Fst := [(i, o)].

(** [pynini.union(f1, ..., fn)] *)
Definition union (fs : list Fst) : Fst := List.concat fs.

(** [f.optimize()] *)
Definition optimize (f : Fst) : Fst := f.

(** [pynini.accep(text) @ f]: the pairs of [f] whose input is [text].
    The library's string compiler reads a text character by character
    unless it holds a bracket or a backslash, which it gives a reading of
    their own; the program passes it digit strings only, and so do the
    statements below. *)
Definition compose_accep (text : str) (f : Fst) : Fst :=
  filter (fun p => str_eqb (fst p) text) f.

(** [pynini.shortestpath(f)] *)
Definition shortestpath (f : Fst) : Fst :=
  match f with
  | [] => []
  | p :: _ => [p]
  end.

(** [f.string()]: the output string of a single path; raises on a
    transducer with no path. *)
Definition string_of (f : Fst) : raising str :=
  match f with
  | [p] => Some (snd p)
  | _ => None
  end.

End Pynini.

(* ------------------------------------------------------------------ *)
(** ** Section 1 of the program: the linguistic rules *)
(* ------------------------------------------------------------------ *)

Module FrenchLinguisticRules.

Definition UNITS : Dict.dict (K:=Z) (V:=str) :=
  [ (0, u "zéro"); (1, u "un"); (2, u "deux"); (3, u "trois");
    (4, u "quatre"); (5, u "cinq"); (6, u "six"); (7, u "sept");
    (8, u "huit"); (9, u "neuf") ].

Definition TEENS_SPECIAL : Dict.dict (K:=Z) (V:=str) :=
  [ (10, u "dix"); (11, u "onze"); (12, u "douze"); (13, u "treize");
    (14, u "quatorze"); (15, u "quinze"); (16, u "seize") ].

Definition TEENS_COMPOSED : Dict.dict (K:=Z) (V:=str) :=
  [ (17, u "dix-sept"); (18, u "dix-huit"); (19, u "dix-neuf") ].

Definition TENS_BASES : Dict.dict (K:=Z) (V:=str) :=
  [ (2, u "vingt"); (3, u "trente"); (4, u "quarante");
    (5, u "cinquante"); (6, u "soixante") ].

Definition HUNDREDS_PREFIXES : Dict.dict (K:=Z) (V:=str) :=
  [ (1, []); (2, u "deux"); (3, u "trois"); (4, u "quatre");
    (5, u "cinq"); (6, u "six"); (7, u "sept"); (8, u "huit");
    (9, u "neuf") ].

(** [number in [a, b, c]] *)
Definition in_list (n : Z) (l : list Z) : bool := existsb (Z.eqb n) l.

Definition apply_et_rule (number : Z) : bool :=
  (number mod 10 =? 1) && negb (in_list number [11; 81; 91]).

Definition apply_s_to_cents (number : Z) : bool :=
  (200 <=? number) && (number mod 100 =? 0).

Definition apply_s_to_vingts (number : Z) : bool :=
  number =? 80.

End FrenchLinguisticRules.

(* ------------------------------------------------------------------ *)
(** ** Section 2 of the program: transducer utilities *)
(* ------------------------------------------------------------------ *)

Module rules := FrenchLinguisticRules.

Abbreviation idict := (Dict.dict (K:=Z) (V:=str)).
Abbreviation sdict := (Dict.dict (K:=str) (V:=str)).
(** [d[k]] on a dictionary keyed by integers. *)
Definition item (d : idict) (k : Z) : raising str := Dict.getitem Z.eqb d k.

(** [apply_fst(text, fst)].  [op_error] is the text of the exception the
    library raises when no path exists; the [except] clause turns it into
    an error marker, so the function itself never raises.  The program
    applies it to digit strings only, which the library's string compiler
    reads character by character. *)
Definition apply_fst (op_error : str) (text : str) (fst : Pynini.Fst) : str :=
  match Pynini.string_of
          (Pynini.shortestpath (Pynini.compose_accep text fst)) with
  | Some out => out
  | None => u "Error: " ++ op_error ++ u ", for input:'" ++ text ++ u "'"
  end.

Definition I_O_FST (input_str output_str : str) : Pynini.Fst :=
  Pynini.optimize (Pynini.cross input_str output_str).

(* ------------------------------------------------------------------ *)
(** ** Section 3 of the program: dynamic construction of the numbers *)
(* ------------------------------------------------------------------ *)

(** The union, optimised, of [I_O_FST(num, word)] over [m.items()]. *)
Definition fst_of_map (m : sdict) : Pynini.Fst :=
  Pynini.optimize
    (Pynini.union (map (fun nw => I_O_FST (fst nw) (snd nw)) (Dict.items m))).

Definition fst_of_rules (d : idict) : list Pynini.Fst :=
  map (fun nw => I_O_FST (str_of_int (fst nw)) (snd nw)) (Dict.items d).

Definition build_units_fst : Pynini.Fst :=
  Pynini.optimize (Pynini.union (fst_of_rules rules.UNITS)).

Definition build_teens_fst : Pynini.Fst :=
  let special_list := fst_of_rules rules.TEENS_SPECIAL in
  let composed_list := fst_of_rules rules.TEENS_COMPOSED in
  Pynini.optimize (Pynini.union (special_list ++ composed_list)).

Definition build_compound_20_69_dynamic : raising Pynini.Fst :=
  compound_map <-
    for_each (range 2 7) (fun (compound_map : sdict) ten =>
      let ten_value := ten * 10 in
      base <- item rules.TENS_BASES ten ;;
      let compound_map :=
        Dict.setitem str_eqb compound_map (str_of_int ten_value) base in
      for_each (range 1 10) (fun (compound_map : sdict) unit =>
        let number := ten_value + unit in
        let connector :=
          if rules.apply_et_rule number then u " et " else u "-" in
        base <- item rules.TENS_BASES ten ;;
        unit_word <- item rules.UNITS unit ;;
        let word := base ++ connector ++ unit_word in
        Some (Dict.setitem str_eqb compound_map (str_of_int number) word))
        compound_map)
      [] ;;
  Some (fst_of_map compound_map).

Definition build_70_79_dynamic : Pynini.Fst :=
  let teens_map :=
    Dict.merge Z.eqb rules.TEENS_SPECIAL rules.TEENS_COMPOSED in
  let seventy_map :=
    fold_left (fun (seventy_map : sdict) offset =>
      let number := 60 + offset in
      let word :=
        if offset =? 11 then u "soixante et onze"
        else if offset =? 10 then u "soixante-dix"
        else
          let teen_word := Dict.get Z.eqb teens_map offset [] in
          u "soixante-" ++ teen_word in
      Dict.setitem str_eqb seventy_map (str_of_int number) word)
      (range 10 20) [] in
  fst_of_map seventy_map.

Definition build_80_99_dynamic : raising Pynini.Fst :=
  let eighty_map : sdict :=
    if rules.apply_s_to_vingts 80
    then Dict.setitem str_eqb [] (u "80") (u "quatre-vingts")
    else [] in
  eighty_map <-
    for_each (range 1 10) (fun (eighty_map : sdict) unit =>
      let number := 80 + unit in
      unit_word <- item rules.UNITS unit ;;
      let word := u "quatre-vingt-" ++ unit_word in
      Some (Dict.setitem str_eqb eighty_map (str_of_int number) word))
      eighty_map ;;
  let teens_map :=
    Dict.merge Z.eqb rules.TEENS_SPECIAL rules.TEENS_COMPOSED in
  let eighty_map :=
    fold_left (fun (eighty_map : sdict) offset =>
      let number := 80 + offset in
      let teen_word := Dict.get Z.eqb teens_map offset [] in
      let word := u "quatre-vingt-" ++ teen_word in
      Dict.setitem str_eqb eighty_map (str_of_int number) word)
      (range 10 20) eighty_map in
  Some (fst_of_map eighty_map).

Definition get_written_form_1_99_dynamic (n : Z) : raising str :=
  if n <? 10 then Some (Dict.get Z.eqb rules.UNITS n (str_of_int n))
  else if (10 <=? n) && (n <? 20) then
    let all_teens :=
      Dict.merge Z.eqb rules.TEENS_SPECIAL rules.TEENS_COMPOSED in
    Some (Dict.get Z.eqb all_teens n (str_of_int n))
  else if (20 <=? n) && (n <? 70) then
    let ten := n / 10 in
    let unit := n mod 10 in
    if unit =? 0 then Some (Dict.get Z.eqb rules.TENS_BASES ten (str_of_int n))
    else
      let connector := if rules.apply_et_rule n then u " et " else u "-" in
      base <- item rules.TENS_BASES ten ;;
      unit_word <- item rules.UNITS unit ;;
      Some (base ++ connector ++ unit_word)
  else if (70 <=? n) && (n <? 80) then
    let offset := n - 60 in
    let all_teens :=
      Dict.merge Z.eqb rules.TEENS_SPECIAL rules.TEENS_COMPOSED in
    if n =? 71 then Some (u "soixante et onze")
    else if Dict.contains Z.eqb all_teens offset then
      teen <- item all_teens offset ;; Some (u "soixante-" ++ teen)
    else Some (u "soixante-dix")
  else if (80 <=? n) && (n <? 100) then
    if n =? 80 then Some (u "quatre-vingts")
    else
      let offset := n - 80 in
      if offset <? 10 then
        unit_word <- item rules.UNITS offset ;;
        Some (u "quatre-vingt-" ++ unit_word)
      else
        let all_teens :=
          Dict.merge Z.eqb rules.TEENS_SPECIAL rules.TEENS_COMPOSED in
        Some (u "quatre-vingt-"
                ++ Dict.get Z.eqb all_teens offset (str_of_int offset))
  else Some (str_of_int n).

Definition build_hundreds_dynamic : raising Pynini.Fst :=
  hundreds_map <-
    for_each (range 1 10) (fun (hundreds_map : sdict) h =>
      let hundred_value := h * 100 in
      prefix <-
        (if h =? 1 then Some (u "cent")
         else p <- item rules.HUNDREDS_PREFIXES h ;; Some (p ++ u " cent")) ;;
      let hundreds_map :=
        if rules.apply_s_to_cents hundred_value
        then Dict.setitem str_eqb hundreds_map
               (str_of_int hundred_value) (prefix ++ u "s")
        else Dict.setitem str_eqb hundreds_map
               (str_of_int hundred_value) prefix in
      for_each (range 1 100) (fun (hundreds_map : sdict) unit =>
        let number := hundred_value + unit in
        unit_word <- get_written_form_1_99_dynamic unit ;;
        let word := prefix ++ u " " ++ unit_word in
        Some (Dict.setitem str_eqb hundreds_map (str_of_int number) word))
        hundreds_map)
      [] ;;
  Some (fst_of_map hundreds_map).

Definition build_thousand_fst : Pynini.Fst :=
  I_O_FST (u "1000") (u "mille").

(* ------------------------------------------------------------------ *)
(** ** Section 4 of the program: the complete transducer *)
(* ------------------------------------------------------------------ *)

Definition build_french_cardinal_fst : raising Pynini.Fst :=
  let fst_units := build_units_fst in
  let fst_teens := build_teens_fst in
  fst_compound_20_69 <- build_compound_20_69_dynamic ;;
  let fst_70_79 := build_70_79_dynamic in
  fst_80_99 <- build_80_99_dynamic ;;
  fst_hundreds <- build_hundreds_dynamic ;;
  let fst_thousand := build_thousand_fst in
  let number_normalizer_fst :=
    Pynini.optimize
      (Pynini.union [ fst_units; fst_teens; fst_compound_20_69; fst_70_79;
                      fst_80_99; fst_hundreds; fst_thousand ]) in
  Some number_normalizer_fst.

(* ------------------------------------------------------------------ *)
(** ** Regular expressions of the [re] module *)
(* ------------------------------------------------------------------ *)

(** A backtracking matcher with the priorities of Python's [re]: the
    alternatives of [a|b] are tried left to right, [a*] is greedy, and a
    search reports the leftmost match.  The program's patterns use at most
    one capturing group and none of them matches the empty string, so the
    matcher keeps one group register and a scan reports non-empty matches
    only. *)
Module Re.

Inductive regex :=
| Eps                          (* the empty pattern *)
| Chr (p : char -> bool)       (* one character, literal or of a class *)
| Seq (a b : regex)            (* ab *)
| Alt (a b : regex)            (* a|b *)
| Star (a : regex)             (* a*, or (?:a)* *)
| Group (a : regex).           (* (a), capturing group 1 *)

(** [a+] *)
Definition Plus (a : regex) : regex := Seq a (Star a).

(** A literal run of characters. *)
Definition Lit (s : str) : regex :=
  fold_right (fun c r => Seq (Chr (ch_eqb c)) r) Eps s.

(** [[abc]], the class of the characters listed. *)
Definition one_of (s : str) (c : char) : bool := existsb (ch_eqb c) s.

Section Run.
Context {A : Type}.

(** [run r s acc g k] matches [r] at the head of [s] and hands every way
    of matching, in priority order, to [k] until [k] accepts one.  [acc]
    is the text matched so far, latest character first, and [g] the group
    register; [k] receives the rest of the input with both updated.  An
    iteration of [a*] has to consume a character. *)
Fixpoint run (r : regex) (s : str) (acc : str) (g : option str)
    (k : str -> str -> option str -> option A) {struct r} : option A :=
  match r with
  | Eps => k s acc g
  | Chr p =>
      match s with
      | c :: s' => if p c then k s' (c :: acc) g else None
      | [] => None
      end
  | Seq a b => run a s acc g (fun s' acc' g' => run b s' acc' g' k)
  | Alt a b =>
      match run a s acc g k with
      | Some x => Some x
      | None => run b s acc g k
      end
  | Star a =>
      (fix loop (n : nat) (s acc : str) (g : option str) {struct n}
           : option A :=
         match n with
         | O => k s acc g
         | S n' =>
             match run a s acc g (fun s' acc' g' =>
                     if (List.length acc <? List.length acc')%nat
                     then loop n' s' acc' g' else None) with
             | Some x => Some x
             | None => k s acc g
             end
         end) (List.length s) s acc g
  | Group a => run a s [] g (fun s' m _ => k s' (m ++ acc) (Some (rev m)))
  end.

End Run.

(** The match of [r] at the head of [s]: (matched text, group 1, rest). *)
Definition match_at (r : regex) (s : str) : option (str * option str * str) :=
  run r s [] None (fun s' acc g => Some (rev acc, g, s')).

(** [re.findall(r, s)] for a pattern without capturing groups. *)
Fixpoint findall_from (n : nat) (r : regex) (s : str) : list str :=
  match n with
  | O => []
  | S n' =>
      match s with
      | [] => []
      | _ :: s' =>
          match match_at r s with
          | Some ((_ :: _) as m, _, rest) => m :: findall_from n' r rest
          | _ => findall_from n' r s'
          end
      end
  end.

Definition findall (r : regex) (s : str) : list str :=
  findall_from (List.length s) r s.

(** A replacement template: literal text and references to group 1. *)
Inductive piece :=
| Text (t : str)
| Backref.

Definition expand (repl : list piece) (g : option str) : str :=
  flat_map (fun p =>
    match p with
    | Text t => t
    | Backref => match g with Some x => x | None => [] end
    end) repl.

(** [re.sub(r, repl, s)] *)
Fixpoint sub_from (n : nat) (r : regex) (repl : list piece) (s : str) : str :=
  match n with
  | O => s
  | S n' =>
      match s with
      | [] => []
      | c :: s' =>
          match match_at r s with
          | Some (_ :: _, g, rest) => expand repl g ++ sub_from n' r repl rest
          | _ => c :: sub_from n' r repl s'
          end
      end
  end.

Definition sub (r : regex) (repl : list piece) (s : str) : str :=
  sub_from (List.length s) r repl s.

End Re.

(* ------------------------------------------------------------------ *)
(** ** Built-in functions of the interpreter *)
(* ------------------------------------------------------------------ *)

Module Builtins.
Import Unicode.

Fixpoint dropwhile (p : char -> bool) (s : str) : str :=
  match s with
  | [] => []
  | c :: s' => if p c then dropwhile p s' else s
  end.

Section WithRuntime.
Variable db : unicode_db.
(** [sys.get_int_max_str_digits()]; 0 when the limit is off or absent. *)
Variable max_str_digits : nat.

(** [s.strip()] *)
Definition strip (s : str) : str :=
  rev (dropwhile (isspace db) (rev (dropwhile (isspace db) s))).

(** [s.isdigit()] *)
Definition str_isdigit (s : str) : bool :=
  match s with
  | [] => false
  | _ => forallb (isdigit db) s
  end.

(** Non-ASCII text is first rewritten: spaces to [' '], decimal digits to
    ASCII digits, and the text is cut at the first other character, which
    becomes ['?']. *)
Fixpoint transform_chars (s : str) : str :=
  match s with
  | [] => []
  | c :: s' =>
      if (c <? 127)%N then c :: transform_chars s'
      else if isspace db c then 32%N :: transform_chars s'
      else match todecimal db c with
           | Some d => (48 + d)%N :: transform_chars s'
           | None => [63%N]
           end
  end.

Definition TransformDecimalAndSpaceToASCII (s : str) : str :=
  if forallb (fun c => (c <? 128)%N) s then s else transform_chars s.

Definition digit_value (c : char) : option Z :=
  if between 48 57 c then Some (Z.of_N c - 48) else None.

(** The digit scan of the base-10 parser: digits, with single underscores
    between them.  Returns the value, the number of digits and the rest. *)
Fixpoint scan_digits (s : str) (prev_underscore : bool) (acc : Z)
    (digits : nat) : raising (Z * nat * str) :=
  match s with
  | [] => if prev_underscore then None else Some (acc, digits, [])
  | c :: s' =>
      if (c =? 95)%N then
        if prev_underscore then None else scan_digits s' true acc digits
      else
        match digit_value c with
        | Some d => scan_digits s' false (acc * 10 + d) (S digits)
        | None => if prev_underscore then None else Some (acc, digits, s)
        end
  end.

Definition PyLong_FromString (s : str) : raising Z :=
  let s := dropwhile ascii_isspace s in
  let signed :=
    match s with
    | 43%N :: r => (1, r)
    | 45%N :: r => (-1, r)
    | _ => (1, s)
    end in
  let sign := fst signed in
  let s := snd signed in
  match s with
  | 95%N :: _ => None
  | _ =>
      scanned <- scan_digits s false 0 0 ;;
      let value := fst (fst scanned) in
      let digits := snd (fst scanned) in
      let rest := snd scanned in
      if (640 <? digits)%nat && (0 <? max_str_digits)%nat
         && (max_str_digits <? digits)%nat then None
      else if (digits =? 0)%nat then None
      else
        match dropwhile ascii_isspace rest with
        | [] => Some (sign * value)
        | _ => None
        end
  end.

(** [int(s)] for a [str]: raises ValueError, here [None], on a string that
    is not a decimal integer literal. *)
Definition int (s : str) : raising Z :=
  PyLong_FromString (TransformDecimalAndSpaceToASCII s).

End WithRuntime.
End Builtins.

(* ------------------------------------------------------------------ *)
(** ** Sections 5 to 7 of the program *)
(* ------------------------------------------------------------------ *)

Section Program.
Variable db : unicode_db.
Variable max_str_digits : nat.
(** The text of the exception raised by the transducer library when an
    input has no path. *)
Variable op_error : str.

Import Re.

(** [[a-zA-Zàâäéèêëïîôùûüÿç...]] *)
Definition letter (c : char) : bool :=
  Unicode.between 97 122 c || Unicode.between 65 90 c
  || one_of (u "àâäéèêëïîôùûüÿçÀÂÄÉÈÊËÏÎÔÙÛÜŸÇ") c.

Definition token_pattern : regex :=
  Alt (Plus (Chr (Unicode.isdecimal db)))
 (Alt (Seq (Plus (Chr letter))
           (Star (Seq (Chr (one_of (u "'''"))) (Plus (Chr letter)))))
 (Alt (Chr (fun c => negb (Unicode.isword db c || Unicode.isspace db c)))
      (Chr (Unicode.isspace db)))).

Definition tokenize_text (text : str) : list str :=
  findall token_pattern text.

Definition classify_token (token : str) (fst : Pynini.Fst) : str :=
  if Builtins.str_isdigit db token then
    let verbalized := apply_fst op_error token fst in
    u "{ cardinal { integer: " ++ [dq] ++ verbalized ++ [dq] ++ u " } }"
  else
    u "{ word { value: " ++ [dq] ++ token ++ [dq] ++ u " } }".

Definition classify_sentence (text : str) (fst : Pynini.Fst) : str :=
  let tokens := tokenize_text text in
  join (u " ") (map (fun token => classify_token token fst) tokens).

Definition not_quote (c : char) : bool := negb (ch_eqb c dq).

Definition cardinal_tag : regex :=
  Seq (Lit (u "{ cardinal { integer: " ++ [dq]))
 (Seq (Group (Plus (Chr not_quote)))
      (Lit ([dq] ++ u " } }"))).

Definition word_tag : regex :=
  Seq (Lit (u "{ word { value: " ++ [dq]))
 (Seq (Group (Plus (Chr not_quote)))
      (Lit ([dq] ++ u " } }"))).

Definition spaces : regex := Plus (Chr (Unicode.isspace db)).

Definition spaces_before_punctuation : regex :=
  Seq (Plus (Chr (Unicode.isspace db))) (Group (Chr (one_of (u ".,:;!?")))).

Definition strip_tags (tagged_text : str) : str :=
  let tagged_text := sub cardinal_tag [Backref] tagged_text in
  let tagged_text := sub word_tag [Backref] tagged_text in
  let tagged_text := sub spaces [Text (u " ")] tagged_text in
  let tagged_text := sub spaces_before_punctuation [Backref] tagged_text in
  Builtins.strip db tagged_text.

Record Stats := { normalized : Z; errors : Z }.

Record FrenchNormalizer := {
  self_fst : Pynini.Fst;
  self_stats : Stats
}.

(** [FrenchNormalizer()] *)
Definition FrenchNormalizer_init : raising FrenchNormalizer :=
  fst <- build_french_cardinal_fst ;;
  Some {| self_fst := fst;
          self_stats := {| normalized := 0; errors := 0 |} |}.

(** [self.normalize_number(number_str)]: the result and the normalizer
    with its counters updated.  [int] is the only call that can raise, and
    the bare [except] returns the input. *)
Definition normalize_number (self : FrenchNormalizer) (number_str : str)
    : str * FrenchNormalizer :=
  let stats := self_stats self in
  match Builtins.int db max_str_digits number_str with
  | Some num =>
      if negb ((0 <=? num) && (num <=? 1000)) then (number_str, self)
      else
        let result := apply_fst op_error (str_of_int num) (self_fst self) in
        (result,
         {| self_fst := self_fst self;
            self_stats := {| normalized := normalized stats + 1;
                             errors := errors stats |} |})
  | None =>
      (number_str,
       {| self_fst := self_fst self;
          self_stats := {| normalized := normalized stats;
                           errors := errors stats + 1 |} |})
  end.

Definition normalize_text (self : FrenchNormalizer) (text : str) : str :=
  let tagged_text := classify_sentence text (self_fst self) in
  let normalized := strip_tags tagged_text in
  normalized.

(** [normalize(text)]: a fresh normalizer applied to one text. *)
Definition normalize (text : str) : raising str :=
  normalizer <- FrenchNormalizer_init ;;
  Some (normalize_text normalizer text).

End Program.

(** [self.get_stats()] *)
Definition get_stats (self : FrenchNormalizer) : Stats := self_stats self.

(* ------------------------------------------------------------------ *)
(** ** Section 8 of the program: the self-test *)
(* ------------------------------------------------------------------ *)

Section SelfTest.
Variable db : unicode_db.
Variable max_str_digits : nat.
Variable op_error : str.

(** The table of [run_comprehensive_tests]: rule, input, expected
    output, description. *)
Definition rule_tests : list (str * str * str * str) :=
  [ (u "RÈGLE 1 (et)", u "21", u "vingt et un",
     u "Conjonction 'et' pour x1");
    (u "RÈGLE 1 (tiret)", u "22", u "vingt-deux", u "Tiret pour x2-x9");
    (u "RÈGLE 2 (soixante-dix)", u "71", u "soixante et onze",
     u "Système base 60");
    (u "RÈGLE 3 (quatre-vingts)", u "80", u "quatre-vingts",
     u "'s' pour 80 exact");
    (u "RÈGLE 3 (quatre-vingt)", u "81", u "quatre-vingt-un",
     u "Pas de 's' si suivi");
    (u "RÈGLE 4 (cents)", u "200", u "deux cents",
     u "'s' pour multiple de 100");
    (u "RÈGLE 4 (cent)", u "201", u "deux cent un", u "Pas de 's' si suivi");
    (u "RÈGLE 5 (mille)", u "1000", u "mille", u "'mille' invariable") ].

Definition test_numbers : list Z :=
  [0; 7; 17; 21; 42; 71; 80; 99; 100; 200; 342; 1000].

Definition test_sentences : list str :=
  [ u "J'ai 3 chiens et 21 chats";
    u "Le nombre 71 utilise le système soixante-dix";
    u "Il y a 80 personnes et 81 chaises";
    u "J'ai 200 euros mais mon ami a 201 euros" ].

(** What [run_comprehensive_tests] prints, without the layout of the
    lines: the status and the result of each rule test, the result for
    each standard number, the output for each sentence, and the
    counters. *)
Record Report := {
  rule_lines : list (str * str);
  standard_lines : list str;
  sentence_lines : list str;
  statistics : Stats
}.

Definition run_comprehensive_tests : raising Report :=
  normalizer <- FrenchNormalizer_init ;;
  let rules_done :=
    fold_left (fun (acc : list (str * str) * FrenchNormalizer) test =>
      let input_num := snd (fst (fst test)) in
      let expected := snd (fst test) in
      let called :=
        normalize_number db max_str_digits op_error (snd acc) input_num in
      let result := fst called in
      let status := if str_eqb result expected then u "Bon" else u "❌" in
      (fst acc ++ [(status, result)], snd called))
      rule_tests ([], normalizer) in
  let numbers_done :=
    fold_left (fun (acc : list str * FrenchNormalizer) num =>
      let called :=
        normalize_number db max_str_digits op_error (snd acc)
          (str_of_int num) in
      (fst acc ++ [fst called], snd called))
      test_numbers ([], snd rules_done) in
  let normalizer := snd numbers_done in
  let sentences_done :=
    map (fun sentence => normalize_text db op_error normalizer sentence)
      test_sentences in
  Some {| rule_lines := fst rules_done;
          standard_lines := fst numbers_done;
          sentence_lines := sentences_done;
          statistics := get_stats normalizer |}.

End SelfTest.

(* ================================================================== *)
(** * Part II: the vocabulary of the statements *)
(* ================================================================== *)

(** ** The constructed normalizer *)

(** The transducer that [build_french_cardinal_fst()] returns. *)
Definition lexicon : Pynini.Fst :=
  match build_french_cardinal_fst with
  | Some f => f
  | None => []
  end.

(** A normalizer as [FrenchNormalizer()] builds it, at any later point of
    its life: its transducer is the built one, its counters are whatever
    the calls so far made them. *)
Definition constructed (self : FrenchNormalizer) : Prop :=
  build_french_cardinal_fst = Some (self_fst self).

(** The normalizer [FrenchNormalizer()] returns. *)
Definition fresh : FrenchNormalizer :=
  {| self_fst := lexicon;
     self_stats := {| normalized := 0; errors := 0 |} |}.

(** For concrete runs: a database that knows nothing above U+00FF, the
    interpreter's default digit limit, and the text pynini gives the
    exception that [string()] raises on a transducer without a path. *)
Definition latin1_db : unicode_db :=
  {| db_space := fun _ => false; db_decimal := fun _ => None;
     db_digit := fun _ => false; db_alnum := fun _ => false |}.

Definition default_limit : nat := 4300.

Definition operation_failed : str := u "Operation failed".

(** The string [self.normalize_number(s)] returns. *)
Definition spelled (db : unicode_db) (lim : nat) (err : str)
    (self : FrenchNormalizer) (s : str) : str :=
  fst (normalize_number db lim err self s).

(** ** The lexicon *)

Definition keys (f : Pynini.Fst) : list str := map fst f.

Definition numerals (a b : Z) : list str := map str_of_int (range a b).

(** Duplicate-free lists of strings, decided. *)
Fixpoint distinct (l : list str) : bool :=
  match l with
  | [] => true
  | x :: l' => negb (existsb (str_eqb x) l') && distinct l'
  end.

(** ** Numerals of the range *)

Definition in_range (n : Z) : bool := (0 <=? n) && (n <=? 1000).

(** What is checked of each numeral of the range, by evaluation: [int]
    reads the canonical rendering back, the transducer holds the pair, and
    the output is a non-empty word that starts with a lower-case ASCII
    letter (so it is neither the numeral nor an error marker). *)
Definition numeral_ok (db : unicode_db) (lim : nat) (err : str) (n : Z)
    : bool :=
  let s := str_of_int n in
  let r := apply_fst err s lexicon in
  match Builtins.int db lim s with
  | Some m => m =? n
  | None => false
  end
  && existsb (fun p => str_eqb (fst p) s && str_eqb (snd p) r) lexicon
  && match r with
     | c :: _ => Unicode.between 97 122 c
     | [] => false
     end
  && negb (str_eqb r s)
  && negb (startswith (u "Error:") r).

(** ** Texts and tags *)

(** [w] occurs in [s]. *)
Definition infix_of (w s : str) : Prop := exists a b, s = a ++ w ++ b.

(** [c] is not the double quote. *)
Definition nq (c : char) : Prop := c <> dq.

(** The text of a word tag around a lone double quote. *)
Definition quote_tag : str :=
  u "{ word { value: " ++ [dq; dq; dq] ++ u " } }".

(** What a word tag puts before the quoted value, and what every tag
    puts after it. *)
Definition tag_head : str := u "{ word { value: ".
Definition tag_tail : str := u " } }".

(** The tag [classify_token] builds around the error marker that
    [apply_fst] makes of the exception text [err] for [token]. *)
Definition marker_tag (err token : str) : str :=
  u "{ cardinal { integer: " ++ [dq]
    ++ (u "Error: " ++ err ++ u ", for input:'" ++ token ++ u "'")
    ++ [dq] ++ u " } }".

(** A text without digits: no character that [str.isdigit] or [\d]
    accepts. *)
Definition digit_free (db : unicode_db) (text : str) : bool :=
  forallb (fun c => negb (Unicode.isdigit db c || Unicode.isdecimal db c))
    text.

(** ** Spelled forms *)

(** The words of the spelled forms: the words of the rule tables, and
    those the builders write out themselves. *)
Definition number_words : list str :=
  map snd rules.UNITS ++ map snd rules.TEENS_SPECIAL
    ++ map snd rules.TENS_BASES
    ++ [u "et"; u "vingts"; u "cent"; u "cents"; u "mille"].

(** The pieces of [s] between its spaces and hyphens; [cur] is the
    piece being read, latest character first. *)
Fixpoint pieces (cur s : str) : list str :=
  match s with
  | [] => [rev cur]
  | c :: s' =>
      if ch_eqb c 32 || ch_eqb c 45 then rev cur :: pieces [] s'
      else pieces (c :: cur) s'
  end.

Definition words_of (s : str) : list str := pieces [] s.

(** What is checked of the output for each numeral of the range, by
    evaluation: it holds no digit, and each of its pieces is a number
    word. *)
Definition spelling_ok (db : unicode_db) (err : str) (n : Z) : bool :=
  let r := apply_fst err (str_of_int n) lexicon in
  digit_free db r
  && forallb (fun w => existsb (str_eqb w) number_words) (words_of r).

(** ** The words of a pattern *)

Module ReWords.
Import Re.

(** [matches r g m g']: [m] is a word of [r], and matching it turns the
    group register [g] into [g']. *)
Inductive matches : regex -> option str -> str -> option str -> Prop :=
| M_Eps g : matches Eps g [] g
| M_Chr p c g : p c = true -> matches (Chr p) g [c] g
| M_Seq a b x y g g1 g2 :
    matches a g x g1 -> matches b g1 y g2 -> matches (Seq a b) g (x ++ y) g2
| M_Alt_l a b x g g1 : matches a g x g1 -> matches (Alt a b) g x g1
| M_Alt_r a b x g g1 : matches b g x g1 -> matches (Alt a b) g x g1
| M_Star_nil a g : matches (Star a) g [] g
| M_Star_cons a x y g g1 g2 :
    matches a g x g1 -> matches (Star a) g1 y g2 ->
    matches (Star a) g (x ++ y) g2
| M_Group a x g g1 : matches a g x g1 -> matches (Group a) g x (Some x).

(** [nullable r]: the empty string is a word of [r]. *)
Fixpoint nullable (r : regex) : bool :=
  match r with
  | Eps => true
  | Chr _ => false
  | Seq a b => nullable a && nullable b
  | Alt a b => nullable a || nullable b
  | Star _ => true
  | Group a => nullable a
  end.

(** [classes_in Q r]: every character class of [r] lies within [Q]. *)
Fixpoint classes_in (Q : char -> Prop) (r : regex) : Prop :=
  match r with
  | Eps => True
  | Chr p => forall c, p c = true -> Q c
  | Seq a b | Alt a b => classes_in Q a /\ classes_in Q b
  | Star a | Group a => classes_in Q a
  end.

(** The pattern of a tag around a quoted value, after its opening words. *)
Definition tag (opening : str) : regex :=
  Seq (Lit (opening ++ [dq]))
 (Seq (Group (Plus (Chr not_quote)))
      (Lit ([dq] ++ u " } }"))).

End ReWords.

(** ** The vocabulary of the further properties *)

(** ** The entries of the transducer *)

(** The output the built transducer gives for the numeral of [n]. *)
Definition word (err : str) (n : Z) : str :=
  apply_fst err (str_of_int n) lexicon.

(** [w] occurs in [s], decided. *)
Fixpoint infixb (w s : str) : bool :=
  startswith w s
  || match s with
     | [] => false
     | _ :: s' => infixb w s'
     end.

(** [s.endswith(p)] *)
Definition endswith (p s : str) : bool := startswith (rev p) (rev s).

(** ** Runs of calls *)

(** The normalizer after [normalize_number] was called on each of
    [inputs] in turn. *)
Definition after_calls (db : unicode_db) (lim : nat) (err : str)
    (self : FrenchNormalizer) (inputs : list str) : FrenchNormalizer :=
  fold_left (fun self s => snd (normalize_number db lim err self s))
    inputs self.

(** Of a call of [normalize_number]: [int] reads the argument as a number
    of the range. *)
Definition spellable (db : unicode_db) (lim : nat) (s : str) : bool :=
  match Builtins.int db lim s with
  | Some n => in_range n
  | None => false
  end.

(** Of a call of [normalize_number]: [int] raises on the argument. *)
Definition unparsable (db : unicode_db) (lim : nat) (s : str) : bool :=
  match Builtins.int db lim s with
  | Some _ => false
  | None => true
  end.

Definition count {A : Type} (p : A -> bool) (l : list A) : Z :=
  Z.of_nat (List.length (filter p l)).

(** ** What tokenization keeps *)

(** The characters no alternative of the token pattern accepts: word
    characters that are neither decimal digits nor letters of the
    pattern's class (the underscore, or a letter such as U+00DF). *)
Definition dropped (db : unicode_db) (c : char) : bool :=
  negb (Unicode.isdecimal db c) && negb (letter c)
  && Unicode.isword db c && negb (Unicode.isspace db c).

Definition kept (db : unicode_db) (c : char) : bool := negb (dropped db c).

(** ** The values of the tags *)

(** What [classify_token] puts between the quotes of the tag of a
    token: the output of the transducer for a digit token, the token
    itself otherwise. *)
Definition value (db : unicode_db) (err : str) (fst : Pynini.Fst)
    (token : str) : str :=
  if Builtins.str_isdigit db token then apply_fst err token fst else token.

(** The last three steps of [strip_tags]: white space is collapsed,
    removed before punctuation, and stripped at both ends. *)
Definition respace (db : unicode_db) (s : str) : str :=
  Builtins.strip db
    (Re.sub (spaces_before_punctuation db) [Re.Backref]
       (Re.sub (spaces db) [Re.Text (u " ")] s)).

(** [c] is neither the double quote nor the opening brace. *)
Definition clean (c : char) : Prop := c <> dq /\ c <> 123%N.

Definition cleanb (c : char) : bool :=
  negb (ch_eqb c dq) && negb (ch_eqb c 123).

(** The text of a token between the first two substitutions of
    [strip_tags]: the value of a cardinal tag, the whole of a word tag. *)
Definition half (db : unicode_db) (err : str) (fst : Pynini.Fst)
    (token : str) : str :=
  if Builtins.str_isdigit db token then apply_fst err token fst
  else tag_head ++ dq :: token ++ dq :: tag_tail.

(** A value the tag patterns can hold and give back: not empty, without a
    double quote or an opening brace. *)
Definition good (v : str) : Prop := v <> [] /\ Forall clean v.

Definition goodb (v : str) : bool :=
  match v with
  | [] => false
  | _ => forallb cleanb v
  end.

(** ** Spacing *)

(** [[.,:;!?]] *)
Definition punctuation (c : char) : bool := Re.one_of (u ".,:;!?") c.

(** White space collapsed: every run of white space becomes one U+0020.
    [in_run] tells that the character before was white space. *)
Fixpoint squeeze (db : unicode_db) (in_run : bool) (s : str) : str :=
  match s with
  | [] => []
  | c :: s' =>
      if Unicode.isspace db c
      then if in_run then squeeze db true s' else 32%N :: squeeze db true s'
      else c :: squeeze db false s'
  end.

(** A white-space character is taken away when a punctuation mark
    follows it. *)
Fixpoint tighten (db : unicode_db) (s : str) : str :=
  match s with
  | [] => []
  | c :: s' =>
      if Unicode.isspace db c then
        match s' with
        | d :: s2 => if punctuation d then d :: tighten db s2
                     else c :: tighten db s'
        | [] => [c]
        end
      else c :: tighten db s'
  end.

(** Every white-space character of [s] is a U+0020, and the character
    after it, if there is one, is not [bad]. *)
Fixpoint spaced (db : unicode_db) (bad : char -> bool) (s : str) : bool :=
  match s with
  | [] => true
  | c :: s' =>
      (if Unicode.isspace db c
       then (c =? 32)%N
            && match s' with
               | d :: _ => negb (bad d)
               | [] => true
               end
       else true)
      && spaced db bad s'
  end.

(** White space or punctuation. *)
Definition space_or_mark (db : unicode_db) (c : char) : bool :=
  Unicode.isspace db c || punctuation c.

(** ** The layout of the normalized text *)

(** A token of white space only. *)
Definition blank (db : unicode_db) (t : str) : bool :=
  forallb (Unicode.isspace db) t.

(** [v] is not empty and its first character satisfies [p]. *)
Definition opens_with (p : char -> bool) (v : str) : bool :=
  match v with
  | c :: _ => p c
  | [] => false
  end.

(** What goes before a value that follows another: nothing before a
    punctuation mark, one space otherwise. *)
Definition gap (w : str) : str :=
  if opens_with punctuation w then [] else [32%N].

(** The values laid out one after the other. *)
Fixpoint render (vs : list str) : str :=
  match vs with
  | [] => []
  | v :: rest =>
      v ++ match rest with
           | [] => []
           | w :: _ => gap w ++ render rest
           end
  end.

(** A value that respacing leaves as it is: white space neither at its
    ends nor doubled nor before a punctuation mark, and U+0020 only. *)
Definition tidy (db : unicode_db) (v : str) : bool :=
  opens_with (fun c => negb (Unicode.isspace db c)) v
  && opens_with (fun c => negb (Unicode.isspace db c)) (rev v)
  && spaced db (space_or_mark db) v.

(** An exception text that an error marker can carry through
    [strip_tags]: tidy, without double quote or opening brace, and not
    opening with a punctuation mark. *)
Definition plain_message (db : unicode_db) (err : str) : bool :=
  forallb cleanb err && tidy db err
  && opens_with (fun c => negb (punctuation c)) err.

(** A database in which no white-space character is also a decimal
    digit, a digit or a letter of the token pattern, as none is in
    Unicode. *)
Definition sane (db : unicode_db) : Prop :=
  forall c,
    Unicode.isspace db c = true ->
    Unicode.isdecimal db c = false /\ Unicode.isdigit db c = false
    /\ letter c = false.

(** A value as the tokens give them: one white-space character, or a
    tidy value. *)
Definition item_ok (db : unicode_db) (v : str) : Prop :=
  (exists c, v = [c] /\ Unicode.isspace db c = true) \/ tidy db v = true.

(** ** Sentences of words and numbers *)

(** An item of a sentence: a word, or a number written in figures. *)
Inductive part :=
| Word (w : str)
| Number (n : Z).

(** How an item stands in the text. *)
Definition shown (i : part) : str :=
  match i with
  | Word w => w
  | Number n => str_of_int n
  end.

(** A letter of the token pattern below U+0100. *)
Definition plain_letter (c : char) : bool := letter c && Unicode.latin1 c.

(** The items considered: a non-empty word of such letters, a number
    from 0 to 1000. *)
Definition in_scope (i : part) : bool :=
  match i with
  | Word w => opens_with plain_letter w && forallb plain_letter w
  | Number n => in_range n
  end.

(** How an item is to be read: a word as it is, a number as
    [normalize_number] spells it. *)
Definition spoken (db : unicode_db) (lim : nat) (err : str)
    (self : FrenchNormalizer) (i : part) : str :=
  match i with
  | Word w => w
  | Number n => spelled db lim err self (str_of_int n)
  end.

(** [sep] put between the elements of a list. *)
Fixpoint interleave (sep : str) (l : list str) : list str :=
  match l with
  | [] => []
  | [x] => [x]
  | x :: rest => x :: sep :: interleave sep rest
  end.

(** ** Scans *)

(** [turns r repl x y]: wherever [x] stands in a text, the substitution
    of [repl] for [r] turns it into [y] and goes on behind it. *)
Definition turns (r : Re.regex) (repl : list Re.piece) (x y : str) : Prop :=
  forall rest, Re.sub r repl (x ++ rest) = y ++ Re.sub r repl rest.

(* ================================================================== *)
(** * Part III: lemmas *)
(* ================================================================== *)

(** ** Strings *)

Lemma str_eqb_eq (a b : str) : str_eqb a b = true <-> a = b.
Proof.
  revert b; induction a as [|x a IH]; intros [|y b]; simpl; split;
    try congruence; try reflexivity.
  - intros H. apply andb_true_iff in H as [Hx Hr].
    apply N.eqb_eq in Hx. apply IH in Hr. now subst.
  - intros H. injection H as -> ->. apply andb_true_iff. split.
    + apply N.eqb_refl.
    + now apply IH.
Qed.

Lemma str_eqb_refl (a : str) : str_eqb a a = true.
Proof. now apply str_eqb_eq. Qed.

Lemma str_eqb_neq (a b : str) : str_eqb a b = false <-> a <> b.
Proof.
  split.
  - intros H E. apply str_eqb_eq in E. congruence.
  - intros H. destruct (str_eqb a b) eqn:E; [|reflexivity].
    apply str_eqb_eq in E. contradiction.
Qed.

(** ** The constructed normalizer *)

Lemma build_french_cardinal_fst_returns :
  build_french_cardinal_fst = Some lexicon.
Proof. vm_compute. reflexivity. Qed.

Lemma FrenchNormalizer_init_returns : FrenchNormalizer_init = Some fresh.
Proof.
  unfold FrenchNormalizer_init.
  rewrite build_french_cardinal_fst_returns. reflexivity.
Qed.

Lemma fresh_constructed : constructed fresh.
Proof. exact build_french_cardinal_fst_returns. Qed.

Lemma Some_eq {A : Type} (a b : A) : Some a = Some b -> a = b.
Proof. intros H. injection H as H. exact H. Qed.

Lemma constructed_fst (self : FrenchNormalizer) :
  constructed self -> self_fst self = lexicon.
Proof.
  unfold constructed. intros H.
  pose proof build_french_cardinal_fst_returns as E.
  rewrite H in E. apply Some_eq. exact E.
Qed.

(** Replaces a constructed normalizer by its transducer and counters. *)
Ltac open_normalizer self H :=
  let f := fresh "f" in
  let st := fresh "st" in
  apply constructed_fst in H; destruct self as [f st];
  cbn [self_fst] in H; subst f.

(** ** Ranges and duplicate-free lists *)

Lemma range_In (a b n : Z) : In n (range a b) <-> a <= n < b.
Proof.
  unfold range. rewrite in_map_iff. split.
  - intros [i [<- Hi]]. apply in_seq in Hi. lia.
  - intros H. exists (Z.to_nat (n - a)). split; [lia|].
    apply in_seq. lia.
Qed.

Lemma forallb_range (p : Z -> bool) (a b : Z) :
  forallb p (range a b) = true -> forall n, a <= n < b -> p n = true.
Proof.
  intros H n Hn. rewrite forallb_forall in H. apply H. now apply range_In.
Qed.

Lemma distinct_NoDup (l : list str) : distinct l = true -> NoDup l.
Proof.
  induction l as [|x l IH]; simpl; intros H.
  - constructor.
  - apply andb_true_iff in H as [Hx Hl]. constructor.
    + intros Hin. apply negb_true_iff in Hx.
      assert (E : existsb (str_eqb x) l = true).
      { apply existsb_exists. exists x. split; [assumption|].
        apply str_eqb_refl. }
      congruence.
    + now apply IH.
Qed.

(** ** The built-ins, on inputs checked against CPython 3.11 *)

Example int_accepts :
  map (Builtins.int latin1_db default_limit)
    [u "007"; u "+21"; u " 21 "; u "1_000"; u "-0"; u "-1"; u "1001";
     [160; 53]%N; [133; 53; 160]%N]
  = [Some 7; Some 21; Some 21; Some 1000; Some 0; Some (-1); Some 1001;
     Some 5; Some 5].
Proof. vm_compute. reflexivity. Qed.

Example int_raises :
  map (Builtins.int latin1_db default_limit)
    [u ""; u "abc"; u "_1"; u "1_"; u "1__0"; u "+ 1"; u "--1"; u "12a";
     u "1 2"; u "+"; [28; 53]%N; [53; 0]%N; [178]%N]
  = [None; None; None; None; None; None; None; None; None; None; None;
     None; None].
Proof. vm_compute. reflexivity. Qed.

(** The digit limit of the interpreter: 4301 zeros are refused under the
    default limit and read as 0 without one. *)
Example int_digit_limit :
  Builtins.int latin1_db default_limit (repeat 48%N 4301) = None /\
  Builtins.int latin1_db default_limit (repeat 48%N 4300) = Some 0 /\
  Builtins.int latin1_db 0 (repeat 48%N 4301) = Some 0.
Proof. repeat apply conj; vm_compute; reflexivity. Qed.

Example tokenize_examples :
  tokenize_text latin1_db (u "a_b l'eau, (x) 007 ok ! fin.")
    = [u "a"; u "b"; u " "; u "l'eau"; u ","; u " "; u "("; u "x"; u ")";
       u " "; u "007"; u " "; u "ok"; u " "; u "!"; u " "; u "fin"; u "."] /\
  tokenize_text latin1_db (u "x ' y''z 'a")
    = [u "x"; u " "; u "'"; u " "; u "y"; u "'"; u "'"; u "z"; u " ";
       u "'"; u "a"].
Proof. split; vm_compute; reflexivity. Qed.

Example strip_tags_examples :
  strip_tags latin1_db
    (u "{ word { value: " ++ [dq] ++ u "a" ++ [dq] ++ u " } }   { word { value: "
       ++ [dq] ++ u "," ++ [dq] ++ u " } }  x  .  ")
    = u "a, x." /\
  strip_tags latin1_db (u "  x  y:z ") = u "x y:z".
Proof. split; vm_compute; reflexivity. Qed.

(** ** [normalize_number] on every string *)

Lemma in_range_iff (n : Z) : in_range n = true <-> 0 <= n <= 1000.
Proof. unfold in_range. rewrite andb_true_iff, !Z.leb_le. reflexivity. Qed.

(** The three ways through [normalize_number]. *)
Lemma spelled_unparsable db lim err self s :
  Builtins.int db lim s = None -> spelled db lim err self s = s.
Proof.
  intros E. unfold spelled, normalize_number. rewrite E. reflexivity.
Qed.

Lemma spelled_out_of_range db lim err self s n :
  Builtins.int db lim s = Some n -> in_range n = false ->
  spelled db lim err self s = s.
Proof.
  intros E R. unfold spelled, normalize_number. rewrite E.
  fold (in_range n). rewrite R. reflexivity.
Qed.

Lemma spelled_in_range db lim err self s n :
  Builtins.int db lim s = Some n -> in_range n = true ->
  spelled db lim err self s = apply_fst err (str_of_int n) (self_fst self).
Proof.
  intros E R. unfold spelled, normalize_number. rewrite E.
  fold (in_range n). rewrite R. reflexivity.
Qed.

Lemma numerals_ok db lim err :
  forallb (numeral_ok db lim err) (range 0 1001) = true.
Proof. vm_compute. reflexivity. Qed.

Lemma numeral_check_sound (i : raising Z) (f : Pynini.Fst) (s r : str)
    (n : Z) :
  match i with
  | Some m => m =? n
  | None => false
  end
  && existsb (fun p => str_eqb (fst p) s && str_eqb (snd p) r) f
  && match r with
     | c :: _ => Unicode.between 97 122 c
     | [] => false
     end
  && negb (str_eqb r s)
  && negb (startswith (u "Error:") r) = true ->
  i = Some n /\
  In (s, r) f /\
  (exists c t, r = c :: t /\ Unicode.between 97 122 c = true) /\
  r <> s /\
  startswith (u "Error:") r = false.
Proof.
  intros H. rewrite !andb_true_iff in H.
  destruct H as [[[[Hint Hin] Hhead] Hne] Herr].
  repeat apply conj.
  - destruct i as [m|]; [|discriminate Hint].
    apply Z.eqb_eq in Hint. now subst.
  - apply existsb_exists in Hin as [[a b] [Hab Hp]].
    cbn [fst snd] in Hp. apply andb_true_iff in Hp as [Ha Hb].
    apply str_eqb_eq in Ha, Hb. now subst.
  - destruct r as [|c t]; [discriminate Hhead|]. now exists c, t.
  - apply str_eqb_neq. now apply negb_true_iff.
  - now apply negb_true_iff.
Qed.

Lemma numeral_facts db lim err n :
  0 <= n <= 1000 ->
  Builtins.int db lim (str_of_int n) = Some n /\
  In (str_of_int n, apply_fst err (str_of_int n) lexicon) lexicon /\
  (exists c t, apply_fst err (str_of_int n) lexicon = c :: t /\
               Unicode.between 97 122 c = true) /\
  apply_fst err (str_of_int n) lexicon <> str_of_int n /\
  startswith (u "Error:") (apply_fst err (str_of_int n) lexicon) = false.
Proof.
  intros Hn.
  assert (Hn' : 0 <= n < 1001) by lia.
  pose proof (forallb_range _ _ _ (numerals_ok db lim err) n Hn') as H.
  unfold numeral_ok in H.
  apply numeral_check_sound. exact H.
Qed.

Lemma spellings_ok db err :
  forallb (spelling_ok db err) (range 0 1001) = true.
Proof. vm_compute. reflexivity. Qed.

Lemma spelling_facts db err n :
  0 <= n <= 1000 ->
  digit_free db (apply_fst err (str_of_int n) lexicon) = true /\
  Forall (fun w => In w number_words)
    (words_of (apply_fst err (str_of_int n) lexicon)).
Proof.
  intros Hn.
  assert (Hn' : 0 <= n < 1001) by lia.
  pose proof (forallb_range _ _ _ (spellings_ok db err) n Hn') as H.
  unfold spelling_ok in H. cbv zeta in H.
  apply andb_true_iff in H as [Hd Hw]. split; [exact Hd|].
  apply Forall_forall. intros w Hin.
  rewrite forallb_forall in Hw. specialize (Hw w Hin).
  apply existsb_exists in Hw as [x [Hx E]].
  apply str_eqb_eq in E. subst x. exact Hx.
Qed.

(** A string that starts with a lower-case ASCII letter is no integer
    literal. *)
Lemma int_of_word db lim (c : char) (t : str) :
  Unicode.between 97 122 c = true -> Builtins.int db lim (c :: t) = None.
Proof.
  intros Hc.
  assert (Hin : In c (map N.of_nat (seq 97 26))).
  { unfold Unicode.between in Hc. apply andb_true_iff in Hc as [H1 H2].
    apply N.leb_le in H1, H2. apply in_map_iff.
    exists (N.to_nat c). split; [lia|]. apply in_seq. lia. }
  assert (Hparse : forall t', Builtins.PyLong_FromString lim (c :: t') = None).
  { intros t'. vm_compute in Hin.
    repeat (destruct Hin as [<- | Hin]; [reflexivity|]). contradiction. }
  unfold Builtins.int, Builtins.TransformDecimalAndSpaceToASCII.
  match goal with
  | |- (Builtins.PyLong_FromString _ (if ?b then _ else _)) = _ =>
      destruct b; [apply Hparse|]
  end.
  cbn [Builtins.transform_chars].
  replace (c <? 127)%N with true; [apply Hparse|].
  symmetry. apply N.ltb_lt.
  unfold Unicode.between in Hc. apply andb_true_iff in Hc as [_ H2].
  apply N.leb_le in H2. lia.
Qed.

(* ------------------------------------------------------------------ *)
(** ** What the matcher's matches look like *)
(* ------------------------------------------------------------------ *)

Module ReFacts.
Import Re ReWords.

(** Whatever [run] hands to its continuation is the input minus a word of
    the pattern, the accumulator grown by that word, and the register as
    that word leaves it. *)
Lemma run_sound {A : Type} (r : regex) :
  forall (s acc : str) (g : option str)
         (k : str -> str -> option str -> option A) (v : A),
    run r s acc g k = Some v ->
    exists m s' g',
      s = m ++ s' /\ matches r g m g' /\ k s' (rev m ++ acc) g' = Some v.
Proof.
  induction r as [|p|a IHa b IHb|a IHa b IHb|a IHa|a IHa];
    intros s acc g k v H; cbn [run] in H.
  - exists [], s, g. split; [reflexivity|]. split; [constructor | exact H].
  - destruct s as [|c s']; [discriminate H|].
    destruct (p c) eqn:Hp; [|discriminate H].
    exists [c], s', g. split; [reflexivity|].
    split; [now constructor | exact H].
  - apply IHa in H as (m1 & s1 & g1 & -> & Hm1 & H).
    apply IHb in H as (m2 & s2 & g2 & -> & Hm2 & H).
    exists (m1 ++ m2), s2, g2. split; [now rewrite app_assoc|].
    split; [now apply (M_Seq a b m1 m2 g g1 g2)|].
    rewrite rev_app_distr, <- app_assoc. exact H.
  - destruct (run a s acc g k) as [x|] eqn:E.
    + injection H as ->.
      apply IHa in E as (m & s' & g' & -> & Hm & E).
      exists m, s', g'. split; [reflexivity|].
      split; [now apply M_Alt_l | exact E].
    + apply IHb in H as (m & s' & g' & -> & Hm & H).
      exists m, s', g'. split; [reflexivity|].
      split; [now apply M_Alt_r | exact H].
  - remember (List.length s) as n eqn:Hn. clear Hn.
    revert s acc g H. induction n as [|n IHn]; intros s acc g H.
    + exists [], s, g. split; [reflexivity|].
      split; [constructor | exact H].
    + match type of H with
      | match ?t with _ => _ end = _ => destruct t as [x|] eqn:E
      end.
      * injection H as ->.
        apply IHa in E as (m1 & s1 & g1 & -> & Hm1 & E).
        destruct (List.length acc <? List.length (rev m1 ++ acc))%nat;
          [|discriminate E].
        apply IHn in E as (m2 & s2 & g2 & -> & Hm2 & E).
        exists (m1 ++ m2), s2, g2. split; [now rewrite app_assoc|].
        split; [now apply (M_Star_cons a m1 m2 g g1 g2)|].
        rewrite rev_app_distr, <- app_assoc. exact E.
      * exists [], s, g. split; [reflexivity|].
        split; [constructor | exact H].
  - apply IHa in H as (m & s' & g' & -> & Hm & H).
    rewrite app_nil_r, rev_involutive in H.
    exists m, s', (Some m). split; [reflexivity|].
    split; [now apply (M_Group a m g g') | exact H].
Qed.

Lemma match_at_sound (r : regex) (s m rest : str) (g : option str) :
  match_at r s = Some (m, g, rest) ->
  s = m ++ rest /\ matches r None m g.
Proof.
  unfold match_at. intros H.
  apply run_sound in H as (m' & s' & g' & -> & Hm & H).
  rewrite app_nil_r, rev_involutive in H.
  injection H as <- <- <-. split; [reflexivity | exact Hm].
Qed.

Lemma matches_classes (Q : char -> Prop) (r : regex) (g g' : option str)
    (m : str) :
  classes_in Q r -> matches r g m g' -> Forall Q m.
Proof.
  intros HQ Hm. induction Hm; cbn [classes_in] in HQ.
  - constructor.
  - constructor; [now apply HQ | constructor].
  - apply Forall_app. split; [apply IHHm1 | apply IHHm2]; apply HQ.
  - apply IHHm, HQ.
  - apply IHHm, HQ.
  - constructor.
  - apply Forall_app. split; [now apply IHHm1 | now apply IHHm2].
  - now apply IHHm.
Qed.

Lemma matches_nil (r : regex) (g g' : option str) (m : str) :
  matches r g m g' -> m = [] -> nullable r = true.
Proof.
  intros H. induction H; intros E; cbn [nullable]; try reflexivity.
  - discriminate E.
  - apply app_eq_nil in E as [-> ->].
    now rewrite IHmatches1, IHmatches2.
  - now rewrite IHmatches.
  - rewrite IHmatches by exact E. apply orb_true_r.
  - now apply IHmatches.
Qed.

(** A pattern that is not nullable yields no empty match. *)
Lemma match_at_nonempty (r : regex) (s m rest : str) (g : option str) :
  nullable r = false -> match_at r s = Some (m, g, rest) -> m <> [].
Proof.
  intros Hr H E. apply match_at_sound in H as [_ H].
  apply (matches_nil _ _ _ _ H) in E. congruence.
Qed.

(** None of the program's patterns matches the empty string, so a scan
    with them never meets an empty match. *)
Lemma program_patterns_consume (db : unicode_db) :
  nullable (token_pattern db) = false /\
  nullable cardinal_tag = false /\
  nullable word_tag = false /\
  nullable (spaces db) = false /\
  nullable (spaces_before_punctuation db) = false.
Proof. repeat apply conj; reflexivity. Qed.

Lemma matches_Chr (p : char -> bool) (g g' : option str) (m : str) :
  matches (Chr p) g m g' -> exists c, m = [c] /\ p c = true /\ g' = g.
Proof.
  intros H. inversion H as [|p' c g0 Hc| | | | | |]; subst.
  exists c. split; [reflexivity | split; [exact Hc | reflexivity]].
Qed.

Lemma matches_Seq (a b : regex) (g g' : option str) (m : str) :
  matches (Seq a b) g m g' ->
  exists x y g1, m = x ++ y /\ matches a g x g1 /\ matches b g1 y g'.
Proof.
  intros H. inversion H as [| |a' b' x y g0 g1 g2 Hx Hy| | | | |]; subst.
  exists x, y, g1. split; [reflexivity | split; assumption].
Qed.

Lemma matches_Alt (a b : regex) (g g' : option str) (m : str) :
  matches (Alt a b) g m g' -> matches a g m g' \/ matches b g m g'.
Proof. intros H. inversion H; subst; [now left | now right]. Qed.

Lemma matches_Group (a : regex) (g g' : option str) (m : str) :
  matches (Group a) g m g' -> g' = Some m /\ exists g1, matches a g m g1.
Proof.
  intros H. inversion H as [| | | | | | |a' x g0 g1 Ha]; subst.
  split; [reflexivity | exists g1; exact Ha].
Qed.

Lemma matches_Lit (l m : str) (g g' : option str) :
  matches (Lit l) g m g' -> m = l /\ g' = g.
Proof.
  revert m g. induction l as [|c l IH]; intros m g H;
    cbn [Lit fold_right] in H.
  - inversion H; subst. now split.
  - apply matches_Seq in H as (x & y & g1 & -> & Hx & Hy).
    apply matches_Chr in Hx as (c' & -> & Hc & ->).
    apply N.eqb_eq in Hc. subst c'.
    apply IH in Hy as [-> ->]. now split.
Qed.

Lemma matches_Plus (a : regex) (g g' : option str) (m : str) :
  matches (Plus a) g m g' -> exists x y g1, m = x ++ y /\ matches a g x g1.
Proof.
  unfold Plus. intros H.
  apply matches_Seq in H as (x & y & g1 & -> & Hx & _). now exists x, y, g1.
Qed.

End ReFacts.

(* ------------------------------------------------------------------ *)
(** ** Pieces of text that a substitution leaves in place *)
(* ------------------------------------------------------------------ *)

Module Survival.
Import Re ReWords ReFacts.

Lemma infix_of_app_l (w p s : str) : infix_of w s -> infix_of w (p ++ s).
Proof.
  intros (a & b & ->). exists (p ++ a), b. now rewrite app_assoc.
Qed.

Lemma infix_of_cons (w : str) (c : char) (s : str) :
  infix_of w s -> infix_of w (c :: s).
Proof. apply (infix_of_app_l w [c] s). Qed.

Section Sub.
Variables (r : regex) (repl : list piece) (w : str).

(** A match that starts to the left of an occurrence of [w] ends before
    it, and a scan that starts on the occurrence copies it. *)
Hypothesis before :
  forall a b m g rest,
    match_at r (a ++ w ++ b) = Some (m, g, rest) -> exists a', a = m ++ a'.
Hypothesis across :
  forall b n,
    sub_from (List.length w + n) r repl (w ++ b) = w ++ sub_from n r repl b.

Lemma sub_from_survives :
  forall n a b,
    (List.length (a ++ w ++ b) <= n)%nat ->
    infix_of w (sub_from n r repl (a ++ w ++ b)).
Proof.
  induction n as [|n IH]; intros a b Hlen.
  - rewrite !length_app in Hlen.
    destruct a as [|c a]; [|cbn [List.length] in Hlen; lia].
    cbn [app]. replace 0%nat with (List.length w + 0)%nat by lia.
    rewrite across. now exists [], (sub_from 0 r repl b).
  - destruct a as [|c a].
    + cbn [app] in *. rewrite length_app in Hlen.
      replace (S n) with (List.length w + (S n - List.length w))%nat by lia.
      rewrite across. now exists [], (sub_from (S n - List.length w) r repl b).
    + cbn [app sub_from]. cbn [app List.length] in Hlen.
      assert (Hskip : infix_of w (c :: sub_from n r repl (a ++ w ++ b))).
      { apply infix_of_cons, IH. lia. }
      destruct (match_at r (c :: a ++ w ++ b)) as [[[m g] rest]|] eqn:E;
        [|exact Hskip].
      destruct m as [|c0 m]; [exact Hskip|].
      pose proof (before (c :: a) b _ _ _ E) as [a' Ha].
      apply match_at_sound in E as [Hs _].
      change (c :: a ++ w ++ b) with ((c :: a) ++ w ++ b) in Hs.
      rewrite Ha, <- app_assoc in Hs. apply app_inv_head in Hs.
      subst rest. apply infix_of_app_l, IH.
      apply (f_equal (@List.length char)) in Ha.
      cbn [List.length] in Ha. rewrite length_app in Ha.
      cbn [List.length] in Ha. rewrite !length_app in *. lia.
Qed.

Lemma sub_survives (s : str) : infix_of w s -> infix_of w (sub r repl s).
Proof.
  intros (a & b & ->). unfold sub. apply sub_from_survives. lia.
Qed.

End Sub.

(** A pattern all of whose classes exclude the first character of [w]
    cannot match into [w]. *)
Lemma before_by_class (Q : char -> Prop) (r : regex) (w0 : char) (w' : str) :
  classes_in Q r -> ~ Q w0 ->
  forall a b m g rest,
    match_at r (a ++ (w0 :: w') ++ b) = Some (m, g, rest) ->
    exists a', a = m ++ a'.
Proof.
  intros Hr Hw a b m g rest H.
  apply match_at_sound in H as [Hs Hm].
  apply (matches_classes Q _ _ _ _) in Hm; [|exact Hr].
  apply app_eq_app in Hs as [l [[Ha _] | [Hma Hl]]].
  - now exists l.
  - destruct l as [|x l].
    + exists []. rewrite app_nil_r in Hma. now rewrite app_nil_r.
    + cbn [app] in Hl. injection Hl as <- _.
      subst m. apply Forall_app in Hm as [_ Hm].
      inversion Hm. contradiction.
Qed.

Lemma split_quote (l : str) :
  Forall nq l \/ exists l1 l2, l = l1 ++ dq :: l2 /\ Forall nq l1.
Proof.
  induction l as [|c l [IH | (l1 & l2 & -> & IH)]].
  - left. constructor.
  - destruct (N.eq_dec c dq) as [-> | Hc].
    + right. exists [], l. split; [reflexivity | constructor].
    + left. now constructor.
  - destruct (N.eq_dec c dq) as [-> | Hc].
    + right. exists [], (l1 ++ dq :: l2). split; [reflexivity | constructor].
    + right. exists (c :: l1), l2. split; [reflexivity | now constructor].
Qed.

Lemma first_quote_unique (l1 r1 l2 r2 : str) :
  Forall nq l1 -> Forall nq l2 ->
  l1 ++ dq :: r1 = l2 ++ dq :: r2 -> l1 = l2 /\ r1 = r2.
Proof.
  revert l2. induction l1 as [|c l1 IH]; intros [|d l2] H1 H2 E;
    cbn [app] in E.
  - injection E as ->. now split.
  - injection E as <- _. inversion H2. contradiction.
  - injection E as -> _. inversion H1. contradiction.
  - injection E as -> E. inversion H1; inversion H2; subst.
    destruct (IH l2) as [-> ->]; try assumption. now split.
Qed.

End Survival.

(* ------------------------------------------------------------------ *)
(** ** The tag of a double quote survives [strip_tags] *)
(* ------------------------------------------------------------------ *)

Module QuoteTag.
Import Re ReWords ReFacts Survival.

Lemma quote_tag_app (b : str) :
  quote_tag ++ b = tag_head ++ dq :: dq :: dq :: tag_tail ++ b.
Proof. vm_compute. reflexivity. Qed.

Lemma quote_tag_chars :
  quote_tag
  = [123; 32; 119; 111; 114; 100; 32; 123; 32; 118; 97; 108; 117; 101; 58;
     32; 34; 34; 34; 32; 125; 32; 125]%N.
Proof. vm_compute. reflexivity. Qed.

Lemma tag_tail_chars : tag_tail = [32; 125; 32; 125]%N.
Proof. vm_compute. reflexivity. Qed.

Lemma tag_head_nq : Forall nq tag_head.
Proof.
  apply Forall_forall. intros c Hc. vm_compute in Hc.
  repeat (destruct Hc as [<- | Hc]; [discriminate|]). contradiction.
Qed.

Lemma cardinal_tag_eq : cardinal_tag = tag (u "{ cardinal { integer: ").
Proof. reflexivity. Qed.

Lemma word_tag_eq : word_tag = tag (u "{ word { value: ").
Proof. reflexivity. Qed.

Lemma not_quote_nq (c : char) : not_quote c = true -> nq c.
Proof.
  unfold not_quote, ch_eqb, nq. intros H ->.
  rewrite N.eqb_refl in H. discriminate H.
Qed.

(** A match of a tag pattern: the opening, a quote, a non-empty value
    without quotes, a quote and the closing braces; the value is what the
    group register holds afterwards. *)
Lemma matches_tag (opening m : str) (g g' : option str) :
  matches (tag opening) g m g' ->
  exists c x,
    m = opening ++ dq :: (c :: x) ++ dq :: tag_tail /\
    Forall nq (c :: x) /\ g' = Some (c :: x).
Proof.
  unfold tag. intros H.
  apply matches_Seq in H as (m1 & m23 & g1 & -> & H1 & H23).
  apply (matches_Lit (opening ++ [dq])) in H1 as [-> ->].
  apply matches_Seq in H23 as (m2 & m3 & g2 & -> & H2 & H3).
  apply (matches_Lit ([dq] ++ u " } }")) in H3 as [-> ->].
  apply matches_Group in H2 as [-> [g3 Hg]].
  assert (Hall : Forall nq m2).
  { apply (matches_classes nq _ _ _ _) in Hg; [exact Hg|].
    cbn. split; intros c Hc; exact (not_quote_nq c Hc). }
  apply matches_Plus in Hg as (x & y & g4 & -> & Hx).
  apply matches_Chr in Hx as (c & -> & _ & _).
  exists c, y. split; [|split; [exact Hall | reflexivity]].
  rewrite <- !app_assoc. reflexivity.
Qed.

(** A match of a tag pattern that starts to the left of a quote tag ends
    before it: the value between its two quotes holds no quote, the quote
    tag holds three in a row, and its opening holds no closing brace. *)
Lemma before_tag (opening : str) :
  Forall nq opening ->
  forall a b m g rest,
    match_at (tag opening) (a ++ quote_tag ++ b) = Some (m, g, rest) ->
    exists a', a = m ++ a'.
Proof.
  intros Hop a b m g rest H.
  apply match_at_sound in H as [HT Hm].
  apply matches_tag in Hm as (c & x & -> & Hx & _).
  rewrite <- !app_assoc in HT. cbn [app] in HT.
  rewrite <- !app_assoc in HT. cbn [app] in HT.
  destruct (split_quote a) as [Ha | (a1 & a2 & -> & Ha1)].
  - exfalso. rewrite quote_tag_app, app_assoc in HT.
    apply first_quote_unique in HT as [_ HT];
      [|apply Forall_app; split; [exact Ha | exact tag_head_nq] | exact Hop].
    injection HT as <- _. inversion Hx as [|? ? Hc _]. now apply Hc.
  - rewrite <- app_assoc in HT. cbn [app] in HT.
    apply first_quote_unique in HT as [-> HT]; [|exact Ha1 | exact Hop].
    destruct (split_quote a2) as [Ha2 | (a21 & a22 & -> & Ha21)].
    + exfalso. rewrite quote_tag_app, app_assoc in HT.
      change (c :: x ++ dq :: tag_tail ++ rest)
        with ((c :: x) ++ dq :: tag_tail ++ rest) in HT.
      apply first_quote_unique in HT as [_ HT];
        [|apply Forall_app; split; [exact Ha2 | exact tag_head_nq]
         | exact Hx].
      rewrite tag_tail_chars in HT. discriminate HT.
    + rewrite <- app_assoc in HT. cbn [app] in HT.
      change (c :: x ++ dq :: tag_tail ++ rest)
        with ((c :: x) ++ dq :: tag_tail ++ rest) in HT.
      apply first_quote_unique in HT as [-> HT]; [|exact Ha21 | exact Hx].
      rewrite tag_tail_chars, quote_tag_chars in HT.
      destruct a22 as [|c1 [|c2 [|c3 [|c4 a3]]]]; cbn [app] in HT;
        try discriminate HT.
      injection HT as -> -> -> -> _.
      exists a3. rewrite tag_tail_chars.
      rewrite <- !app_assoc. cbn [app].
      rewrite <- !app_assoc. reflexivity.
Qed.

Section WithDatabase.
Variable db : unicode_db.

(** *** The four substitutions *)

Lemma across_cardinal_tag (b : str) (n : nat) :
  sub_from (List.length quote_tag + n) cardinal_tag [Backref] (quote_tag ++ b)
  = quote_tag ++ sub_from n cardinal_tag [Backref] b.
Proof. vm_compute. reflexivity. Qed.

Lemma across_word_tag (b : str) (n : nat) :
  sub_from (List.length quote_tag + n) word_tag [Backref] (quote_tag ++ b)
  = quote_tag ++ sub_from n word_tag [Backref] b.
Proof. vm_compute. reflexivity. Qed.

Lemma across_spaces (b : str) (n : nat) :
  sub_from (List.length quote_tag + n) (spaces db) [Text (u " ")]
    (quote_tag ++ b)
  = quote_tag ++ sub_from n (spaces db) [Text (u " ")] b.
Proof. vm_compute. reflexivity. Qed.

Lemma across_spaces_before_punctuation (b : str) (n : nat) :
  sub_from (List.length quote_tag + n) (spaces_before_punctuation db)
    [Backref] (quote_tag ++ b)
  = quote_tag ++ sub_from n (spaces_before_punctuation db) [Backref] b.
Proof. vm_compute. reflexivity. Qed.

Lemma before_cardinal_tag a b m g rest :
  match_at cardinal_tag (a ++ quote_tag ++ b) = Some (m, g, rest) ->
  exists a', a = m ++ a'.
Proof.
  rewrite cardinal_tag_eq. apply before_tag.
  apply Forall_forall. intros c Hc. vm_compute in Hc.
  repeat (destruct Hc as [<- | Hc]; [discriminate|]). contradiction.
Qed.

Lemma before_word_tag a b m g rest :
  match_at word_tag (a ++ quote_tag ++ b) = Some (m, g, rest) ->
  exists a', a = m ++ a'.
Proof. rewrite word_tag_eq. apply before_tag. exact tag_head_nq. Qed.

Lemma before_spaces a b m g rest :
  match_at (spaces db) (a ++ quote_tag ++ b) = Some (m, g, rest) ->
  exists a', a = m ++ a'.
Proof.
  rewrite quote_tag_chars.
  apply (before_by_class (fun c => Unicode.isspace db c = true)).
  - cbn. split; intros c Hc; exact Hc.
  - vm_compute. discriminate.
Qed.

Lemma before_spaces_before_punctuation a b m g rest :
  match_at (spaces_before_punctuation db) (a ++ quote_tag ++ b)
    = Some (m, g, rest) ->
  exists a', a = m ++ a'.
Proof.
  rewrite quote_tag_chars.
  apply (before_by_class
           (fun c => Unicode.isspace db c = true
                     \/ one_of (u ".,:;!?") c = true)).
  - cbn. repeat split; intros c Hc; tauto.
  - vm_compute. intros [H | H]; discriminate H.
Qed.

(** *** [strip] *)

Lemma dropwhile_stops (p : char -> bool) (a : str) (c : char) (s : str) :
  p c = false ->
  exists a', Builtins.dropwhile p (a ++ c :: s) = a' ++ c :: s.
Proof.
  intros Hc. induction a as [|x a [a' IH]]; cbn [app Builtins.dropwhile].
  - exists []. now rewrite Hc.
  - destruct (p x).
    + now exists a'.
    + now exists (x :: a).
Qed.

Lemma strip_keeps (p : char -> bool) (w wr lr : str) (w0 l0 : char)
    (a b : str) :
  w = w0 :: wr -> rev w = l0 :: lr -> p w0 = false -> p l0 = false ->
  exists a' b',
    rev (Builtins.dropwhile p (rev (Builtins.dropwhile p (a ++ w ++ b))))
    = a' ++ w ++ b'.
Proof.
  intros Hw Hl H0 Hl0.
  destruct (dropwhile_stops p a w0 (wr ++ b) H0) as [a' E].
  assert (E1 : Builtins.dropwhile p (a ++ w ++ b) = a' ++ w ++ b).
  { rewrite Hw. cbn [app]. exact E. }
  rewrite E1, !rev_app_distr, Hl, <- app_assoc. cbn [app].
  destruct (dropwhile_stops p (rev b) l0 (lr ++ rev a') Hl0) as [b' E2].
  rewrite E2. exists a', (rev b').
  change (b' ++ l0 :: lr ++ rev a') with (b' ++ (l0 :: lr) ++ rev a').
  rewrite <- Hl, !rev_app_distr, !rev_involutive, <- app_assoc.
  reflexivity.
Qed.

Lemma strip_survives (s : str) :
  infix_of quote_tag s -> infix_of quote_tag (Builtins.strip db s).
Proof.
  intros (a & b & ->). unfold Builtins.strip.
  apply (strip_keeps (Unicode.isspace db) quote_tag
           (tl quote_tag) (tl (rev quote_tag)) 123%N 125%N a b);
    reflexivity.
Qed.

Lemma strip_tags_survives (s : str) :
  infix_of quote_tag s -> infix_of quote_tag (strip_tags db s).
Proof.
  intros H. unfold strip_tags. cbv zeta.
  apply strip_survives.
  apply (sub_survives _ _ _ before_spaces_before_punctuation
           across_spaces_before_punctuation).
  apply (sub_survives _ _ _ before_spaces across_spaces).
  apply (sub_survives _ _ _ before_word_tag across_word_tag).
  apply (sub_survives _ _ _ before_cardinal_tag across_cardinal_tag).
  exact H.
Qed.

(** *** The tokenizer *)

Lemma token_at_quote (s : str) :
  match_at (token_pattern db) (dq :: s) = Some ([dq], None, s).
Proof. vm_compute. reflexivity. Qed.

Lemma token_without_quote (c : char) (s m rest : str) (g : option str) :
  c <> dq ->
  match_at (token_pattern db) (c :: s) = Some (m, g, rest) ->
  ~ In dq m.
Proof.
  intros Hc H. apply match_at_sound in H as [Hs Hm].
  assert (Hone : forall p g0 g1, matches (Chr p) g0 m g1 -> ~ In dq m).
  { intros p g0 g1 Hp. apply matches_Chr in Hp as (c' & -> & _ & _).
    cbn [app] in Hs. injection Hs as <- _.
    intros [E | []]. now apply Hc. }
  assert (Hall : Forall nq m -> ~ In dq m).
  { intros Hf Hin. rewrite Forall_forall in Hf. now apply (Hf dq Hin). }
  unfold token_pattern in Hm.
  apply matches_Alt in Hm as [H1 | Hm].
  { apply Hall. apply (matches_classes nq _ _ _ _) in H1; [exact H1|].
    cbn. split; intros d Hd ->; vm_compute in Hd; discriminate Hd. }
  apply matches_Alt in Hm as [H2 | Hm].
  { apply Hall. apply (matches_classes nq _ _ _ _) in H2; [exact H2|].
    cbn. repeat split; intros d Hd ->; vm_compute in Hd; discriminate Hd. }
  apply matches_Alt in Hm as [H3 | H3]; exact (Hone _ _ _ H3).
Qed.

Lemma findall_quote :
  forall (n : nat) (s : str),
    (List.length s <= n)%nat -> In dq s ->
    In [dq] (findall_from n (token_pattern db) s).
Proof.
  induction n as [|n IH]; intros s Hlen Hin.
  - destruct s; [contradiction | cbn [List.length] in Hlen; lia].
  - destruct s as [|c s]; [contradiction|].
    cbn [List.length] in Hlen. cbn [findall_from].
    destruct (N.eq_dec c dq) as [-> | Hc].
    + rewrite token_at_quote. now left.
    + destruct Hin as [E | Hin]; [contradiction|].
      assert (Hskip : In [dq] (findall_from n (token_pattern db) s))
        by (apply IH; [lia | exact Hin]).
      destruct (match_at (token_pattern db) (c :: s))
        as [[[m g] rest]|] eqn:E; [|exact Hskip].
      destruct m as [|c0 m]; [exact Hskip|].
      right.
      pose proof (token_without_quote _ _ _ _ _ Hc E) as Hm.
      apply match_at_sound in E as [Hs _].
      cbn [app] in Hs. injection Hs as <- ->.
      apply IH.
      * rewrite length_app in Hlen. lia.
      * apply in_app_or in Hin as [Hin | Hin]; [|exact Hin].
        exfalso. apply Hm. now right.
Qed.

Lemma tokenize_quote (text : str) :
  In dq text -> In [dq] (tokenize_text db text).
Proof.
  intros H. unfold tokenize_text, findall. now apply findall_quote.
Qed.

(** *** The classifier *)

Lemma classify_quote (err : str) (fst : Pynini.Fst) :
  classify_token db err [dq] fst = quote_tag.
Proof. reflexivity. Qed.

Lemma join_infix (sep x : str) (l : list str) :
  In x l -> infix_of x (join sep l).
Proof.
  induction l as [|p l IH]; [contradiction|].
  intros Hin. destruct l as [|q l].
  - destruct Hin as [-> | []]. exists [], []. cbn [join app].
    now rewrite app_nil_r.
  - cbn [join]. destruct Hin as [-> | Hin].
    + now exists [], (sep ++ join sep (q :: l)).
    + apply infix_of_app_l, infix_of_app_l, IH. exact Hin.
Qed.

Lemma classify_sentence_quote (err text : str) (fst : Pynini.Fst) :
  In dq text -> infix_of quote_tag (classify_sentence db err text fst).
Proof.
  intros H. unfold classify_sentence. cbv zeta.
  apply join_infix.
  rewrite <- (classify_quote err fst).
  apply (in_map (fun token => classify_token db err token fst)).
  now apply tokenize_quote.
Qed.

End WithDatabase.

End QuoteTag.

(* ------------------------------------------------------------------ *)
(** ** The error marker of [apply_fst] reaches the normalized text *)
(* ------------------------------------------------------------------ *)

Module ErrorMarker.
Import Re ReWords ReFacts Survival QuoteTag.

Lemma sub_from_skip (r : regex) (repl : list piece) (c : char) (s : str)
    (n : nat) :
  match_at r (c :: s) = None ->
  sub_from (S n) r repl (c :: s) = c :: sub_from n r repl s.
Proof. intros H. cbn [sub_from]. now rewrite H. Qed.

Lemma sub_from_step (r : regex) (repl : list piece) (c : char) (s : str)
    (n : nat) :
  sub_from (S n) r repl (c :: s)
  = match match_at r (c :: s) with
    | Some (_ :: _, g, rest) => expand repl g ++ sub_from n r repl rest
    | _ => c :: sub_from n r repl s
    end.
Proof. reflexivity. Qed.

Lemma sub_head_kept (r : regex) (repl : list piece) (c : char) (s : str) :
  match_at r (c :: s) = None -> exists t, sub r repl (c :: s) = c :: t.
Proof.
  intros H. unfold sub. cbn [List.length].
  rewrite (sub_from_skip _ _ _ _ _ H). now eexists.
Qed.

Section WithDatabase.
Variable db : unicode_db.

Lemma strip_head_kept (c : char) (s : str) :
  Unicode.isspace db c = false ->
  exists t, Builtins.strip db (c :: s) = c :: t.
Proof.
  intros Hc. unfold Builtins.strip. cbn [Builtins.dropwhile].
  rewrite Hc. cbn [rev].
  destruct (dropwhile_stops (Unicode.isspace db) (rev s) c [] Hc) as [a E].
  rewrite E, rev_app_distr. cbn [rev app]. now eexists.
Qed.

(** The last three substitutions and [strip] keep a leading E, and a
    leading brace that opens a cardinal tag. *)
Lemma tail_of_strip_tags_keeps_E (t : str) :
  exists t',
    Builtins.strip db
      (sub (spaces_before_punctuation db) [Backref]
         (sub (spaces db) [Text (u " ")]
            (sub word_tag [Backref] (69%N :: t))))
    = 69%N :: t'.
Proof.
  destruct (sub_head_kept word_tag [Backref] 69%N t eq_refl) as [t1 E1].
  destruct (sub_head_kept (spaces db) [Text (u " ")] 69%N t1 eq_refl)
    as [t2 E2].
  destruct (sub_head_kept (spaces_before_punctuation db) [Backref] 69%N t2
              eq_refl) as [t3 E3].
  rewrite E1, E2, E3.
  apply strip_head_kept. reflexivity.
Qed.

Lemma tail_of_strip_tags_keeps_brace (t : str) :
  exists t',
    Builtins.strip db
      (sub (spaces_before_punctuation db) [Backref]
         (sub (spaces db) [Text (u " ")]
            (sub word_tag [Backref] (123%N :: 32%N :: 99%N :: t))))
    = 123%N :: t'.
Proof.
  destruct (sub_head_kept word_tag [Backref] 123%N (32%N :: 99%N :: t)
              eq_refl) as [t1 E1].
  destruct (sub_head_kept (spaces db) [Text (u " ")] 123%N t1 eq_refl)
    as [t2 E2].
  destruct (sub_head_kept (spaces_before_punctuation db) [Backref] 123%N t2
              eq_refl) as [t3 E3].
  rewrite E1, E2, E3.
  apply strip_head_kept. reflexivity.
Qed.

(** The first substitution on a cardinal tag whose value starts with E:
    either the tag matches and its value takes its place, or the tag
    stays. *)
Lemma cardinal_sub_on_marker (v : str) :
  let tagged :=
    u "{ cardinal { integer: " ++ dq :: (69%N :: v) ++ dq :: tag_tail in
  (exists t, sub cardinal_tag [Backref] tagged = 69%N :: t) \/
  (exists t, sub cardinal_tag [Backref] tagged
             = 123%N :: 32%N :: 99%N :: t).
Proof.
  intros tagged.
  assert (Ht : exists tl, tagged = 123%N :: 32%N :: 99%N :: tl)
    by (eexists; reflexivity).
  destruct Ht as [tl Ht].
  unfold sub. rewrite Ht. cbn [List.length].
  assert (Hskip : 123%N :: sub_from (S (S (List.length tl))) cardinal_tag
                             [Backref] (32%N :: 99%N :: tl)
                  = 123%N :: 32%N :: 99%N
                      :: sub_from (List.length tl) cardinal_tag [Backref] tl).
  { rewrite (sub_from_skip cardinal_tag [Backref] 32%N (99%N :: tl) _
               eq_refl).
    rewrite (sub_from_skip cardinal_tag [Backref] 99%N tl _ eq_refl).
    reflexivity. }
  rewrite sub_from_step.
  destruct (match_at cardinal_tag (123%N :: 32%N :: 99%N :: tl))
    as [[[m g] rest]|] eqn:E.
  - destruct m as [|c0 m].
    + right. rewrite Hskip. now eexists.
    + left. rewrite <- Ht in E. rewrite cardinal_tag_eq in E.
      apply match_at_sound in E as [Hs Hm].
      apply matches_tag in Hm as (c & x & Hmx & _ & ->).
      rewrite Hmx in Hs. unfold tagged in Hs.
      rewrite <- !app_assoc in Hs. apply app_inv_head in Hs.
      cbn [app] in Hs. injection Hs as <- _.
      cbn [expand flat_map app]. now eexists.
  - right. rewrite Hskip. now eexists.
Qed.

(** Whatever the text of the library's exception, the tag that
    [classify_token] builds around the error marker leaves
    [strip_tags] as a text that starts with E (of "Error") or with the
    brace of the tag. *)
Lemma marker_reaches_output (err token : str) :
  exists c t,
    strip_tags db (marker_tag err token) = c :: t /\
    (c = 69%N \/ c = 123%N).
Proof.
  unfold strip_tags, marker_tag. cbv zeta.
  pose proof (cardinal_sub_on_marker
                (u "rror: " ++ err ++ u ", for input:'" ++ token ++ u "'"))
    as H.
  cbv zeta in H.
  destruct H as [[t H] | [t H]].
  - destruct (tail_of_strip_tags_keeps_E t) as [t' Ht'].
    exists 69%N, t'. split; [|now left].
    rewrite <- Ht', <- H. reflexivity.
  - destruct (tail_of_strip_tags_keeps_brace t) as [t' Ht'].
    exists 123%N, t'. split; [|now right].
    rewrite <- Ht', <- H. reflexivity.
Qed.

End WithDatabase.
End ErrorMarker.


(* ================================================================== *)
(** * Part IV: the properties *)
(* ================================================================== *)

(** C1, as the code has it.  The digit run 2025 is a token that
    [str.isdigit] accepts and the transducer has no path for.
    [normalize_number] returns that string unchanged, but in a text it is
    not passed through: [classify_token] tags the error marker that
    [apply_fst] returns, and whatever the text of the library's exception
    the normalized text starts with the E of the marker or with the brace
    of its tag, so it is not the input.  With the library's own message
    the output is the marker itself. *)
Theorem C1_unspellable_token_becomes_error_marker (db : unicode_db)
    (lim : nat) (err : str) (self : FrenchNormalizer)
    (H : constructed self) :
  tokenize_text db (u "2025") = [u "2025"] /\
  spelled db lim err self (u "2025") = u "2025" /\
  classify_sentence db err (u "2025") (self_fst self)
    = marker_tag err (u "2025") /\
  (exists c t,
     normalize_text db err self (u "2025") = c :: t /\
     (c = 69%N \/ c = 123%N)) /\
  normalize_text db err self (u "2025") <> u "2025" /\
  normalize_text db operation_failed self (u "2025")
    = u "Error: Operation failed, for input:'2025'".
Proof.
  open_normalizer self H.
  assert (Htag : classify_sentence db err (u "2025") lexicon
                 = marker_tag err (u "2025"))
    by (vm_compute; reflexivity).
  assert (Hhead : exists c t,
            normalize_text db err
              {| self_fst := lexicon; self_stats := st |} (u "2025")
            = c :: t /\ (c = 69%N \/ c = 123%N)).
  { unfold normalize_text. cbv zeta. cbn [self_fst]. rewrite Htag.
    apply ErrorMarker.marker_reaches_output. }
  split; [vm_compute; reflexivity|].
  split; [vm_compute; reflexivity|].
  split; [exact Htag|].
  split; [exact Hhead|].
  split; [|vm_compute; reflexivity].
  destruct Hhead as (c & t & -> & Hc).
  intros E. injection E as -> _. destruct Hc as [Hc | Hc]; discriminate Hc.
Qed.

Lemma C1_unspellable_token_becomes_error_marker_witness :
  normalize_text latin1_db operation_failed fresh (u "2025")
    = u "Error: Operation failed, for input:'2025'" /\
  spelled latin1_db default_limit operation_failed fresh (u "2025")
    = u "2025".
Proof.
  pose proof (C1_unspellable_token_becomes_error_marker latin1_db
                default_limit operation_failed fresh fresh_constructed)
    as [_ [Hn [_ [_ [_ Ht]]]]].
  split; [exact Ht | exact Hn].
Defined.

(** C2. For every integer n of [0,1000], a constructed normalizer turns
    [str(n)] into the output the transducer holds for it: a non-empty
    string, different from [str(n)], and not an error marker.  That output
    is spelled out: it holds no digit, and each of its pieces between
    spaces and hyphens is a number word, that is a word of the rule
    tables or one of et, vingts, cent, cents, mille. *)
Theorem C2_total_over_range (db : unicode_db) (lim : nat) (err : str)
    (self : FrenchNormalizer) (n : Z)
    (H : constructed self) (Hn : 0 <= n <= 1000) :
  let r := spelled db lim err self (str_of_int n) in
  r <> [] /\
  r <> str_of_int n /\
  startswith (u "Error:") r = false /\
  In (str_of_int n, r) (self_fst self) /\
  digit_free db r = true /\
  Forall (fun w => In w number_words) (words_of r).
Proof.
  open_normalizer self H.
  destruct (numeral_facts db lim err n Hn)
    as [Hint [Hin [[c [t [Hr _]]] [Hne Herr]]]].
  destruct (spelling_facts db err n Hn) as [Hd Hw].
  cbv zeta.
  rewrite (spelled_in_range _ _ _ _ _ n Hint (proj2 (in_range_iff n) Hn)).
  cbn [self_fst].
  split; [|split; [exact Hne | split; [exact Herr | split; [exact Hin |
    split; [exact Hd | exact Hw]]]]].
  rewrite Hr. discriminate.
Qed.

Lemma C2_total_over_range_witness :
  let r := spelled latin1_db default_limit operation_failed fresh
             (str_of_int 342) in
  r <> [] /\ r <> str_of_int 342 /\
  startswith (u "Error:") r = false /\
  In (str_of_int 342, r) (self_fst fresh) /\
  digit_free latin1_db r = true /\
  words_of r = [u "trois"; u "cent"; u "quarante"; u "deux"].
Proof.
  pose proof (C2_total_over_range latin1_db default_limit
                operation_failed fresh 342 fresh_constructed ltac:(lia))
    as Hw.
  cbv zeta in Hw |- *.
  destruct Hw as (H1 & H2 & H3 & H4 & H5 & _).
  repeat apply conj; try assumption.
  vm_compute. reflexivity.
Defined.

(** C3. [normalize_number] is a total function on strings: whenever
    [int] raises on its input, or parses it to an integer below 0 or
    above 1000, it returns the input unchanged. *)
Theorem C3_pass_through (db : unicode_db) (lim : nat) (err : str)
    (self : FrenchNormalizer) (s : str)
    (H : Builtins.int db lim s = None \/
         exists n, Builtins.int db lim s = Some n /\ (n < 0 \/ 1000 < n)) :
  spelled db lim err self s = s.
Proof.
  destruct H as [E | [n [E Hn]]].
  - now apply spelled_unparsable.
  - apply (spelled_out_of_range _ _ _ _ _ n E).
    destruct (in_range n) eqn:R; [|reflexivity].
    apply in_range_iff in R. lia.
Qed.

Lemma C3_pass_through_witness :
  spelled latin1_db default_limit operation_failed fresh (u "1001")
    = u "1001" /\
  spelled latin1_db default_limit operation_failed fresh (u "-1")
    = u "-1" /\
  spelled latin1_db default_limit operation_failed fresh (u "abc")
    = u "abc".
Proof.
  repeat apply conj; apply C3_pass_through.
  - right. exists 1001. split; [vm_compute; reflexivity | lia].
  - right. exists (-1). split; [vm_compute; reflexivity | lia].
  - left. vm_compute. reflexivity.
Defined.

(** C4. The et-connector predicate holds exactly of the integers whose
    last digit is 1 and that are none of 11, 81, 91; accordingly a
    constructed normalizer spells 21 with "et", 22 with a hyphen, and 81,
    91 and 11 without "et". *)
Theorem C4_et_rule (db : unicode_db) (lim : nat) (err : str)
    (self : FrenchNormalizer) (H : constructed self) :
  (forall n : Z,
     rules.apply_et_rule n = true <->
     n mod 10 = 1 /\ ~ In n [11; 81; 91]) /\
  spelled db lim err self (u "21") = u "vingt et un" /\
  spelled db lim err self (u "22") = u "vingt-deux" /\
  spelled db lim err self (u "81") = u "quatre-vingt-un" /\
  spelled db lim err self (u "91") = u "quatre-vingt-onze" /\
  spelled db lim err self (u "11") = u "onze".
Proof.
  open_normalizer self H. split.
  - intros n. unfold rules.apply_et_rule, rules.in_list.
    rewrite andb_true_iff, negb_true_iff, Z.eqb_eq. simpl.
    rewrite !orb_false_iff, !Z.eqb_neq. intuition lia.
  - repeat apply conj; vm_compute; reflexivity.
Qed.

Lemma C4_et_rule_witness :
  rules.apply_et_rule 31 = true /\
  spelled latin1_db default_limit operation_failed fresh (u "21")
    = u "vingt et un".
Proof.
  pose proof (C4_et_rule latin1_db default_limit operation_failed fresh
                fresh_constructed) as [Hrule [H21 _]].
  split.
  - apply Hrule. split; [reflexivity|]. simpl. intuition lia.
  - exact H21.
Defined.

(** C5. Every sub-range builder returns, and yields one entry per integer
    of its range, in order: units 0-9, teens 10-19, 20-69, 70-79, 80-99,
    100-999 and 1000.  Their union, the transducer of
    [build_french_cardinal_fst], has exactly 1001 entries whose
    numeral-strings are the decimal renderings of 0, 1, ..., 1000, each
    once: no gap and no duplicate within or across the builders. *)
Theorem C5_lexicon_covers_0_1000_once :
  exists f_20_69 f_80_99 f_hundreds f,
    build_compound_20_69_dynamic = Some f_20_69 /\
    build_80_99_dynamic = Some f_80_99 /\
    build_hundreds_dynamic = Some f_hundreds /\
    build_french_cardinal_fst = Some f /\
    keys build_units_fst = numerals 0 10 /\
    keys build_teens_fst = numerals 10 20 /\
    keys f_20_69 = numerals 20 70 /\
    keys build_70_79_dynamic = numerals 70 80 /\
    keys f_80_99 = numerals 80 100 /\
    keys f_hundreds = numerals 100 1000 /\
    keys build_thousand_fst = numerals 1000 1001 /\
    f = build_units_fst ++ build_teens_fst ++ f_20_69
          ++ build_70_79_dynamic ++ f_80_99 ++ f_hundreds
          ++ build_thousand_fst /\
    List.length f = 1001%nat /\
    keys f = numerals 0 1001 /\
    NoDup (keys f).
Proof.
  do 4 eexists.
  split; [vm_compute; reflexivity|].
  split; [vm_compute; reflexivity|].
  split; [vm_compute; reflexivity|].
  split; [vm_compute; reflexivity|].
  repeat apply conj; try (vm_compute; reflexivity).
  apply distinct_NoDup. vm_compute. reflexivity.
Qed.

(** C6. The base-60 seventies and the vigesimal eighties and nineties:
    70, 71, 79, 80, 81 and 99 are spelled "soixante-dix",
    "soixante et onze", "soixante-dix-neuf", "quatre-vingts",
    "quatre-vingt-un" and "quatre-vingt-dix-neuf". *)
Theorem C6_base60_and_vigesimal (db : unicode_db) (lim : nat) (err : str)
    (self : FrenchNormalizer) (H : constructed self) :
  spelled db lim err self (u "70") = u "soixante-dix" /\
  spelled db lim err self (u "71") = u "soixante et onze" /\
  spelled db lim err self (u "79") = u "soixante-dix-neuf" /\
  spelled db lim err self (u "80") = u "quatre-vingts" /\
  spelled db lim err self (u "81") = u "quatre-vingt-un" /\
  spelled db lim err self (u "99") = u "quatre-vingt-dix-neuf".
Proof.
  open_normalizer self H. repeat apply conj; vm_compute; reflexivity.
Qed.

Lemma C6_base60_and_vigesimal_witness :
  spelled latin1_db default_limit operation_failed fresh (u "70")
    = u "soixante-dix" /\
  spelled latin1_db default_limit operation_failed fresh (u "80")
    = u "quatre-vingts".
Proof.
  pose proof (C6_base60_and_vigesimal latin1_db default_limit
                operation_failed fresh fresh_constructed)
    as [H70 [_ [_ [H80 _]]]].
  split; assumption.
Defined.

(** C7. Agreement of "cent" and invariance of "mille": 200 is
    "deux cents", 201 is "deux cent un", 100 is "cent" and 1000 is
    "mille"; the plural rule itself holds exactly of the multiples of 100
    from 200 on. *)
Theorem C7_cent_and_mille (db : unicode_db) (lim : nat) (err : str)
    (self : FrenchNormalizer) (H : constructed self) :
  (forall n : Z,
     rules.apply_s_to_cents n = true <-> 200 <= n /\ n mod 100 = 0) /\
  spelled db lim err self (u "200") = u "deux cents" /\
  spelled db lim err self (u "201") = u "deux cent un" /\
  spelled db lim err self (u "100") = u "cent" /\
  spelled db lim err self (u "1000") = u "mille".
Proof.
  open_normalizer self H. split.
  - intros n. unfold rules.apply_s_to_cents.
    rewrite andb_true_iff, Z.leb_le, Z.eqb_eq. reflexivity.
  - repeat apply conj; vm_compute; reflexivity.
Qed.

Lemma C7_cent_and_mille_witness :
  spelled latin1_db default_limit operation_failed fresh (u "200")
    = u "deux cents" /\
  spelled latin1_db default_limit operation_failed fresh (u "1000")
    = u "mille".
Proof.
  pose proof (C7_cent_and_mille latin1_db default_limit operation_failed
                fresh fresh_constructed) as [_ [H200 [_ [_ H1000]]]].
  split; assumption.
Defined.

(** C8. The two end-to-end scenarios: the digit runs 3 and 21 are
    replaced by their spellings and the rest of the sentence comes back as
    it was; a text without digits comes back unchanged.  The tokens the
    first sentence is split into are given as well. *)
Theorem C8_end_to_end (db : unicode_db) (err : str)
    (self : FrenchNormalizer) (H : constructed self) :
  tokenize_text db (u "J'ai 3 chiens et 21 chats")
    = [u "J'ai"; u " "; u "3"; u " "; u "chiens"; u " "; u "et"; u " ";
       u "21"; u " "; u "chats"] /\
  normalize_text db err self (u "J'ai 3 chiens et 21 chats")
    = u "J'ai trois chiens et vingt et un chats" /\
  normalize_text db err self (u "bonjour le monde") = u "bonjour le monde" /\
  normalize db err (u "J'ai 3 chiens et 21 chats")
    = Some (u "J'ai trois chiens et vingt et un chats") /\
  normalize db err (u "bonjour le monde") = Some (u "bonjour le monde").
Proof.
  open_normalizer self H.
  repeat apply conj; vm_compute; reflexivity.
Qed.

Lemma C8_end_to_end_witness :
  normalize_text latin1_db operation_failed fresh
    (u "J'ai 3 chiens et 21 chats")
    = u "J'ai trois chiens et vingt et un chats" /\
  normalize_text latin1_db operation_failed fresh (u "bonjour le monde")
    = u "bonjour le monde".
Proof.
  pose proof (C8_end_to_end latin1_db operation_failed fresh
                fresh_constructed) as [_ [H1 [H2 _]]].
  split; assumption.
Defined.

(** C9. Whatever string [int] parses to an integer n of [0,1000], be it
    canonical or not (leading zeros, a plus sign, surrounding blanks),
    [normalize_number] looks up [str(n)], not the string itself: it
    returns the transducer's output for [str(n)], which is what it returns
    for the canonical rendering, and never the input unchanged. *)
Theorem C9_canonicalized_before_lookup (db : unicode_db) (lim : nat)
    (err : str) (self : FrenchNormalizer) (s : str) (n : Z)
    (H : constructed self)
    (Hs : Builtins.int db lim s = Some n) (Hn : 0 <= n <= 1000) :
  let r := spelled db lim err self s in
  r = apply_fst err (str_of_int n) (self_fst self) /\
  r = spelled db lim err self (str_of_int n) /\
  In (str_of_int n, r) (self_fst self) /\
  r <> s.
Proof.
  open_normalizer self H.
  destruct (numeral_facts db lim err n Hn)
    as [Hint [Hin [[c [t [Hr Hc]]] _]]].
  cbv zeta.
  rewrite (spelled_in_range _ _ _ _ _ n Hs (proj2 (in_range_iff n) Hn)).
  rewrite (spelled_in_range _ _ _ _ _ n Hint (proj2 (in_range_iff n) Hn)).
  cbn [self_fst].
  split; [exact eq_refl | split; [exact eq_refl | split; [exact Hin|]]].
  intros E. rewrite Hr in E. rewrite <- E in Hs.
  pose proof (eq_trans (eq_sym (int_of_word db lim c t Hc)) Hs) as Hbad.
  discriminate Hbad.
Qed.

Lemma C9_canonicalized_before_lookup_witness :
  spelled latin1_db default_limit operation_failed fresh (u "007")
    = u "sept" /\
  spelled latin1_db default_limit operation_failed fresh (u "+21")
    = u "vingt et un" /\
  spelled latin1_db default_limit operation_failed fresh (u " 21 ")
    = u "vingt et un".
Proof.
  pose proof (C9_canonicalized_before_lookup latin1_db default_limit
    operation_failed fresh (u "007") 7 fresh_constructed
    ltac:(vm_compute; reflexivity) ltac:(lia)) as [H7 _].
  pose proof (C9_canonicalized_before_lookup latin1_db default_limit
    operation_failed fresh (u "+21") 21 fresh_constructed
    ltac:(vm_compute; reflexivity) ltac:(lia)) as [Hp _].
  pose proof (C9_canonicalized_before_lookup latin1_db default_limit
    operation_failed fresh (u " 21 ") 21 fresh_constructed
    ltac:(vm_compute; reflexivity) ltac:(lia)) as [Hb _].
  repeat apply conj.
  - rewrite H7. vm_compute. reflexivity.
  - rewrite Hp. vm_compute. reflexivity.
  - rewrite Hb. vm_compute. reflexivity.
Defined.

(** C10. There are texts without digits that [normalize_text] does not
    return unchanged: the text made of one double quote comes back as
    [quote_tag], the text of a word tag around that quote, wrapper
    included.  More generally, for every text
    that contains a double quote: the tokenizer yields the quote as a
    token; [classify_token] wraps it in a word tag whose value is that
    quote; the word-tag pattern, whose group excludes quotes, matches
    nowhere on that tag; and the normalized text still contains the tag. *)
Theorem C10_quote_keeps_its_tag (db : unicode_db) (err : str)
    (self : FrenchNormalizer) :
  (exists text,
     digit_free db text = true /\ normalize_text db err self text <> text) /\
  (digit_free db [dq] = true /\
   normalize_text db err self [dq] = quote_tag) /\
  (forall text,
     In dq text ->
     In [dq] (tokenize_text db text) /\
     classify_token db err [dq] (self_fst self)
       = u "{ word { value: " ++ [dq] ++ [dq] ++ [dq] ++ u " } }" /\
     (forall rest, Re.match_at word_tag (quote_tag ++ rest) = None) /\
     Re.sub word_tag [Re.Backref] quote_tag = quote_tag /\
     infix_of quote_tag (normalize_text db err self text)).
Proof.
  assert (Hone : normalize_text db err self [dq] = quote_tag)
    by reflexivity.
  split; [|split].
  - exists [dq]. split; [reflexivity|].
    rewrite Hone. discriminate.
  - split; [reflexivity | exact Hone].
  - intros text Hq. split; [|split; [|split; [|split]]].
    + now apply QuoteTag.tokenize_quote.
    + reflexivity.
    + intros rest. vm_compute. reflexivity.
    + vm_compute. reflexivity.
    + unfold normalize_text. cbv zeta.
      apply QuoteTag.strip_tags_survives.
      now apply QuoteTag.classify_sentence_quote.
Qed.

Lemma C10_quote_keeps_its_tag_witness :
  In [dq] (tokenize_text latin1_db
             (u "Il dit " ++ [dq] ++ u "oui" ++ [dq] ++ u " 3 fois")) /\
  infix_of quote_tag
    (normalize_text latin1_db operation_failed fresh
       (u "Il dit " ++ [dq] ++ u "oui" ++ [dq] ++ u " 3 fois")).
Proof.
  destruct (C10_quote_keeps_its_tag latin1_db operation_failed fresh)
    as [_ [_ Hall]].
  destruct (Hall (u "Il dit " ++ [dq] ++ u "oui" ++ [dq] ++ u " 3 fois"))
    as [Htok [_ [_ [_ Hinfix]]]].
  - vm_compute. tauto.
  - split; [exact Htok | exact Hinfix].
Defined.

(* ================================================================== *)
(** * Part V: lemmas for the further properties *)
(* ================================================================== *)

(** ** The entries of the transducer *)

Module Entries.

Lemma spelled_numeral db lim err self n :
  constructed self -> 0 <= n <= 1000 ->
  spelled db lim err self (str_of_int n) = word err n.
Proof.
  intros H Hn.
  destruct (numeral_facts db lim err n Hn) as [Hint _].
  apply constructed_fst in H.
  rewrite (spelled_in_range db lim err self (str_of_int n) n Hint).
  - rewrite H. reflexivity.
  - apply in_range_iff. exact Hn.
Qed.

Lemma forallb_range2 (p : Z -> Z -> bool) (a b c d : Z) :
  forallb (fun i => forallb (p i) (range c d)) (range a b) = true ->
  forall i j, a <= i < b -> c <= j < d -> p i j = true.
Proof.
  intros H i j Hi Hj.
  apply (forallb_range (p i) c d); [|exact Hj].
  apply (forallb_range (fun i => forallb (p i) (range c d)) a b H i Hi).
Qed.

Lemma startswith_iff (p s : str) :
  startswith p s = true <-> exists r, s = p ++ r.
Proof.
  revert s; induction p as [|x p IH]; intros s; simpl.
  - split; [intros _; exists s; reflexivity | reflexivity].
  - destruct s as [|y s].
    + split; [discriminate | intros [r Hr]; discriminate].
    + rewrite andb_true_iff, IH. unfold ch_eqb. rewrite N.eqb_eq.
      split.
      * intros [-> [r ->]]. exists r. reflexivity.
      * intros [r Hr]. injection Hr as -> ->. split; [reflexivity|].
        exists r. reflexivity.
Qed.

Lemma infixb_iff (w s : str) : infixb w s = true <-> infix_of w s.
Proof.
  induction s as [|c s IH].
  - simpl. rewrite orb_false_r, startswith_iff. split.
    + intros [r Hr]. exists [], r. exact Hr.
    + intros [a [b Hab]]. destruct a; [|discriminate].
      exists b. exact Hab.
  - cbn [infixb]. rewrite orb_true_iff, IH, startswith_iff. split.
    + intros [[r Hr] | [a [b Hab]]].
      * exists [], r. exact Hr.
      * exists (c :: a), b. rewrite Hab. reflexivity.
    + intros [[|c' a] [b Hab]].
      * left. exists b. exact Hab.
      * right. injection Hab as _ Hab. exists a, b. exact Hab.
Qed.

Lemma endswith_iff (p s : str) :
  endswith p s = true <-> exists a, s = a ++ p.
Proof.
  unfold endswith. rewrite startswith_iff. split.
  - intros [r Hr]. exists (rev r).
    rewrite <- (rev_involutive s), Hr, rev_app_distr, rev_involutive.
    reflexivity.
  - intros [a ->]. exists (rev a). apply rev_app_distr.
Qed.

Lemma NoDup_map_injective {A B : Type} (f : A -> B) (l : list A) :
  NoDup (map f l) ->
  forall x y, In x l -> In y l -> f x = f y -> x = y.
Proof.
  induction l as [|a l IH]; intros Hnd x y Hx Hy Hxy; [contradiction|].
  cbn [map] in Hnd. apply NoDup_cons_iff in Hnd as [Hna Hnd].
  destruct Hx as [<-|Hx], Hy as [<-|Hy].
  - reflexivity.
  - exfalso. apply Hna. rewrite Hxy. now apply in_map.
  - exfalso. apply Hna. rewrite <- Hxy. now apply in_map.
  - now apply IH.
Qed.

(** The outputs of the transducer for 0..1000 are pairwise distinct. *)
Lemma words_distinct err : distinct (map (word err) (range 0 1001)) = true.
Proof. vm_compute. reflexivity. Qed.

Lemma keys_lexicon : keys lexicon = numerals 0 1001.
Proof. vm_compute. reflexivity. Qed.

Lemma compose_accep_miss (text : str) (f : Pynini.Fst) :
  ~ In text (keys f) -> Pynini.compose_accep text f = [].
Proof.
  unfold Pynini.compose_accep, keys.
  induction f as [|[i o] f IH]; intros Hn; [reflexivity|].
  cbn [filter fst]. cbn [map fst In] in Hn.
  destruct (str_eqb i text) eqn:E.
  - apply str_eqb_eq in E. exfalso. apply Hn. now left.
  - apply IH. intros Hin. apply Hn. now right.
Qed.

Lemma apply_fst_miss (err text : str) (f : Pynini.Fst) :
  ~ In text (keys f) ->
  apply_fst err text f
    = u "Error: " ++ err ++ u ", for input:'" ++ text ++ u "'".
Proof.
  intros Hn. unfold apply_fst. rewrite (compose_accep_miss text f Hn).
  reflexivity.
Qed.

Lemma not_numeral (text : str) :
  existsb (str_eqb text) (numerals 0 1001) = false ->
  forall n, 0 <= n <= 1000 -> text <> str_of_int n.
Proof.
  intros E n Hn ->.
  assert (Hex : existsb (str_eqb (str_of_int n)) (numerals 0 1001) = true).
  { apply existsb_exists. exists (str_of_int n). split.
    - unfold numerals. apply in_map. apply range_In. lia.
    - apply str_eqb_refl. }
  rewrite Hex in E. discriminate.
Qed.

End Entries.

Module Checks.
Import Entries.


Lemma hundreds_checked err :
  forallb (fun h =>
    let prefix := if h =? 1 then u "cent" else word err h ++ u " cent" in
    str_eqb (word err (100 * h))
            (prefix ++ if 2 <=? h then u "s" else [])
    && forallb (fun o =>
         str_eqb (word err (100 * h + o)) (prefix ++ u " " ++ word err o))
         (range 1 100))
    (range 1 10) = true.
Proof. vm_compute. reflexivity. Qed.

Lemma tens_checked err :
  forallb (fun t =>
    forallb (fun d =>
      str_eqb (word err (10 * t + d))
              (word err (10 * t)
                 ++ (if d =? 1 then u " et " else u "-") ++ word err d))
      (range 1 10))
    (range 2 7) = true.
Proof. vm_compute. reflexivity. Qed.

Lemma seventies_checked err :
  forallb (fun o =>
    str_eqb (word err (60 + o))
            (word err 60
               ++ (if o =? 11 then u " et " else u "-") ++ word err o))
    (range 10 20) = true.
Proof. vm_compute. reflexivity. Qed.

Lemma eighties_checked err :
  forallb (fun o =>
    str_eqb (word err (80 + o)) (u "quatre-vingt-" ++ word err o))
    (range 1 20) = true.
Proof. vm_compute. reflexivity. Qed.

Lemma et_checked err :
  forallb (fun n =>
    Bool.eqb (infixb (u " et ") (word err n))
             (rules.in_list (n mod 100) [21; 31; 41; 51; 61; 71]))
    (range 0 1001) = true.
Proof. vm_compute. reflexivity. Qed.

Lemma plural_checked err :
  forallb (fun n =>
    Bool.eqb (endswith (u "cents") (word err n))
             (rules.apply_s_to_cents n && (n <? 1000))
    && Bool.eqb (endswith (u "vingts") (word err n))
                (rules.apply_s_to_vingts (n mod 100)))
    (range 0 1001) = true.
Proof. vm_compute. reflexivity. Qed.

End Checks.

(** ** The counters *)

Module Counters.

Lemma count_cons {A : Type} (p : A -> bool) (x : A) (l : list A) :
  count p (x :: l) = (if p x then 1 else 0) + count p l.
Proof.
  unfold count. cbn [filter]. destruct (p x); cbn [List.length]; lia.
Qed.

(** One call: the transducer is kept, and exactly one of three things
    happens to the counters. *)
Lemma one_call db lim err self s :
  let self' := snd (normalize_number db lim err self s) in
  self_fst self' = self_fst self /\
  normalized (get_stats self')
    = normalized (get_stats self) + (if spellable db lim s then 1 else 0) /\
  errors (get_stats self')
    = errors (get_stats self) + (if unparsable db lim s then 1 else 0).
Proof.
  unfold normalize_number, spellable, unparsable, in_range, get_stats.
  destruct (Builtins.int db lim s) as [num|]; cbv zeta.
  - destruct ((0 <=? num) && (num <=? 1000));
      cbn [negb snd self_fst self_stats normalized errors];
      repeat apply conj; try reflexivity; lia.
  - cbn [snd self_fst self_stats normalized errors].
    repeat apply conj; try reflexivity; lia.
Qed.

End Counters.

(** ** The tokenizer *)

Module Tokens.
Import Re ReWords ReFacts.

(** A starred pattern cannot fail before a continuation that cannot. *)
Lemma run_Star_returns {A : Type} (a : regex) (s acc : str)
    (g : option str) (k : str -> str -> option str -> option A) :
  (forall s' acc' g', k s' acc' g' <> None) ->
  run (Star a) s acc g k <> None.
Proof.
  intros Hk. cbn [run]. destruct (List.length s) as [|n]; [apply Hk|].
  match goal with
  | |- match ?t with _ => _ end <> None => destruct t
  end; [discriminate | apply Hk].
Qed.

Lemma run_Alt_l_returns {A : Type} (a b : regex) (s acc : str)
    (g : option str) (k : str -> str -> option str -> option A) :
  run a s acc g k <> None -> run (Alt a b) s acc g k <> None.
Proof.
  intros H. cbn [run]. destruct (run a s acc g k); [discriminate|].
  now elim H.
Qed.

Lemma run_Alt_r_returns {A : Type} (a b : regex) (s acc : str)
    (g : option str) (k : str -> str -> option str -> option A) :
  run b s acc g k <> None -> run (Alt a b) s acc g k <> None.
Proof.
  intros H. cbn [run]. destruct (run a s acc g k); [discriminate | exact H].
Qed.

Lemma run_Seq_eq {A : Type} (a b : regex) (s acc : str) (g : option str)
    (k : str -> str -> option str -> option A) :
  run (Seq a b) s acc g k
  = run a s acc g (fun s' acc' g' => run b s' acc' g' k).
Proof. reflexivity. Qed.

Lemma run_Chr_eq {A : Type} (p : char -> bool) (c : char) (s acc : str)
    (g : option str) (k : str -> str -> option str -> option A) :
  run (Chr p) (c :: s) acc g k = if p c then k s (c :: acc) g else None.
Proof. reflexivity. Qed.

Section WithDatabase.
Variable db : unicode_db.

(** Every character of a token is a kept one. *)
Lemma token_classes :
  classes_in (fun c => kept db c = true) (token_pattern db).
Proof.
  unfold kept, dropped. cbn. repeat split; intros c Hc.
  - rewrite Hc. reflexivity.
  - rewrite Hc. reflexivity.
  - rewrite Hc. cbn. now rewrite andb_false_r.
  - rewrite Hc. cbn. now rewrite andb_false_r.
  - unfold one_of in Hc. cbn in Hc.
    assert (E : c = 39%N).
    { unfold ch_eqb in Hc.
      destruct (N.eqb_spec c 39) as [E|_]; [exact E | discriminate Hc]. }
    subst c. vm_compute. reflexivity.
  - rewrite Hc. cbn. now rewrite andb_false_r.
  - rewrite Hc. cbn. now rewrite andb_false_r.
  - apply negb_true_iff, orb_false_iff in Hc as [Hw _].
    rewrite Hw. cbn. now rewrite andb_false_r.
  - rewrite Hc. cbn. now rewrite andb_false_r.
Qed.

(** At a kept character the pattern matches. *)
Lemma token_at_kept (c : char) (s : str) :
  kept db c = true -> match_at (token_pattern db) (c :: s) <> None.
Proof.
  unfold kept, dropped, match_at, token_pattern. intros Hk.
  destruct (Unicode.isdecimal db c) eqn:Hd.
  { apply run_Alt_l_returns. unfold Plus.
    rewrite run_Seq_eq, run_Chr_eq, Hd.
    apply run_Star_returns. discriminate. }
  apply run_Alt_r_returns.
  destruct (letter c) eqn:Hl.
  { apply run_Alt_l_returns. unfold Plus.
    rewrite !run_Seq_eq, run_Chr_eq, Hl.
    apply run_Star_returns. intros s' acc' g'.
    apply run_Star_returns. discriminate. }
  apply run_Alt_r_returns.
  destruct (Unicode.isspace db c) eqn:Hs.
  { apply run_Alt_r_returns. rewrite run_Chr_eq, Hs. discriminate. }
  destruct (Unicode.isword db c) eqn:Hw; [discriminate Hk|].
  apply run_Alt_l_returns. rewrite run_Chr_eq, Hw, Hs. discriminate.
Qed.

Lemma filter_all {A : Type} (p : A -> bool) (l : list A) :
  Forall (fun x => p x = true) l -> filter p l = l.
Proof.
  induction 1 as [|x l Hx _ IH]; [reflexivity|].
  cbn [filter]. now rewrite Hx, IH.
Qed.

Lemma findall_from_keeps :
  forall (n : nat) (s : str),
    (List.length s <= n)%nat ->
    List.concat (findall_from n (token_pattern db) s) = filter (kept db) s /\
    Forall (fun t => t <> []) (findall_from n (token_pattern db) s).
Proof.
  induction n as [|n IH]; intros s Hlen.
  - destruct s; [split; [reflexivity | constructor]|].
    cbn [List.length] in Hlen. lia.
  - destruct s as [|c s]; [split; [reflexivity | constructor]|].
    cbn [List.length] in Hlen. cbn [findall_from].
    destruct (match_at (token_pattern db) (c :: s))
      as [[[m g] rest]|] eqn:E.
    + pose proof (match_at_nonempty _ _ _ _ _
                    (proj1 (program_patterns_consume db)) E) as Hne.
      apply match_at_sound in E as [Hs Hm].
      destruct m as [|c0 m]; [now elim Hne|].
      apply (matches_classes _ _ _ _ _ token_classes) in Hm.
      destruct (IH rest) as [Hc Hf].
      { apply (f_equal (@List.length N)) in Hs.
        rewrite length_app in Hs. cbn [List.length] in Hs. lia. }
      split.
      * cbn [List.concat]. rewrite Hc, Hs, filter_app, (filter_all _ _ Hm).
        reflexivity.
      * constructor; [discriminate | exact Hf].
    + destruct (IH s) as [Hc Hf]; [lia|].
      split; [|exact Hf].
      rewrite Hc. cbn [filter].
      destruct (kept db c) eqn:Hk; [|reflexivity].
      elim (token_at_kept c s Hk E).
Qed.

End WithDatabase.
End Tokens.

(** ** Scans *)

Module Scan.
Import Re ReWords ReFacts.

Section WithPattern.
Variables (r : regex) (repl : list piece).

(** Fuel beyond the length of the text is not used. *)
Lemma sub_from_fuel :
  forall (n m : nat) (s : str),
    (List.length s <= n)%nat -> (List.length s <= m)%nat ->
    sub_from n r repl s = sub_from m r repl s.
Proof.
  induction n as [|n IH]; intros m s Hn Hm.
  - destruct s; [|cbn [List.length] in Hn; lia]. destruct m; reflexivity.
  - destruct m as [|m].
    + destruct s; [reflexivity | cbn [List.length] in Hm; lia].
    + destruct s as [|c s]; [reflexivity|].
      cbn [List.length] in Hn, Hm.
      rewrite !ErrorMarker.sub_from_step.
      destruct (match_at r (c :: s)) as [[[mm g] rest]|] eqn:E.
      * destruct mm as [|c0 mm].
        -- f_equal. apply IH; lia.
        -- f_equal. apply match_at_sound in E as [Hs _].
           apply (f_equal (@List.length N)) in Hs.
           rewrite length_app in Hs. cbn [List.length] in Hs.
           apply IH; lia.
      * f_equal. apply IH; lia.
Qed.

Lemma sub_nil : sub r repl [] = [].
Proof. reflexivity. Qed.

Lemma sub_cons_skip (c : char) (s : str) :
  match_at r (c :: s) = None -> sub r repl (c :: s) = c :: sub r repl s.
Proof.
  intros E. unfold sub. cbn [List.length].
  rewrite ErrorMarker.sub_from_step, E. reflexivity.
Qed.

Lemma sub_match (s m rest : str) (g : option str) :
  match_at r s = Some (m, g, rest) -> m <> [] ->
  sub r repl s = expand repl g ++ sub r repl rest.
Proof.
  intros E Hm. destruct m as [|c0 m]; [now elim Hm|].
  pose proof (match_at_sound _ _ _ _ _ E) as [Hs _].
  destruct s as [|c s]; [discriminate Hs|].
  unfold sub. cbn [List.length].
  rewrite ErrorMarker.sub_from_step, E. f_equal.
  apply (f_equal (@List.length N)) in Hs.
  rewrite length_app in Hs. cbn [List.length] in Hs.
  apply sub_from_fuel; lia.
Qed.

Lemma turns_nil : turns r repl [] [].
Proof. intros rest. reflexivity. Qed.

Lemma turns_app (x1 y1 x2 y2 : str) :
  turns r repl x1 y1 -> turns r repl x2 y2 -> turns r repl (x1 ++ x2) (y1 ++ y2).
Proof.
  intros H1 H2 rest. rewrite <- !app_assoc, H1, H2. reflexivity.
Qed.

Lemma turns_one (c : char) :
  (forall rest, match_at r (c :: rest) = None) -> turns r repl [c] [c].
Proof. intros H rest. cbn [app]. apply sub_cons_skip, H. Qed.

Lemma turns_all (x : str) :
  Forall (fun c => forall rest, match_at r (c :: rest) = None) x ->
  turns r repl x x.
Proof.
  induction 1 as [|c x Hc _ IH]; [exact turns_nil|].
  apply (turns_app [c] [c] x x); [now apply turns_one | exact IH].
Qed.

Lemma turns_match (x y : str) :
  x <> [] ->
  (forall rest, exists g,
     match_at r (x ++ rest) = Some (x, g, rest) /\ expand repl g = y) ->
  turns r repl x y.
Proof.
  intros Hx H rest. destruct (H rest) as [g [E <-]].
  now apply (sub_match _ x rest g).
Qed.

Lemma turns_join (sep : str) (f h : str -> str) (tokens : list str) :
  turns r repl sep sep ->
  Forall (fun t => turns r repl (f t) (h t)) tokens ->
  turns r repl (join sep (map f tokens)) (join sep (map h tokens)).
Proof.
  intros Hsep. induction 1 as [|t tokens Ht Hts IH]; [exact turns_nil|].
  destruct tokens as [|t' tokens]; [exact Ht|].
  change (turns r repl (f t ++ sep ++ join sep (map f (t' :: tokens)))
                (h t ++ sep ++ join sep (map h (t' :: tokens)))).
  apply turns_app; [exact Ht|]. apply turns_app; [exact Hsep | exact IH].
Qed.

Lemma sub_of_turns (x y : str) : turns r repl x y -> sub r repl x = y.
Proof.
  intros H. specialize (H []). rewrite !app_nil_r in H. exact H.
Qed.

End WithPattern.

(** *** Literals and runs *)

Lemma run_Lit {A : Type} (l : str) :
  forall (s acc : str) (g : option str)
         (k : str -> str -> option str -> option A),
    run (Lit l) (l ++ s) acc g k = k s (rev l ++ acc) g.
Proof.
  induction l as [|c l IH]; intros s acc g k; [reflexivity|].
  change (run (Lit (c :: l)) ((c :: l) ++ s) acc g k)
    with (if ch_eqb c c then run (Lit l) (l ++ s) (c :: acc) g k else None).
  unfold ch_eqb. rewrite N.eqb_refl, IH. cbn [rev].
  now rewrite <- app_assoc.
Qed.

Lemma run_Lit_mismatch {A : Type} (l : str) :
  forall (s acc : str) (g : option str)
         (k : str -> str -> option str -> option A),
    startswith l s = false -> run (Lit l) s acc g k = None.
Proof.
  induction l as [|c l IH]; intros s acc g k H; [discriminate H|].
  destruct s as [|y s]; [reflexivity|].
  change (run (Lit (c :: l)) (y :: s) acc g k)
    with (if ch_eqb c y then run (Lit l) s (y :: acc) g k else None).
  cbn [startswith] in H.
  destruct (ch_eqb c y); [|reflexivity].
  apply IH. exact H.
Qed.

(** A pattern that opens with a literal matches only where the literal
    stands. *)
Lemma literal_needed (l : str) (r : regex) (s : str) :
  startswith l s = false -> match_at (Seq (Lit l) r) s = None.
Proof.
  intros H. unfold match_at.
  change (run (Lit l) s [] None
            (fun s' acc' g' =>
               run r s' acc' g' (fun s2 acc2 g2 => Some (rev acc2, g2, s2)))
          = None).
  now apply run_Lit_mismatch.
Qed.

Lemma run_Star_nil {A : Type} (a : regex) (acc : str) (g : option str)
    (k : str -> str -> option str -> option A) :
  run (Star a) [] acc g k = k [] acc g.
Proof. reflexivity. Qed.

Lemma run_Star_Chr_cons {A : Type} (p : char -> bool) (c : char)
    (s acc : str) (g : option str)
    (k : str -> str -> option str -> option A) :
  run (Star (Chr p)) (c :: s) acc g k
  = if p c then
      match run (Star (Chr p)) s (c :: acc) g k with
      | Some x => Some x
      | None => k (c :: s) acc g
      end
    else k (c :: s) acc g.
Proof.
  change (run (Star (Chr p)) (c :: s) acc g k)
    with (match (if p c
                 then if (List.length acc <? S (List.length acc))%nat
                      then run (Star (Chr p)) s (c :: acc) g k
                      else None
                 else None) with
          | Some x => Some x
          | None => k (c :: s) acc g
          end).
  assert (E : (List.length acc <? S (List.length acc))%nat = true)
    by (apply Nat.ltb_lt; lia).
  rewrite E. destruct (p c); reflexivity.
Qed.

(** A starred class takes the whole run of its characters when the
    continuation accepts there. *)
Lemma run_Star_Chr_greedy {A : Type} (p : char -> bool) (x : str) :
  forall (s acc : str) (g : option str)
         (k : str -> str -> option str -> option A) (v : A),
    Forall (fun c => p c = true) x ->
    k s (rev x ++ acc) g = Some v ->
    match s with
    | [] => True
    | c :: _ => p c = false
    end ->
    run (Star (Chr p)) (x ++ s) acc g k = Some v.
Proof.
  induction x as [|c x IH]; intros s acc g k v Hx Hk Hs.
  - cbn [app rev] in *. destruct s as [|c s].
    + rewrite run_Star_nil. exact Hk.
    + rewrite run_Star_Chr_cons, Hs. exact Hk.
  - apply Forall_cons_iff in Hx as [Hc Hx].
    cbn [app]. rewrite run_Star_Chr_cons, Hc.
    rewrite (IH s (c :: acc) g k v Hx); [reflexivity | | exact Hs].
    cbn [rev] in Hk. rewrite <- app_assoc in Hk. exact Hk.
Qed.

(** *** Tags *)

Lemma not_quote_of_nq (c : char) : nq c -> not_quote c = true.
Proof.
  intros H. unfold not_quote, ch_eqb.
  destruct (N.eqb_spec c dq) as [E|_]; [now elim H | reflexivity].
Qed.

(** Where a whole tag stands, the pattern of the tag matches it, and
    the group is its value. *)
Lemma tag_matches (opening x rest : str) :
  Forall nq x -> x <> [] ->
  match_at (tag opening) ((opening ++ dq :: x ++ dq :: tag_tail) ++ rest)
  = Some (opening ++ dq :: x ++ dq :: tag_tail, Some x, rest).
Proof.
  intros Hx Hne. destruct x as [|c x]; [now elim Hne|].
  apply Forall_cons_iff in Hx as [Hc Hx].
  unfold match_at, tag.
  replace ((opening ++ dq :: (c :: x) ++ dq :: tag_tail) ++ rest)
    with ((opening ++ [dq]) ++ (c :: x ++ (dq :: tag_tail) ++ rest))
    by (rewrite <- !app_assoc; cbn [app]; rewrite <- !app_assoc;
        reflexivity).
  rewrite Tokens.run_Seq_eq, run_Lit, Tokens.run_Seq_eq.
  change (run (Group (Plus (Chr not_quote)))
            (c :: x ++ (dq :: tag_tail) ++ rest)
            (rev (opening ++ [dq]) ++ []) None
            (fun s' acc' g' =>
               run (Lit ([dq] ++ u " } }")) s' acc' g'
                 (fun s2 acc2 g2 => Some (rev acc2, g2, s2))))
    with (if not_quote c
          then run (Star (Chr not_quote)) (x ++ (dq :: tag_tail) ++ rest)
                 [c] None
                 (fun s' m _ =>
                    run (Lit (dq :: tag_tail)) s'
                      (m ++ rev (opening ++ [dq]) ++ []) (Some (rev m))
                      (fun s2 acc2 g2 => Some (rev acc2, g2, s2)))
          else None).
  rewrite (not_quote_of_nq c Hc).
  apply run_Star_Chr_greedy.
  - revert Hx. apply Forall_impl. exact not_quote_of_nq.
  - rewrite run_Lit.
    assert (E1 : rev (rev x ++ [c]) = c :: x)
      by (rewrite rev_app_distr, rev_involutive; reflexivity).
    assert (E2 : rev (rev (dq :: tag_tail) ++ (rev x ++ [c])
                        ++ rev (opening ++ [dq]) ++ [])
                 = opening ++ dq :: (c :: x) ++ dq :: tag_tail).
    { rewrite app_nil_r, !rev_app_distr, !rev_involutive.
      cbn [rev app]. rewrite <- !app_assoc. cbn [app]. reflexivity. }
    rewrite E1, E2. reflexivity.
  - reflexivity.
Qed.

Lemma turns_tag (opening x : str) :
  Forall nq x -> x <> [] ->
  turns (tag opening) [Backref] (opening ++ dq :: x ++ dq :: tag_tail) x.
Proof.
  intros Hx Hne. apply turns_match.
  - destruct opening; discriminate.
  - intros rest. exists (Some x). split.
    + now apply tag_matches.
    + cbn. apply app_nil_r.
Qed.

(** A tag pattern matches only at an opening brace. *)
Lemma tag_needs_brace (opening : str) (c : char) (rest : str) :
  c <> 123%N ->
  match_at (tag (123%N :: opening)) (c :: rest) = None.
Proof.
  intros Hc. unfold tag. apply literal_needed.
  cbn [app startswith]. unfold ch_eqb at 1.
  destruct (N.eqb_spec 123 c) as [E|_]; [now elim Hc | reflexivity].
Qed.

Lemma turns_braceless (opening x : str) (repl : list piece) :
  Forall (fun c => c <> 123%N) x ->
  turns (tag (123%N :: opening)) repl x x.
Proof.
  intros H. apply turns_all. revert H. apply Forall_impl.
  intros c Hc rest. now apply tag_needs_brace.
Qed.

End Scan.

(** ** Tags around tokens *)

Module Transparent.
Import Re ReWords ReFacts Scan.

Lemma cleanb_clean (c : char) : cleanb c = true -> clean c.
Proof.
  unfold cleanb, clean, ch_eqb. intros H.
  apply andb_true_iff in H as [H1 H2].
  apply negb_true_iff in H1, H2.
  apply N.eqb_neq in H1, H2. split; assumption.
Qed.

Lemma goodb_good (v : str) : goodb v = true -> good v.
Proof.
  unfold goodb, good. destruct v as [|c v]; [discriminate|].
  intros H. split; [discriminate|].
  apply Forall_forall. intros x Hx.
  apply cleanb_clean. rewrite forallb_forall in H. now apply H.
Qed.

Lemma clean_nq (v : str) : Forall clean v -> Forall nq v.
Proof. apply Forall_impl. intros c [H _]. exact H. Qed.

Lemma clean_braceless (v : str) :
  Forall clean v -> Forall (fun c => c <> 123%N) v.
Proof. apply Forall_impl. intros c [_ H]. exact H. Qed.

(** *** What [apply_fst] returns *)

Lemma apply_fst_cases (err text : str) (f : Pynini.Fst) :
  apply_fst err text f
    = u "Error: " ++ err ++ u ", for input:'" ++ text ++ u "'"
  \/ In (apply_fst err text f) (map snd f).
Proof.
  unfold apply_fst, Pynini.compose_accep.
  destruct (filter (fun p => str_eqb (fst p) text) f) as [|p l] eqn:E.
  - left. reflexivity.
  - right. cbn [Pynini.shortestpath Pynini.string_of].
    apply in_map.
    assert (Hp : In p (filter (fun p => str_eqb (fst p) text) f))
      by (rewrite E; now left).
    apply filter_In in Hp as [Hp _]. exact Hp.
Qed.

Lemma outputs_checked : forallb goodb (map snd lexicon) = true.
Proof. vm_compute. reflexivity. Qed.

Lemma marker_good (err text : str) :
  Forall clean err -> Forall clean text ->
  good (u "Error: " ++ err ++ u ", for input:'" ++ text ++ u "'").
Proof.
  intros He Ht. split; [discriminate|].
  assert (Hlit : forall l, forallb cleanb l = true -> Forall clean l).
  { intros l H. apply Forall_forall. intros x Hx. apply cleanb_clean.
    rewrite forallb_forall in H. now apply H. }
  repeat (apply Forall_app; split);
    try assumption; apply Hlit; reflexivity.
Qed.

Lemma apply_fst_good (err text : str) :
  Forall clean err -> Forall clean text ->
  good (apply_fst err text lexicon).
Proof.
  intros He Ht. destruct (apply_fst_cases err text lexicon) as [E | Hin].
  - rewrite E. now apply marker_good.
  - apply goodb_good.
    pose proof outputs_checked as H. rewrite forallb_forall in H.
    apply H. exact Hin.
Qed.

(** *** What a token looks like *)

Lemma findall_from_matches (r : regex) :
  forall (n : nat) (s t : str),
    In t (findall_from n r s) -> exists g, matches r None t g.
Proof.
  induction n as [|n IH]; intros s t Hin; [contradiction|].
  destruct s as [|c s]; [contradiction|].
  cbn [findall_from] in Hin.
  destruct (match_at r (c :: s)) as [[[m g] rest]|] eqn:E.
  - destruct m as [|c0 m]; [now apply (IH s)|].
    destruct Hin as [<- | Hin]; [|now apply (IH rest)].
    apply match_at_sound in E as [_ Hm]. now exists g.
  - now apply (IH s).
Qed.

Section WithDatabase.
Variable db : unicode_db.

(** A token is one character, or a run without a brace. *)
Lemma token_shape (t : str) (g : option str) :
  matches (token_pattern db) None t g ->
  (exists c, t = [c]) \/ Forall (fun c => c <> 123%N) t.
Proof.
  unfold token_pattern. intros Hm.
  apply matches_Alt in Hm as [H1 | Hm].
  { right.
    apply (matches_classes (fun c => c <> 123%N) _ _ _ _) in H1;
      [exact H1|].
    cbn. split; intros d Hd ->; vm_compute in Hd; discriminate Hd. }
  apply matches_Alt in Hm as [H2 | Hm].
  { right.
    apply (matches_classes (fun c => c <> 123%N) _ _ _ _) in H2;
      [exact H2|].
    cbn. repeat split; intros d Hd ->; vm_compute in Hd; discriminate Hd. }
  left.
  apply matches_Alt in Hm as [H3 | H3];
    apply matches_Chr in H3 as (c & -> & _ & _); now exists c.
Qed.

Lemma token_facts (text t : str) :
  ~ In dq text -> In t (tokenize_text db text) ->
  t <> [] /\ Forall nq t /\
  ((exists c, t = [c]) \/ Forall (fun c => c <> 123%N) t).
Proof.
  intros Hq Hin.
  destruct (Tokens.findall_from_keeps db (List.length text) text
              (Nat.le_refl _)) as [Hc Hf].
  fold (findall (token_pattern db) text) in Hc, Hf.
  fold (tokenize_text db text) in Hc, Hf.
  split; [|split].
  - rewrite Forall_forall in Hf. now apply Hf.
  - apply Forall_forall. intros c Hct E. apply Hq. rewrite <- E.
    assert (Hcc : In c (List.concat (tokenize_text db text))).
    { apply in_concat. exists t. split; assumption. }
    rewrite Hc in Hcc. apply filter_In in Hcc as [Hcc _]. exact Hcc.
  - unfold tokenize_text, findall in Hin.
    apply findall_from_matches in Hin as [g Hm].
    now apply (token_shape t g).
Qed.

Lemma digits_braceless (t : str) :
  Builtins.str_isdigit db t = true -> Forall (fun c => c <> 123%N) t.
Proof.
  unfold Builtins.str_isdigit. destruct t as [|c0 t]; [discriminate|].
  intros H. apply Forall_forall. intros c Hc ->.
  rewrite forallb_forall in H. specialize (H _ Hc).
  vm_compute in H. discriminate H.
Qed.

(** *** The two substitutions of tags *)

Lemma cardinal_tag_brace :
  cardinal_tag = tag (123%N :: tl (u "{ cardinal { integer: ")).
Proof. reflexivity. Qed.

Lemma word_tag_brace : word_tag = tag (123%N :: tl tag_head).
Proof. reflexivity. Qed.

Lemma cardinal_over_head :
  turns cardinal_tag [Backref] (tag_head ++ [dq]) (tag_head ++ [dq]).
Proof. intros rest. vm_compute. reflexivity. Qed.

Lemma cardinal_over_tail :
  turns cardinal_tag [Backref] (dq :: tag_tail) (dq :: tag_tail).
Proof. intros rest. vm_compute. reflexivity. Qed.

Lemma cardinal_over_one (c : char) :
  turns cardinal_tag [Backref] (c :: dq :: tag_tail) (c :: dq :: tag_tail).
Proof.
  destruct (N.eq_dec c 123) as [-> | Hc].
  - intros rest. vm_compute. reflexivity.
  - apply (turns_app _ _ [c] [c] (dq :: tag_tail) (dq :: tag_tail));
      [|exact cardinal_over_tail].
    apply turns_one. intros rest. rewrite cardinal_tag_brace.
    now apply tag_needs_brace.
Qed.

Lemma cardinal_over_word_tag (t : str) :
  (exists c, t = [c]) \/ Forall (fun c => c <> 123%N) t ->
  turns cardinal_tag [Backref]
    (tag_head ++ dq :: t ++ dq :: tag_tail)
    (tag_head ++ dq :: t ++ dq :: tag_tail).
Proof.
  intros Ht.
  change (tag_head ++ dq :: t ++ dq :: tag_tail)
    with ((tag_head ++ [dq]) ++ (t ++ dq :: tag_tail)).
  apply turns_app; [exact cardinal_over_head|].
  destruct Ht as [[c ->] | Ht].
  - exact (cardinal_over_one c).
  - apply turns_app; [|exact cardinal_over_tail].
    rewrite cardinal_tag_brace. now apply turns_braceless.
Qed.

Section WithTransducer.
Variables (err : str) (f : Pynini.Fst).

Lemma classify_token_eq (t : str) :
  classify_token db err t f
  = if Builtins.str_isdigit db t
    then u "{ cardinal { integer: " ++ dq :: apply_fst err t f
           ++ dq :: tag_tail
    else tag_head ++ dq :: t ++ dq :: tag_tail.
Proof. unfold classify_token. destruct (Builtins.str_isdigit db t); reflexivity. Qed.

Lemma first_substitution (t : str) :
  (Builtins.str_isdigit db t = true -> good (apply_fst err t f)) ->
  ((exists c, t = [c]) \/ Forall (fun c => c <> 123%N) t) ->
  turns cardinal_tag [Backref] (classify_token db err t f)
    (half db err f t).
Proof.
  intros Hv Hs. rewrite classify_token_eq. unfold half.
  destruct (Builtins.str_isdigit db t).
  - destruct (Hv eq_refl) as [Hne Hc].
    rewrite QuoteTag.cardinal_tag_eq.
    apply turns_tag; [now apply clean_nq | exact Hne].
  - now apply cardinal_over_word_tag.
Qed.

Lemma second_substitution (t : str) :
  (Builtins.str_isdigit db t = true -> good (apply_fst err t f)) ->
  t <> [] -> Forall nq t ->
  turns word_tag [Backref] (half db err f t) (value db err f t).
Proof.
  intros Hv Hne Hq. unfold half, value.
  destruct (Builtins.str_isdigit db t).
  - destruct (Hv eq_refl) as [_ Hc].
    rewrite word_tag_brace. apply turns_braceless.
    now apply clean_braceless.
  - rewrite QuoteTag.word_tag_eq. now apply turns_tag.
Qed.

Lemma both_substitutions (tokens : list str) :
  Forall (fun t =>
    (Builtins.str_isdigit db t = true -> good (apply_fst err t f)) /\
    t <> [] /\ Forall nq t /\
    ((exists c, t = [c]) \/ Forall (fun c => c <> 123%N) t)) tokens ->
  sub word_tag [Backref]
    (sub cardinal_tag [Backref]
       (join (u " ") (map (fun t => classify_token db err t f) tokens)))
  = join (u " ") (map (value db err f) tokens).
Proof.
  intros H.
  rewrite (sub_of_turns cardinal_tag [Backref] _
             (join (u " ") (map (half db err f) tokens))).
  - apply sub_of_turns. apply turns_join.
    + rewrite word_tag_brace. apply turns_braceless.
      repeat constructor; discriminate.
    + revert H. apply Forall_impl. intros t (Hv & Hne & Hq & Hs).
      now apply second_substitution.
  - apply turns_join.
    + rewrite cardinal_tag_brace. apply turns_braceless.
      repeat constructor; discriminate.
    + revert H. apply Forall_impl. intros t (Hv & Hne & Hq & Hs).
      now apply first_substitution.
Qed.

End WithTransducer.

(** With the built transducer, on a text without double quote, the
    two substitutions take every tag away and leave its value. *)
Lemma tags_off (err text : str) :
  ~ In dq text -> Forall clean err ->
  strip_tags db (classify_sentence db err text lexicon)
  = respace db
      (join (u " ") (map (value db err lexicon) (tokenize_text db text))).
Proof.
  intros Hq He.
  unfold strip_tags, classify_sentence, respace. cbv zeta.
  rewrite (both_substitutions err lexicon); [reflexivity|].
  apply Forall_forall. intros t Hin.
  destruct (token_facts text t Hq Hin) as (Hne & Hnq & Hs).
  repeat apply conj; try assumption.
  intros Hd. apply apply_fst_good; [exact He|].
  apply Forall_forall. intros c Hc. split.
  - rewrite Forall_forall in Hnq. now apply Hnq.
  - pose proof (digits_braceless t Hd) as Hb.
    rewrite Forall_forall in Hb. now apply Hb.
Qed.

End WithDatabase.
End Transparent.

(** ** White space *)

Module Spacing.
Import Re ReWords ReFacts Scan.

Section WithDatabase.
Variable db : unicode_db.

Abbreviation sp := (Unicode.isspace db).

Lemma dropwhile_span (p : char -> bool) (s : str) :
  exists x, s = x ++ Builtins.dropwhile p s /\ Forall (fun c => p c = true) x.
Proof.
  induction s as [|c s [x [E Hx]]].
  - exists []. split; [reflexivity | constructor].
  - cbn [Builtins.dropwhile]. destruct (p c) eqn:Hc.
    + exists (c :: x). split; [cbn [app]; now rewrite <- E|].
      now constructor.
    + exists []. split; [reflexivity | constructor].
Qed.

Lemma dropwhile_head (p : char -> bool) (s : str) :
  match Builtins.dropwhile p s with
  | [] => True
  | c :: _ => p c = false
  end.
Proof.
  induction s as [|c s IH]; [exact I|].
  cbn [Builtins.dropwhile]. destruct (p c) eqn:Hc; [exact IH | exact Hc].
Qed.

Lemma dropwhile_length (p : char -> bool) (s : str) :
  (List.length (Builtins.dropwhile p s) <= List.length s)%nat.
Proof.
  induction s as [|c s IH]; [apply Nat.le_refl|].
  cbn [Builtins.dropwhile]. destruct (p c); cbn [List.length]; lia.
Qed.

(** *** The third substitution *)

Lemma spaces_at_other (c : char) (s : str) :
  sp c = false -> match_at (spaces db) (c :: s) = None.
Proof.
  intros Hc. unfold match_at, spaces, Plus.
  rewrite Tokens.run_Seq_eq, Tokens.run_Chr_eq, Hc. reflexivity.
Qed.

Lemma spaces_at_space (c : char) (s : str) :
  sp c = true ->
  exists m,
    match_at (spaces db) (c :: s)
    = Some (c :: m, None, Builtins.dropwhile sp s).
Proof.
  intros Hc. unfold match_at, spaces, Plus.
  rewrite Tokens.run_Seq_eq, Tokens.run_Chr_eq, Hc.
  destruct (dropwhile_span sp s) as [x [E Hx]].
  exists x. rewrite E at 1.
  apply run_Star_Chr_greedy.
  - exact Hx.
  - rewrite rev_app_distr, rev_involutive. reflexivity.
  - apply dropwhile_head.
Qed.

Lemma squeeze_in_run (s : str) :
  squeeze db true s = squeeze db false (Builtins.dropwhile sp s).
Proof.
  induction s as [|c s IH]; [reflexivity|].
  cbn [squeeze Builtins.dropwhile]. destruct (sp c) eqn:Hc; [exact IH|].
  cbn [squeeze]. rewrite Hc. reflexivity.
Qed.

Lemma sub_spaces_from :
  forall (n : nat) (s : str),
    (List.length s <= n)%nat ->
    sub_from n (spaces db) [Text (u " ")] s = squeeze db false s.
Proof.
  induction n as [|n IH]; intros s Hlen.
  - destruct s; [reflexivity | cbn [List.length] in Hlen; lia].
  - destruct s as [|c s]; [reflexivity|].
    cbn [List.length] in Hlen.
    rewrite ErrorMarker.sub_from_step. cbn [squeeze].
    destruct (sp c) eqn:Hc.
    + destruct (spaces_at_space c s Hc) as [m E]. rewrite E.
      rewrite squeeze_in_run, IH; [reflexivity|].
      pose proof (dropwhile_length sp s). lia.
    + rewrite (spaces_at_other c s Hc), IH by lia. reflexivity.
Qed.

Lemma sub_spaces (s : str) :
  sub (spaces db) [Text (u " ")] s = squeeze db false s.
Proof. apply sub_spaces_from, Nat.le_refl. Qed.

(** After it, white space is single U+0020s. *)
Lemma squeeze_spaced (s : str) (in_run : bool) :
  spaced db sp (squeeze db in_run s) = true /\
  match squeeze db in_run s with
  | [] => True
  | d :: _ => in_run = true -> sp d = false
  end.
Proof.
  revert in_run. induction s as [|c s IH]; intros in_run.
  - split; [reflexivity | exact I].
  - cbn [squeeze]. destruct (sp c) eqn:Hc.
    + destruct (IH true) as [Hs Hh]. destruct in_run.
      * split; [exact Hs | exact Hh].
      * split; [|discriminate].
        cbn [spaced]. rewrite Hs.
        assert (E32 : sp 32 = true) by reflexivity. rewrite E32.
        destruct (squeeze db true s) as [|d t]; [reflexivity|].
        rewrite (Hh eq_refl). reflexivity.
    + destruct (IH false) as [Hs _]. split.
      * cbn [spaced]. rewrite Hc, Hs. reflexivity.
      * intros _. exact Hc.
Qed.

(** *** The fourth substitution *)

Lemma mark_at_other (c : char) (s : str) :
  sp c = false -> match_at (spaces_before_punctuation db) (c :: s) = None.
Proof.
  intros Hc. unfold match_at, spaces_before_punctuation, Plus.
  rewrite !Tokens.run_Seq_eq, Tokens.run_Chr_eq, Hc. reflexivity.
Qed.

Lemma mark_at_last (c : char) :
  match_at (spaces_before_punctuation db) [c] = None.
Proof.
  unfold match_at, spaces_before_punctuation, Plus.
  rewrite !Tokens.run_Seq_eq, Tokens.run_Chr_eq.
  destruct (sp c); [|reflexivity].
  rewrite run_Star_nil. reflexivity.
Qed.

Lemma mark_at_space (c d : char) (s : str) :
  sp c = true -> sp d = false ->
  match_at (spaces_before_punctuation db) (c :: d :: s)
  = if punctuation d then Some ([c; d], Some [d], s) else None.
Proof.
  intros Hc Hd. unfold match_at, spaces_before_punctuation, Plus.
  rewrite !Tokens.run_Seq_eq, Tokens.run_Chr_eq, Hc.
  rewrite run_Star_Chr_cons, Hd.
  change (run (Group (Chr (one_of (u ".,:;!?")))) (d :: s) [c] None
            (fun s2 acc2 g2 => Some (rev acc2, g2, s2)))
    with (if punctuation d then Some ([c; d], Some [d], s) else None).
  reflexivity.
Qed.

Lemma sub_marks_from :
  forall (n : nat) (s : str),
    (List.length s <= n)%nat -> spaced db sp s = true ->
    sub_from n (spaces_before_punctuation db) [Backref] s = tighten db s.
Proof.
  induction n as [|n IH]; intros s Hlen Hs.
  - destruct s; [reflexivity | cbn [List.length] in Hlen; lia].
  - destruct s as [|c s]; [reflexivity|].
    cbn [List.length] in Hlen.
    rewrite ErrorMarker.sub_from_step.
    cbn [spaced] in Hs. apply andb_true_iff in Hs as [Hc Hs].
    cbn [tighten]. destruct (sp c) eqn:Ec.
    + destruct s as [|d s].
      * rewrite mark_at_last. destruct n; reflexivity.
      * apply andb_true_iff in Hc as [_ Hd]. apply negb_true_iff in Hd.
        rewrite (mark_at_space c d s Ec Hd).
        destruct (punctuation d).
        -- cbn [expand flat_map app]. f_equal.
           cbn [spaced] in Hs. apply andb_true_iff in Hs as [_ Hs].
           cbn [List.length] in Hlen. apply IH; [lia | exact Hs].
        -- f_equal. apply IH; [lia | exact Hs].
    + rewrite (mark_at_other c s Ec). f_equal. apply IH; [lia | exact Hs].
Qed.

Lemma sub_marks (s : str) :
  spaced db sp s = true ->
  sub (spaces_before_punctuation db) [Backref] s = tighten db s.
Proof. apply sub_marks_from, Nat.le_refl. Qed.

Lemma punctuation_not_space (d : char) : punctuation d = true -> sp d = false.
Proof.
  unfold punctuation, one_of. intros H. apply existsb_exists in H.
  destruct H as [x [Hx E]]. apply N.eqb_eq in E. subst x.
  vm_compute in Hx.
  repeat (destruct Hx as [<- | Hx]; [reflexivity|]). contradiction.
Qed.

(** After it, no white space stands before a punctuation mark. *)
Lemma tighten_spaced (s : str) :
  spaced db sp s = true ->
  spaced db (space_or_mark db) (tighten db s) = true /\
  match s, tighten db s with
  | c :: _, d :: _ => sp c = false -> d = c
  | _, _ => True
  end.
Proof.
  remember (List.length s) as n eqn:Hn.
  assert (Hlen : (List.length s <= n)%nat) by lia. clear Hn.
  revert s Hlen. induction n as [|n IH]; intros s Hlen Hs.
  - destruct s; [split; [reflexivity | exact I]|].
    cbn [List.length] in Hlen. lia.
  - destruct s as [|c s]; [split; [reflexivity | exact I]|].
    cbn [List.length] in Hlen.
    cbn [spaced] in Hs. apply andb_true_iff in Hs as [Hc Hs].
    cbn [tighten]. destruct (sp c) eqn:Ec.
    + destruct s as [|d s].
      * split; [|discriminate]. cbn [spaced]. rewrite Ec, Hc. reflexivity.
      * apply andb_true_iff in Hc as [Hc Hd]. apply negb_true_iff in Hd.
        destruct (punctuation d) eqn:Ep.
        -- split; [|discriminate].
           cbn [spaced] in Hs. apply andb_true_iff in Hs as [_ Hs].
           cbn [List.length] in Hlen.
           destruct (IH s ltac:(lia) Hs) as [Ht _].
           cbn [spaced]. rewrite Hd, Ht. reflexivity.
        -- split; [|discriminate].
           destruct (IH (d :: s) ltac:(lia) Hs) as [Ht Hh].
           cbn [spaced]. rewrite Ec, Hc, Ht.
           destruct (tighten db (d :: s)) as [|e t] eqn:Et; [reflexivity|].
           rewrite (Hh Hd). unfold space_or_mark. rewrite Hd, Ep.
           reflexivity.
    + destruct (IH s ltac:(lia) Hs) as [Ht _]. split; [|reflexivity].
      cbn [spaced]. rewrite Ec, Ht. reflexivity.
Qed.

(** *** [strip] *)

Lemma spaced_dropwhile (bad p : char -> bool) (s : str) :
  spaced db bad s = true -> spaced db bad (Builtins.dropwhile p s) = true.
Proof.
  induction s as [|c s IH]; intros H; [reflexivity|].
  cbn [Builtins.dropwhile]. destruct (p c); [|exact H].
  cbn [spaced] in H. apply andb_true_iff in H as [_ H]. now apply IH.
Qed.

Lemma spaced_prefix (bad : char -> bool) (x y : str) :
  spaced db bad (x ++ y) = true -> spaced db bad x = true.
Proof.
  induction x as [|c x IH]; intros H; [reflexivity|].
  cbn [app spaced] in *. apply andb_true_iff in H as [Hc H].
  rewrite (IH H), andb_true_r.
  destruct (sp c); [|reflexivity].
  apply andb_true_iff in Hc as [Hc Hn]. rewrite Hc.
  destruct x; [reflexivity | exact Hn].
Qed.

(** What [strip] returns is a piece of its argument, without white
    space at either end. *)
Lemma strip_spec (s : str) :
  exists a b,
    s = a ++ Builtins.strip db s ++ b /\
    match Builtins.strip db s with
    | [] => True
    | c :: _ => sp c = false
    end /\
    match rev (Builtins.strip db s) with
    | [] => True
    | c :: _ => sp c = false
    end.
Proof.
  unfold Builtins.strip.
  destruct (dropwhile_span sp s) as [a [Ea _]].
  set (x := Builtins.dropwhile sp s) in *.
  destruct (dropwhile_span sp (rev x)) as [b [Eb _]].
  set (y := Builtins.dropwhile sp (rev x)) in *.
  exists a, (rev b). split; [|split].
  - rewrite Ea at 1. f_equal.
    rewrite <- (rev_involutive x), Eb, rev_app_distr. reflexivity.
  - pose proof (dropwhile_head sp s) as Hx. fold x in Hx.
    assert (Ex : x = rev y ++ rev b)
      by (rewrite <- (rev_involutive x), Eb, rev_app_distr; reflexivity).
    destruct (rev y) as [|c t] eqn:Ey; [exact I|].
    rewrite Ex in Hx. exact Hx.
  - rewrite rev_involutive. apply dropwhile_head.
Qed.

End WithDatabase.
End Spacing.

Module WellSpaced.
Import Spacing.

Section WithDatabase.
Variable db : unicode_db.

Lemma spaced_suffix (bad : char -> bool) (x y : str) :
  spaced db bad (x ++ y) = true -> spaced db bad y = true.
Proof.
  induction x as [|c x IH]; intros H; [exact H|].
  cbn [app spaced] in H. apply andb_true_iff in H as [_ H]. now apply IH.
Qed.

(** [strip_tags] ends with the three steps of [respace], which are
    [squeeze], [tighten] and [strip]. *)
Lemma respace_eq (s : str) :
  respace db s = Builtins.strip db (tighten db (squeeze db false s)).
Proof.
  unfold respace. rewrite sub_spaces, sub_marks; [reflexivity|].
  apply squeeze_spaced.
Qed.

Lemma respace_spaced (s : str) :
  spaced db (space_or_mark db) (respace db s) = true /\
  match respace db s with
  | [] => True
  | c :: _ => Unicode.isspace db c = false
  end /\
  match rev (respace db s) with
  | [] => True
  | c :: _ => Unicode.isspace db c = false
  end.
Proof.
  rewrite respace_eq.
  set (t := tighten db (squeeze db false s)).
  assert (Ht : spaced db (space_or_mark db) t = true).
  { apply tighten_spaced. apply squeeze_spaced. }
  destruct (strip_spec db t) as (a & b & E & Hfirst & Hlast).
  split; [|split; assumption].
  rewrite E in Ht. apply spaced_suffix in Ht. now apply spaced_prefix in Ht.
Qed.

Lemma spaced_at (out a b : str) (c : char) :
  spaced db (space_or_mark db) out = true ->
  match out with
  | [] => True
  | c :: _ => Unicode.isspace db c = false
  end ->
  match rev out with
  | [] => True
  | c :: _ => Unicode.isspace db c = false
  end ->
  out = a ++ c :: b -> Unicode.isspace db c = true ->
  c = 32%N /\
  (exists a' p, a = a' ++ [p] /\ Unicode.isspace db p = false) /\
  (exists d b',
     b = d :: b' /\ Unicode.isspace db d = false /\ punctuation d = false).
Proof.
  intros Hs Hfirst Hlast -> Hc.
  pose proof (spaced_suffix _ _ _ Hs) as Hcb.
  cbn [spaced] in Hcb. rewrite Hc in Hcb.
  apply andb_true_iff in Hcb as [Hcb _].
  apply andb_true_iff in Hcb as [H32 Hnext].
  apply N.eqb_eq in H32. split; [exact H32|]. split.
  - destruct a as [|a0 a] using rev_ind.
    + cbn [app] in Hfirst. congruence.
    + exists a, a0. split; [reflexivity|].
      rewrite <- app_assoc in Hs. apply spaced_suffix in Hs.
      cbn [app spaced] in Hs.
      destruct (Unicode.isspace db a0); [|reflexivity].
      apply andb_true_iff in Hs as [Hs _].
      apply andb_true_iff in Hs as [_ Hs].
      unfold space_or_mark in Hs. rewrite Hc in Hs. discriminate Hs.
  - destruct b as [|d b].
    + rewrite rev_app_distr in Hlast. cbn [rev app] in Hlast. congruence.
    + exists d, b. split; [reflexivity|].
      apply negb_true_iff, orb_false_iff in Hnext. exact Hnext.
Qed.

End WithDatabase.
End WellSpaced.

(** ** The layout of values *)

Module Layout.
Import Spacing.

Section WithDatabase.
Variable db : unicode_db.

Abbreviation sp := (Unicode.isspace db).
Abbreviation nsp := (fun c => negb (Unicode.isspace db c)).

Lemma spaced_without_space (bad : char -> bool) (v : str) :
  Forall (fun c => sp c = false) v -> spaced db bad v = true.
Proof.
  induction 1 as [|c v Hc _ IH]; [reflexivity|].
  cbn [spaced]. rewrite Hc, IH. reflexivity.
Qed.

Lemma spaced_app_after_other (bad : char -> bool) (x y : str) :
  spaced db bad x = true -> opens_with nsp (rev x) = true ->
  spaced db bad y = true -> spaced db bad (x ++ y) = true.
Proof.
  intros Hx Hl Hy. induction x as [|c x IH]; [discriminate Hl|].
  cbn [app spaced] in *. apply andb_true_iff in Hx as [Hc Hx].
  destruct x as [|d x].
  - cbn [rev app opens_with] in Hl. apply negb_true_iff in Hl.
    rewrite Hl. cbn [app]. exact Hy.
  - rewrite IH; [rewrite andb_true_r; exact Hc | exact Hx |].
    cbn [rev] in Hl |- *.
    destruct (rev x ++ [d]) as [|e t] eqn:E.
    + destruct (rev x); discriminate E.
    + exact Hl.
Qed.

Lemma spaced_app_before_other (bad : char -> bool) (x y : str) :
  spaced db bad x = true -> spaced db bad y = true ->
  opens_with (fun c => negb (bad c)) y = true ->
  spaced db bad (x ++ y) = true.
Proof.
  intros Hx Hy Ho. induction x as [|c x IH]; [exact Hy|].
  cbn [app spaced] in *. apply andb_true_iff in Hx as [Hc Hx].
  rewrite (IH Hx), andb_true_r.
  destruct (sp c); [|reflexivity].
  apply andb_true_iff in Hc as [Hc Hn]. rewrite Hc.
  destruct x as [|d x]; [|exact Hn].
  cbn [app]. destruct y as [|e y]; [reflexivity | exact Ho].
Qed.

Lemma tidy_facts (v : str) :
  tidy db v = true ->
  exists c v', v = c :: v' /\ sp c = false /\
    opens_with nsp (rev v) = true /\
    spaced db (space_or_mark db) v = true.
Proof.
  unfold tidy. intros H.
  apply andb_true_iff in H as [H Hs]. apply andb_true_iff in H as [Hf Hl].
  destruct v as [|c v']; [discriminate Hf|].
  exists c, v'. cbn [opens_with] in Hf. apply negb_true_iff in Hf.
  repeat split; assumption.
Qed.

Lemma spaced_weaken (v : str) :
  spaced db (space_or_mark db) v = true -> spaced db sp v = true.
Proof.
  induction v as [|c v IH]; intros H; [reflexivity|].
  cbn [spaced] in *. apply andb_true_iff in H as [Hc H].
  rewrite (IH H), andb_true_r.
  destruct (sp c); [|reflexivity].
  apply andb_true_iff in Hc as [Hc Hn]. rewrite Hc.
  destruct v as [|d v]; [reflexivity|].
  apply negb_true_iff, orb_false_iff in Hn as [Hn _]. now rewrite Hn.
Qed.

Lemma rev_opens_cons (p : char -> bool) (c : char) (v : str) :
  v <> [] -> opens_with p (rev (c :: v)) = opens_with p (rev v).
Proof.
  intros Hv. cbn [rev]. destruct (rev v) as [|z t] eqn:E.
  - apply (f_equal (@rev N)) in E. rewrite rev_involutive in E.
    now elim Hv.
  - reflexivity.
Qed.

(** [squeeze] and [tighten] leave a tidy value as it is, whatever comes
    after it. *)
Lemma squeeze_over (v s : str) :
  spaced db sp v = true -> opens_with nsp (rev v) = true ->
  squeeze db false (v ++ s) = v ++ squeeze db false s.
Proof.
  induction v as [|c v IH]; intros Hs Hl; [discriminate Hl|].
  destruct v as [|d v].
  - cbn [rev app opens_with] in Hl. apply negb_true_iff in Hl.
    cbn [app squeeze]. rewrite Hl. reflexivity.
  - rewrite rev_opens_cons in Hl by discriminate.
    cbn [spaced] in Hs. apply andb_true_iff in Hs as [Hc Hs].
    specialize (IH Hs Hl).
    change ((c :: d :: v) ++ s) with (c :: (d :: v) ++ s).
    cbn [squeeze]. destruct (sp c) eqn:Ec.
    + apply andb_true_iff in Hc as [Hc Hd].
      apply N.eqb_eq in Hc. apply negb_true_iff in Hd. subst c.
      change ((d :: v) ++ s) with (d :: v ++ s) in *.
      cbn [squeeze] in IH |- *. rewrite Hd in IH |- *.
      rewrite IH. reflexivity.
    + rewrite IH. reflexivity.
Qed.

Lemma squeeze_over_in_run (v s : str) (in_run : bool) :
  tidy db v = true ->
  squeeze db in_run (v ++ s) = v ++ squeeze db false s.
Proof.
  intros Hv. destruct (tidy_facts v Hv) as (c & v' & E & Hc & Hl & Hs).
  rewrite <- (squeeze_over v s (spaced_weaken v Hs) Hl).
  rewrite E. cbn [app squeeze]. rewrite Hc. reflexivity.
Qed.

Lemma tighten_cons (c : char) (s : str) :
  tighten db (c :: s)
  = if sp c then
      match s with
      | d :: s2 => if punctuation d then d :: tighten db s2
                   else c :: tighten db s
      | [] => [c]
      end
    else c :: tighten db s.
Proof. reflexivity. Qed.

Lemma tighten_over (v s : str) :
  spaced db (space_or_mark db) v = true -> opens_with nsp (rev v) = true ->
  tighten db (v ++ s) = v ++ tighten db s.
Proof.
  induction v as [|c v IH]; intros Hs Hl; [discriminate Hl|].
  destruct v as [|d v].
  - cbn [rev app opens_with] in Hl. apply negb_true_iff in Hl.
    cbn [app]. rewrite tighten_cons, Hl. reflexivity.
  - rewrite rev_opens_cons in Hl by discriminate.
    cbn [spaced] in Hs. apply andb_true_iff in Hs as [Hc Hs].
    specialize (IH Hs Hl).
    change ((c :: d :: v) ++ s) with (c :: (d :: v) ++ s).
    rewrite tighten_cons, IH. destruct (sp c) eqn:Ec; [|reflexivity].
    apply andb_true_iff in Hc as [_ Hd].
    apply negb_true_iff, orb_false_iff in Hd as [_ Hd].
    cbn [app]. rewrite Hd. reflexivity.
Qed.

(** *** Values joined by spaces *)

Lemma space_32 : sp 32 = true.
Proof. reflexivity. Qed.

Lemma blank_tidy (v : str) : tidy db v = true -> blank db v = false.
Proof.
  intros Hv. destruct (tidy_facts v Hv) as (c & v' & -> & Hc & _).
  unfold blank. cbn [forallb]. rewrite Hc. reflexivity.
Qed.

Lemma laid_out (vals : list str) :
  Forall (item_ok db) vals ->
  exists trail,
    (trail = [] \/ trail = [32%N]) /\
    tighten db (squeeze db false (flat_map (cons 32%N) vals))
    = flat_map (fun w => gap w ++ w)
        (filter (fun v => negb (blank db v)) vals) ++ trail.
Proof.
  induction 1 as [|v rest Hv Hrest [trail [Ht IH]]].
  - exists []. split; [now left | reflexivity].
  - cbn [flat_map]. change ((32%N :: v) ++ flat_map (cons 32%N) rest)
      with (32%N :: v ++ flat_map (cons 32%N) rest).
    cbn [squeeze]. rewrite space_32.
    destruct Hv as [[c [-> Hc]] | Hv].
    + (* a white-space token *)
      cbn [filter blank forallb]. rewrite Hc. cbn [andb negb app squeeze].
      rewrite Hc.
      destruct rest as [|v2 rest].
      * exists [32%N]. split; [now right|].
        cbn [flat_map squeeze filter app]. rewrite tighten_cons, space_32.
        reflexivity.
      * exists trail. split; [exact Ht|].
        rewrite <- IH. reflexivity.
    + (* a tidy value *)
      exists trail. split; [exact Ht|].
      cbn [filter]. rewrite (blank_tidy v Hv). cbn [negb flat_map].
      rewrite (squeeze_over_in_run v _ true Hv).
      destruct (tidy_facts v Hv) as (c & v' & E & Hc & Hl & Hs).
      rewrite <- !app_assoc, <- IH, <- (tighten_over v _ Hs Hl).
      rewrite E. unfold gap. cbn [opens_with app].
      rewrite tighten_cons, space_32.
      destruct (punctuation c); [|reflexivity].
      rewrite tighten_cons, Hc. reflexivity.
Qed.

Lemma flat_map_join (vals : list str) :
  vals <> [] -> flat_map (cons 32%N) vals = 32%N :: join [32%N] vals.
Proof.
  induction vals as [|v rest IH]; intros Hne; [now elim Hne|].
  destruct rest as [|w rest].
  - cbn [flat_map join app]. now rewrite app_nil_r.
  - change (flat_map (cons 32%N) (v :: w :: rest))
      with (32%N :: v ++ flat_map (cons 32%N) (w :: rest)).
    rewrite IH by discriminate. reflexivity.
Qed.

Lemma render_cons (w : str) (ws : list str) :
  render (w :: ws) = w ++ flat_map (fun w => gap w ++ w) ws.
Proof.
  revert w. induction ws as [|w2 ws IH]; intros w; [reflexivity|].
  change (render (w :: w2 :: ws)) with (w ++ gap w2 ++ render (w2 :: ws)).
  rewrite IH. cbn [flat_map]. now rewrite <- app_assoc.
Qed.

Lemma opens_with_app (p : char -> bool) (a b : str) :
  opens_with p a = true -> opens_with p (a ++ b) = true.
Proof. destruct a; [discriminate | intros H; exact H]. Qed.

Lemma render_ends (w : str) (ws : list str) :
  Forall (fun v => tidy db v = true) (w :: ws) ->
  opens_with nsp (render (w :: ws)) = true /\
  opens_with nsp (rev (render (w :: ws))) = true.
Proof.
  intros H. split.
  - apply Forall_inv in H.
    destruct (tidy_facts w H) as (c & v' & -> & Hc & _).
    cbn [render app opens_with]. now rewrite Hc.
  - revert w H. induction ws as [|w2 ws IH]; intros w H.
    + apply Forall_inv in H.
      destruct (tidy_facts w H) as (c & v' & _ & _ & Hl & _).
      cbn [render]. rewrite app_nil_r. exact Hl.
    + change (render (w :: w2 :: ws))
        with (w ++ gap w2 ++ render (w2 :: ws)).
      rewrite !rev_app_distr, <- app_assoc.
      apply opens_with_app. apply IH. now apply Forall_inv_tail in H.
Qed.

(** *** [strip] and leading white space *)

Lemma dropwhile_all (p : char -> bool) (l y : str) :
  Forall (fun c => p c = true) l ->
  opens_with (fun c => negb (p c)) y = true ->
  Builtins.dropwhile p (l ++ y) = y.
Proof.
  intros Hl Hy. induction Hl as [|c l Hc _ IH].
  - destruct y as [|d y]; [discriminate Hy|].
    cbn [opens_with] in Hy. apply negb_true_iff in Hy.
    cbn [app Builtins.dropwhile]. now rewrite Hy.
  - cbn [app Builtins.dropwhile]. now rewrite Hc.
Qed.

Lemma strip_exact (l x r : str) :
  Forall (fun c => sp c = true) l -> Forall (fun c => sp c = true) r ->
  opens_with nsp x = true -> opens_with nsp (rev x) = true ->
  Builtins.strip db (l ++ x ++ r) = x.
Proof.
  intros Hl Hr Hf Hlast. unfold Builtins.strip.
  rewrite (dropwhile_all sp l (x ++ r) Hl) by now apply opens_with_app.
  rewrite rev_app_distr, (dropwhile_all sp (rev r) (rev x)).
  - apply rev_involutive.
  - apply Forall_rev. exact Hr.
  - exact Hlast.
Qed.

Lemma strip_spaces (r : str) :
  Forall (fun c => sp c = true) r -> Builtins.strip db r = [].
Proof.
  intros Hr. unfold Builtins.strip.
  assert (E : Builtins.dropwhile sp r = []).
  { induction Hr as [|c r Hc _ IH]; [reflexivity|].
    cbn [Builtins.dropwhile]. now rewrite Hc. }
  rewrite E. reflexivity.
Qed.

Lemma strip_after_space (s : str) :
  Builtins.strip db (32%N :: s) = Builtins.strip db s.
Proof. unfold Builtins.strip. cbn [Builtins.dropwhile]. now rewrite space_32. Qed.

Lemma squeeze_lead (s : str) :
  squeeze db false s
  = (if opens_with sp s then [32%N] else [])
      ++ squeeze db false (Builtins.dropwhile sp s).
Proof.
  destruct s as [|c s]; [reflexivity|].
  cbn [squeeze opens_with Builtins.dropwhile]. destruct (sp c) eqn:Hc.
  - rewrite squeeze_in_run. reflexivity.
  - cbn [squeeze app]. rewrite Hc. reflexivity.
Qed.

Lemma respace_after_space (x : str) :
  match x with
  | [] => True
  | d :: _ => sp d = false
  end ->
  Builtins.strip db (tighten db (32%N :: squeeze db false x))
  = Builtins.strip db (tighten db (squeeze db false x)).
Proof.
  intros Hx. destruct x as [|d x].
  - cbn [squeeze]. rewrite tighten_cons, space_32.
    rewrite strip_after_space. reflexivity.
  - cbn [squeeze]. rewrite Hx. rewrite tighten_cons, space_32.
    rewrite (tighten_cons d), Hx.
    destruct (punctuation d); [reflexivity | apply strip_after_space].
Qed.

Lemma respace_lead (s : str) :
  respace db (32%N :: s) = respace db s.
Proof.
  rewrite !WellSpaced.respace_eq.
  pose proof (dropwhile_head sp s) as Hh.
  cbn [squeeze]. rewrite space_32, squeeze_in_run, (squeeze_lead s).
  rewrite (respace_after_space _ Hh).
  destruct (opens_with sp s); [|reflexivity].
  cbn [app]. symmetry. apply (respace_after_space _ Hh).
Qed.

(** *** The values of a text, respaced *)

Lemma respace_join (vals : list str) :
  Forall (item_ok db) vals ->
  respace db (join [32%N] vals)
  = render (filter (fun v => negb (blank db v)) vals).
Proof.
  intros Hv. destruct vals as [|v0 vals0] eqn:Ev; [reflexivity|].
  rewrite <- Ev in *. assert (Hne : vals <> []) by (rewrite Ev; discriminate).
  clear Ev.
  rewrite <- respace_lead, <- (flat_map_join vals Hne).
  rewrite WellSpaced.respace_eq.
  destruct (laid_out vals Hv) as [trail [Ht E]]. rewrite E.
  assert (Htr : Forall (fun c => sp c = true) trail).
  { destruct Ht as [-> | ->]; repeat constructor. }
  assert (Hws : Forall (fun v => tidy db v = true)
                  (filter (fun v => negb (blank db v)) vals)).
  { apply Forall_forall. intros w Hw. apply filter_In in Hw as [Hin Hb].
    rewrite Forall_forall in Hv. destruct (Hv w Hin) as [[c [-> Hc]] | H];
      [|exact H].
    unfold blank in Hb. cbn [forallb] in Hb. rewrite Hc in Hb.
    discriminate Hb. }
  destruct (filter (fun v => negb (blank db v)) vals) as [|w ws].
  - cbn [flat_map app render]. now apply strip_spaces.
  - destruct (render_ends w ws Hws) as [Hf Hl].
    rewrite render_cons in Hf, Hl |- *.
    cbn [flat_map]. rewrite <- !app_assoc, (app_assoc w).
    apply strip_exact; try assumption.
    unfold gap. destruct (opens_with punctuation w); repeat constructor.
Qed.

End WithDatabase.
End Layout.

(** ** The values of the tokens *)

Module Values.
Import Re ReWords ReFacts Layout.

Lemma latin1_listed (c : char) :
  Unicode.latin1 c = true -> In c (map N.of_nat (seq 0 256)).
Proof.
  unfold Unicode.latin1. intros H. apply N.ltb_lt in H.
  apply in_map_iff. exists (N.to_nat c). split; [apply N2Nat.id|].
  apply in_seq. lia.
Qed.

(** Below U+0100 no white-space character is a digit or a letter. *)
Lemma sane_latin1 (db : unicode_db) (c : char) :
  Unicode.latin1 c = true -> Unicode.isspace db c = true ->
  Unicode.isdecimal db c = false /\ Unicode.isdigit db c = false
  /\ letter c = false.
Proof.
  intros L Hc.
  assert (Hall :
    forallb (fun c =>
      negb (Unicode.isspace db c)
      || (negb (Unicode.isdecimal db c) && negb (Unicode.isdigit db c)
          && negb (letter c)))
      (map N.of_nat (seq 0 256)) = true) by (vm_compute; reflexivity).
  rewrite forallb_forall in Hall.
  specialize (Hall c (latin1_listed c L)). rewrite Hc in Hall.
  cbn [negb orb] in Hall.
  apply andb_true_iff in Hall as [Hall H3].
  apply andb_true_iff in Hall as [H1 H2].
  apply negb_true_iff in H1, H2, H3. repeat split; assumption.
Qed.

Lemma latin1_db_sane : sane latin1_db.
Proof.
  intros c Hc. destruct (Unicode.latin1 c) eqn:L.
  - now apply sane_latin1.
  - unfold Unicode.isspace in Hc. rewrite L in Hc. discriminate Hc.
Qed.

Section WithDatabase.
Variable db : unicode_db.
Hypothesis Hdb : sane db.

Abbreviation sp := (Unicode.isspace db).

Lemma decimal_not_space (c : char) :
  Unicode.isdecimal db c = true -> sp c = false.
Proof.
  intros H. destruct (sp c) eqn:Hc; [|reflexivity].
  destruct (Hdb c Hc) as [H1 _]. congruence.
Qed.

Lemma digit_not_space (c : char) :
  Unicode.isdigit db c = true -> sp c = false.
Proof.
  intros H. destruct (sp c) eqn:Hc; [|reflexivity].
  destruct (Hdb c Hc) as [_ [H1 _]]. congruence.
Qed.

Lemma letter_not_space (c : char) : letter c = true -> sp c = false.
Proof.
  intros H. destruct (sp c) eqn:Hc; [|reflexivity].
  destruct (Hdb c Hc) as [_ [_ H1]]. congruence.
Qed.

(** A token is one white-space character, or holds none. *)
Lemma token_kinds (t : str) (g : option str) :
  matches (token_pattern db) None t g ->
  (exists c, t = [c] /\ sp c = true)
  \/ Forall (fun c => sp c = false) t.
Proof.
  unfold token_pattern. intros Hm.
  apply matches_Alt in Hm as [H1 | Hm].
  { right.
    apply (matches_classes (fun c => sp c = false) _ _ _ _) in H1;
      [exact H1|].
    cbn. split; exact decimal_not_space. }
  apply matches_Alt in Hm as [H2 | Hm].
  { right.
    apply (matches_classes (fun c => sp c = false) _ _ _ _) in H2;
      [exact H2|].
    assert (Hq : forall c, one_of (u "'''") c = true -> sp c = false).
    { intros c Hc. unfold one_of in Hc. apply existsb_exists in Hc.
      destruct Hc as [x [Hx E]]. apply N.eqb_eq in E. subst x.
      vm_compute in Hx.
      repeat (destruct Hx as [<- | Hx]; [reflexivity|]). contradiction. }
    cbn. repeat split; try exact letter_not_space; exact Hq. }
  apply matches_Alt in Hm as [H3 | H4].
  - right. apply matches_Chr in H3 as (c & -> & Hc & _).
    apply negb_true_iff, orb_false_iff in Hc as [_ Hc].
    now repeat constructor.
  - left. apply matches_Chr in H4 as (c & -> & Hc & _). now exists c.
Qed.

Lemma tidy_without_space (v : str) :
  v <> [] -> Forall (fun c => sp c = false) v -> tidy db v = true.
Proof.
  intros Hne Hv. unfold tidy.
  rewrite (spaced_without_space db _ v Hv), andb_true_r.
  assert (Hopen : forall w, w <> [] -> Forall (fun c => sp c = false) w ->
                            opens_with (fun c => negb (sp c)) w = true).
  { intros [|c w] Hw Hf; [now elim Hw|].
    apply Forall_inv in Hf. cbn [opens_with]. now rewrite Hf. }
  rewrite (Hopen v Hne Hv). apply Hopen.
  - intros E. apply (f_equal (@rev N)) in E.
    rewrite rev_involutive in E. now elim Hne.
  - now apply Forall_rev.
Qed.

Lemma outputs_tidy : forallb (tidy db) (map snd lexicon) = true.
Proof. vm_compute. reflexivity. Qed.

Lemma marker_tidy (err t : str) :
  plain_message db err = true -> Forall (fun c => sp c = false) t ->
  tidy db (u "Error: " ++ err ++ u ", for input:'" ++ t ++ u "'") = true.
Proof.
  unfold plain_message. intros He Ht.
  apply andb_true_iff in He as [He Hm]. apply andb_true_iff in He as [_ He].
  destruct (tidy_facts db err He) as (c & e' & E & Hc & Hl & Hs).
  unfold tidy. apply andb_true_iff. split; [apply andb_true_iff; split|].
  - reflexivity.
  - rewrite !rev_app_distr, <- !app_assoc. reflexivity.
  - rewrite app_assoc.
    apply spaced_app_after_other.
    + apply spaced_app_before_other; [reflexivity | exact Hs|].
      rewrite E in Hm |- *. cbn [opens_with] in Hm |- *.
      unfold space_or_mark. rewrite Hc. apply negb_true_iff in Hm.
      now rewrite Hm.
    + rewrite rev_app_distr. now apply opens_with_app.
    + apply spaced_app_after_other; [reflexivity | reflexivity|].
      apply spaced_without_space. apply Forall_app. split; [exact Ht|].
      repeat constructor.
Qed.

Section WithMessage.
Variable err : str.
Hypothesis He : plain_message db err = true.

Lemma message_clean : Forall clean err.
Proof.
  unfold plain_message in He.
  apply andb_true_iff in He as [H _]. apply andb_true_iff in H as [H _].
  apply Forall_forall. intros c Hc. apply Transparent.cleanb_clean.
  rewrite forallb_forall in H. now apply H.
Qed.

(** The value of a token is one white-space character when the token
    is, and a tidy value when it is not. *)
Lemma value_of_token (t : str) (g : option str) :
  t <> [] -> matches (token_pattern db) None t g ->
  item_ok db (value db err lexicon t) /\
  blank db (value db err lexicon t) = blank db t.
Proof.
  intros Hne Hm. unfold value.
  destruct (token_kinds t g Hm) as [[c [-> Hc]] | Ht].
  - assert (Hd : Builtins.str_isdigit db [c] = false).
    { unfold Builtins.str_isdigit. cbn [forallb].
      destruct (Hdb c Hc) as [_ [Hd _]]. now rewrite Hd. }
    rewrite Hd. split; [|reflexivity]. left. now exists c.
  - assert (Hb : blank db t = false).
    { apply blank_tidy. now apply tidy_without_space. }
    destruct (Builtins.str_isdigit db t) eqn:Hd.
    + assert (Hv : tidy db (apply_fst err t lexicon) = true).
      { destruct (Transparent.apply_fst_cases err t lexicon) as [E | Hin].
        - rewrite E. now apply marker_tidy.
        - pose proof outputs_tidy as H. rewrite forallb_forall in H.
          apply H. exact Hin. }
      split; [now right|]. rewrite Hb. now apply blank_tidy.
    + split; [|reflexivity]. right. now apply tidy_without_space.
Qed.

Lemma filter_map_values (tokens : list str) :
  Forall (fun t => blank db (value db err lexicon t) = blank db t) tokens ->
  filter (fun v => negb (blank db v)) (map (value db err lexicon) tokens)
  = map (value db err lexicon) (filter (fun t => negb (blank db t)) tokens).
Proof.
  induction 1 as [|t tokens Ht _ IH]; [reflexivity|].
  cbn [map filter]. rewrite Ht.
  destruct (blank db t); cbn [negb map]; now rewrite IH.
Qed.

Lemma layout (text : str) :
  ~ In dq text ->
  strip_tags db (classify_sentence db err text lexicon)
  = render (map (value db err lexicon)
              (filter (fun t => negb (blank db t)) (tokenize_text db text))).
Proof.
  intros Hq.
  rewrite (Transparent.tags_off db err text Hq message_clean).
  assert (Hall : Forall (fun t =>
                   item_ok db (value db err lexicon t) /\
                   blank db (value db err lexicon t) = blank db t)
                   (tokenize_text db text)).
  { apply Forall_forall. intros t Hin.
    destruct (Transparent.token_facts db text t Hq Hin) as (Hne & _ & _).
    unfold tokenize_text, findall in Hin.
    apply Transparent.findall_from_matches in Hin as [g Hm].
    now apply (value_of_token t g). }
  change (u " ") with [32%N].
  rewrite respace_join.
  - f_equal. apply filter_map_values. revert Hall. apply Forall_impl.
    intros t [_ Hb]. exact Hb.
  - apply Forall_forall. intros v Hv. apply in_map_iff in Hv as [t [<- Hin]].
    rewrite Forall_forall in Hall. now apply Hall.
Qed.

End WithMessage.
End WithDatabase.
End Values.

(** ** Sentences *)

Module Sentences.
Import Re ReWords ReFacts Scan Layout.

Lemma run_Alt_l_some {A : Type} (a b : regex) (s acc : str)
    (g : option str) (k : str -> str -> option str -> option A) (v : A) :
  run a s acc g k = Some v -> run (Alt a b) s acc g k = Some v.
Proof. intros H. cbn [run]. now rewrite H. Qed.

Lemma run_Alt_r_some {A : Type} (a b : regex) (s acc : str)
    (g : option str) (k : str -> str -> option str -> option A) (v : A) :
  run a s acc g k = None -> run b s acc g k = Some v ->
  run (Alt a b) s acc g k = Some v.
Proof. intros Ha Hb. cbn [run]. now rewrite Ha. Qed.

Lemma run_Star_stuck {A : Type} (a : regex) (s acc : str) (g : option str)
    (k : str -> str -> option str -> option A) :
  (forall acc' g' (k' : str -> str -> option str -> option A),
     run a s acc' g' k' = None) ->
  run (Star a) s acc g k = k s acc g.
Proof.
  intros H. cbn [run]. destruct (List.length s); [reflexivity|].
  now rewrite H.
Qed.

Lemma findall_step (r : regex) (n : nat) (x rest : str) (g : option str) :
  match_at r (x ++ rest) = Some (x, g, rest) -> x <> [] ->
  findall_from (S n) r (x ++ rest) = x :: findall_from n r rest.
Proof.
  intros E Hx. destruct x as [|c x]; [now elim Hx|].
  cbn [app] in *. cbn [findall_from]. now rewrite E.
Qed.

Lemma Forall_interleave {P : str -> Prop} (sep : str) (l : list str) :
  P sep -> Forall P l -> Forall P (interleave sep l).
Proof.
  intros Hsep. induction 1 as [|x l Hx Hl IH]; [constructor|].
  destruct l as [|y l]; [now repeat constructor|].
  change (interleave sep (x :: y :: l))
    with (x :: sep :: interleave sep (y :: l)).
  now repeat constructor.
Qed.

Lemma render_join (ws : list str) :
  Forall (fun w => opens_with punctuation w = false) ws ->
  render ws = join [32%N] ws.
Proof.
  induction 1 as [|w ws Hw Hws IH]; [reflexivity|].
  destruct ws as [|w2 ws]; [apply app_nil_r|].
  change (render (w :: w2 :: ws)) with (w ++ gap w2 ++ render (w2 :: ws)).
  rewrite IH. unfold gap. apply Forall_inv in Hws. now rewrite Hws.
Qed.

Section WithDatabase.
Variable db : unicode_db.

Abbreviation digit09 := (Unicode.between 48 57).

Lemma plain_letter_facts (c : char) :
  plain_letter c = true ->
  letter c = true /\ Unicode.isdecimal db c = false
  /\ Unicode.isdigit db c = false /\ Unicode.isspace db c = false
  /\ punctuation c = false /\ c <> dq /\ c <> 123%N.
Proof.
  intros H. pose proof H as H'. unfold plain_letter in H'.
  apply andb_true_iff in H' as [Hl L].
  assert (Hall :
    forallb (fun c =>
      negb (plain_letter c)
      || (negb (Unicode.isdecimal db c) && negb (Unicode.isdigit db c)
          && negb (Unicode.isspace db c) && negb (punctuation c)
          && cleanb c))
      (map N.of_nat (seq 0 256)) = true) by (vm_compute; reflexivity).
  rewrite forallb_forall in Hall.
  specialize (Hall c (Values.latin1_listed c L)). rewrite H in Hall.
  cbn [negb orb] in Hall.
  repeat (apply andb_true_iff in Hall as [Hall ?]).
  repeat match goal with
         | X : negb _ = true |- _ => apply negb_true_iff in X
         end.
  destruct (Transparent.cleanb_clean c) as [Hq Hb]; [assumption|].
  repeat split; assumption.
Qed.

Lemma digit09_facts (c : char) :
  digit09 c = true ->
  Unicode.isdecimal db c = true /\ c <> dq /\ c <> 123%N.
Proof.
  intros H.
  assert (L : Unicode.latin1 c = true).
  { unfold Unicode.between, Unicode.latin1 in *.
    apply andb_true_iff in H as [_ H]. apply N.leb_le in H.
    apply N.ltb_lt. lia. }
  assert (Hall :
    forallb (fun c =>
      negb (digit09 c) || (Unicode.isdecimal db c && cleanb c))
      (map N.of_nat (seq 0 256)) = true) by (vm_compute; reflexivity).
  rewrite forallb_forall in Hall.
  specialize (Hall c (Values.latin1_listed c L)). rewrite H in Hall.
  cbn [negb orb] in Hall. apply andb_true_iff in Hall as [Hd Hc].
  destruct (Transparent.cleanb_clean c Hc) as [Hq Hb].
  repeat split; assumption.
Qed.

(** *** One token for each part *)

Lemma word_is_a_token (w rest : str) :
  opens_with plain_letter w = true -> forallb plain_letter w = true ->
  rest = [] \/ (exists r, rest = 32%N :: r) ->
  match_at (token_pattern db) (w ++ rest) = Some (w, None, rest).
Proof.
  intros Ho Hw Hrest. destruct w as [|c w]; [discriminate Ho|].
  cbn [forallb] in Hw. apply andb_true_iff in Hw as [Hc Hw].
  destruct (plain_letter_facts c Hc) as (Hl & Hd & _).
  unfold match_at, token_pattern. cbn [app].
  apply run_Alt_r_some.
  { unfold Plus. rewrite Tokens.run_Seq_eq, Tokens.run_Chr_eq, Hd.
    reflexivity. }
  apply run_Alt_l_some. unfold Plus.
  rewrite !Tokens.run_Seq_eq, Tokens.run_Chr_eq, Hl.
  apply run_Star_Chr_greedy.
  - apply Forall_forall. intros x Hx. rewrite forallb_forall in Hw.
    now destruct (plain_letter_facts x (Hw x Hx)) as (Hlx & _).
  - rewrite run_Star_stuck.
    + rewrite rev_app_distr, rev_involutive. reflexivity.
    + intros acc' g' k'. destruct Hrest as [-> | [r ->]]; reflexivity.
  - destruct Hrest as [-> | [r ->]]; [exact I | reflexivity].
Qed.

Lemma figures_are_a_token (x rest : str) :
  opens_with digit09 x = true -> forallb digit09 x = true ->
  rest = [] \/ (exists r, rest = 32%N :: r) ->
  match_at (token_pattern db) (x ++ rest) = Some (x, None, rest).
Proof.
  intros Ho Hx Hrest. destruct x as [|c x]; [discriminate Ho|].
  cbn [forallb] in Hx. apply andb_true_iff in Hx as [Hc Hx].
  destruct (digit09_facts c Hc) as (Hd & _).
  unfold match_at, token_pattern. cbn [app].
  apply run_Alt_l_some. unfold Plus.
  rewrite Tokens.run_Seq_eq, Tokens.run_Chr_eq, Hd.
  apply run_Star_Chr_greedy.
  - apply Forall_forall. intros y Hy. rewrite forallb_forall in Hx.
    now destruct (digit09_facts y (Hx y Hy)) as (Hdy & _).
  - rewrite rev_app_distr, rev_involutive. reflexivity.
  - destruct Hrest as [-> | [r ->]]; [exact I | reflexivity].
Qed.

Lemma space_is_a_token (rest : str) :
  match_at (token_pattern db) (32%N :: rest) = Some ([32%N], None, rest).
Proof. vm_compute. reflexivity. Qed.

(** What is checked of each number of the range, by evaluation. *)
Lemma numbers_checked (err : str) :
  forallb (fun n =>
    let t := str_of_int n in
    let v := apply_fst err t lexicon in
    opens_with digit09 t && forallb digit09 t
    && Builtins.str_isdigit db t
    && goodb v && tidy db v && negb (opens_with punctuation v))
    (range 0 1001) = true.
Proof. vm_compute. reflexivity. Qed.

Section WithMessage.
Variable err : str.

(** The token and the value of an part. *)
Lemma item_facts (i : part) :
  in_scope i = true ->
  (forall rest,
     rest = [] \/ (exists r, rest = 32%N :: r) ->
     match_at (token_pattern db) (shown i ++ rest)
     = Some (shown i, None, rest)) /\
  shown i <> [] /\ Forall clean (shown i) /\
  (Builtins.str_isdigit db (shown i) = true ->
   good (apply_fst err (shown i) lexicon)) /\
  tidy db (value db err lexicon (shown i)) = true /\
  opens_with punctuation (value db err lexicon (shown i)) = false.
Proof.
  destruct i as [w | n]; cbn [in_scope shown]; intros Hi.
  - apply andb_true_iff in Hi as [Ho Hw].
    assert (Hall : Forall (fun c => plain_letter c = true) w)
      by (apply Forall_forall; now apply forallb_forall).
    assert (Hne : w <> []) by (destruct w; [discriminate Ho | discriminate]).
    assert (Hd : Builtins.str_isdigit db w = false).
    { destruct w as [|c w]; [now elim Hne|].
      unfold Builtins.str_isdigit. cbn [forallb].
      destruct (plain_letter_facts c Ho) as (_ & _ & Hd & _).
      now rewrite Hd. }
    unfold value. rewrite Hd. repeat apply conj.
    + intros rest Hrest. now apply word_is_a_token.
    + exact Hne.
    + revert Hall. apply Forall_impl. intros c Hc.
      destruct (plain_letter_facts c Hc) as (_ & _ & _ & _ & _ & Hq & Hb).
      now split.
    + discriminate.
    + apply Values.tidy_without_space; [exact Hne|].
      revert Hall. apply Forall_impl. intros c Hc.
      now destruct (plain_letter_facts c Hc) as (_ & _ & _ & Hs & _).
    + destruct w as [|c w]; [now elim Hne|]. cbn [opens_with].
      now destruct (plain_letter_facts c Ho) as (_ & _ & _ & _ & Hp & _).
  - apply in_range_iff in Hi.
    pose proof (forallb_range _ 0 1001 (numbers_checked err) n
                  ltac:(lia)) as Hc.
    cbv beta zeta in Hc.
    repeat (apply andb_true_iff in Hc as [Hc ?]).
    match goal with X : negb _ = true |- _ => apply negb_true_iff in X end.
    assert (Hall : Forall (fun c => digit09 c = true) (str_of_int n))
      by (apply Forall_forall; now apply forallb_forall).
    unfold value.
    replace (Builtins.str_isdigit db (str_of_int n)) with true
      by (symmetry; assumption).
    repeat apply conj.
    + intros rest Hrest. now apply figures_are_a_token.
    + destruct (str_of_int n); [discriminate Hc | discriminate].
    + revert Hall. apply Forall_impl. intros c Hd.
      destruct (digit09_facts c Hd) as (_ & Hq & Hb). now split.
    + intros _. now apply Transparent.goodb_good.
    + assumption.
    + assumption.
Qed.

(** A sentence of items is tokenized into its items and the spaces
    between them. *)
Lemma tokens_of_sentence (items : list part) :
  Forall (fun i => in_scope i = true) items ->
  forall n,
    (List.length (join [32%N] (map shown items)) <= n)%nat ->
    findall_from n (token_pattern db) (join [32%N] (map shown items))
    = interleave [32%N] (map shown items).
Proof.
  induction 1 as [|i items Hi Hitems IH]; intros n Hlen.
  - destruct n; reflexivity.
  - destruct (item_facts i Hi) as (Htok & Hne & _).
    destruct items as [|j items].
    + cbn [map join interleave] in *.
      destruct n as [|n].
      { destruct (shown i); [now elim Hne | cbn [List.length] in Hlen; lia]. }
      rewrite <- (app_nil_r (shown i)) at 1.
      rewrite (findall_step _ n (shown i) [] None);
        [|apply Htok; now left | exact Hne].
      destruct n; reflexivity.
    + change (join [32%N] (map shown (i :: j :: items)))
        with (shown i ++ 32%N :: join [32%N] (map shown (j :: items)))
        in Hlen |- *.
      change (interleave [32%N] (map shown (i :: j :: items)))
        with (shown i :: [32%N]
                :: interleave [32%N] (map shown (j :: items))).
      rewrite length_app in Hlen. cbn [List.length] in Hlen.
      assert (Hpos : (0 < List.length (shown i))%nat).
      { destruct (shown i); [now elim Hne | cbn [List.length]; lia]. }
      destruct n as [|[|n]]; [lia | lia |].
      rewrite (findall_step _ (S n) (shown i) _ None);
        [|apply Htok; right; now eexists | exact Hne].
      f_equal. cbn [findall_from]. rewrite space_is_a_token.
      f_equal. apply IH. lia.
Qed.

Lemma values_of_sentence (items : list part) :
  Forall (fun i => in_scope i = true) items ->
  filter (fun v => negb (blank db v))
    (map (value db err lexicon) (interleave [32%N] (map shown items)))
  = map (fun i => value db err lexicon (shown i)) items.
Proof.
  induction 1 as [|i items Hi Hitems IH]; [reflexivity|].
  destruct (item_facts i Hi) as (_ & _ & _ & _ & Ht & _).
  destruct items as [|j items].
  - cbn [map interleave filter]. rewrite (blank_tidy db _ Ht). reflexivity.
  - change (interleave [32%N] (map shown (i :: j :: items)))
      with (shown i :: [32%N] :: interleave [32%N] (map shown (j :: items))).
    cbn [map filter]. rewrite (blank_tidy db _ Ht). cbn [negb].
    f_equal.
    change (blank db (value db err lexicon [32%N])) with true.
    cbn [negb]. exact IH.
Qed.

Lemma sentence (items : list part) :
  Forall (fun i => in_scope i = true) items ->
  strip_tags db
    (classify_sentence db err (join (u " ") (map shown items)) lexicon)
  = join (u " ") (map (fun i => value db err lexicon (shown i)) items).
Proof.
  intros Hitems. change (u " ") with [32%N].
  unfold classify_sentence, tokenize_text, findall. cbv zeta.
  rewrite (tokens_of_sentence items Hitems _ (Nat.le_refl _)).
  change (strip_tags db ?s)
    with (respace db (sub word_tag [Backref] (sub cardinal_tag [Backref] s))).
  change [32%N] with (u " ") at 1.
  rewrite (Transparent.both_substitutions db err lexicon).
  - change (u " ") with [32%N]. rewrite respace_join.
    + rewrite (values_of_sentence items Hitems). apply render_join.
      apply Forall_forall. intros v Hv.
      apply in_map_iff in Hv as [i [<- Hin]].
      rewrite Forall_forall in Hitems.
      now destruct (item_facts i (Hitems i Hin)) as (_ & _ & _ & _ & _ & Hp).
    + apply Forall_forall. intros v Hv.
      apply in_map_iff in Hv as [t [<- Hin]]. revert t Hin.
      apply Forall_forall. apply Forall_interleave.
      * left. now exists 32%N.
      * apply Forall_forall. intros t Hin.
        apply in_map_iff in Hin as [i [<- Hin]].
        rewrite Forall_forall in Hitems. right.
        now destruct (item_facts i (Hitems i Hin)) as (_ & _ & _ & _ & Ht & _).
  - apply Forall_interleave.
    + repeat apply conj.
      * discriminate.
      * discriminate.
      * repeat constructor. discriminate.
      * left. now exists 32%N.
    + apply Forall_forall. intros t Hin.
      apply in_map_iff in Hin as [i [<- Hin]].
      rewrite Forall_forall in Hitems.
      destruct (item_facts i (Hitems i Hin)) as (_ & Hne & Hc & Hg & _).
      repeat apply conj.
      * exact Hg.
      * exact Hne.
      * now apply Transparent.clean_nq.
      * right. now apply Transparent.clean_braceless.
Qed.

End WithMessage.
End WithDatabase.
End Sentences.

(* ================================================================== *)
(** * Part VI: further properties *)
(* ================================================================== *)


(** X2. The hundreds are composed: for h from 1 to 9 the numeral 100h is
    spelled as the prefix (cent, or the spelling of h followed by cent),
    with a final s from 200 on; and 100h+o, for o from 1 to 99, as the
    prefix without s, a space, and the spelling of o. *)
Theorem X2_hundreds_are_composed (db : unicode_db) (lim : nat) (err : str)
    (self : FrenchNormalizer) (h o : Z)
    (H : constructed self) (Hh : 1 <= h <= 9) (Ho : 1 <= o <= 99) :
  let sp n := spelled db lim err self (str_of_int n) in
  let prefix := if h =? 1 then u "cent" else sp h ++ u " cent" in
  sp (100 * h) = prefix ++ (if 2 <=? h then u "s" else []) /\
  sp (100 * h + o) = prefix ++ u " " ++ sp o.
Proof.
  cbv beta zeta.
  rewrite !(Entries.spelled_numeral db lim err self) by (exact H || lia).
  pose proof (forallb_range _ 1 10 (Checks.hundreds_checked err) h
                ltac:(lia)) as Hc.
  cbv beta zeta in Hc. apply andb_true_iff in Hc as [Hr Hc].
  split.
  - apply str_eqb_eq. exact Hr.
  - apply str_eqb_eq.
    apply (forallb_range _ 1 100 Hc o). lia.
Qed.

Lemma X2_hundreds_are_composed_witness :
  spelled latin1_db default_limit operation_failed fresh (str_of_int 300)
    = u "trois cents" /\
  spelled latin1_db default_limit operation_failed fresh (str_of_int 342)
    = u "trois cent quarante-deux".
Proof.
  destruct (X2_hundreds_are_composed latin1_db default_limit
              operation_failed fresh 3 42 fresh_constructed
              ltac:(lia) ltac:(lia)) as [Hr Hc].
  split.
  - change (100 * 3) with 300 in Hr. rewrite Hr. vm_compute. reflexivity.
  - change (100 * 3 + 42) with 342 in Hc. rewrite Hc.
    vm_compute. reflexivity.
Defined.

(** X3. The tens are composed.  From 21 to 69 a numeral that is not a
    round ten is the spelling of its ten, a connector and the spelling of
    its unit, the connector being [ et ] for the unit 1 and a hyphen
    otherwise; 70 to 79 are the spelling of 60 followed in the same way by
    that of 10 to 19, with [ et ] for 71 only; 81 to 99 are
    [quatre-vingt-] followed by the spelling of 1 to 19, never with
    [ et ]. *)
Theorem X3_tens_are_composed (db : unicode_db) (lim : nat) (err : str)
    (self : FrenchNormalizer) (H : constructed self) :
  let sp n := spelled db lim err self (str_of_int n) in
  (forall t d, 2 <= t <= 6 -> 1 <= d <= 9 ->
     sp (10 * t + d)
     = sp (10 * t) ++ (if d =? 1 then u " et " else u "-") ++ sp d) /\
  (forall o, 10 <= o <= 19 ->
     sp (60 + o)
     = sp 60 ++ (if o =? 11 then u " et " else u "-") ++ sp o) /\
  (forall o, 1 <= o <= 19 ->
     sp (80 + o) = u "quatre-vingt-" ++ sp o).
Proof.
  cbv beta zeta. split; [|split].
  - intros t d Ht Hd.
    rewrite !(Entries.spelled_numeral db lim err self) by (exact H || lia).
    apply str_eqb_eq.
    apply (Entries.forallb_range2
             (fun t d =>
                str_eqb (word err (10 * t + d))
                  (word err (10 * t)
                     ++ (if d =? 1 then u " et " else u "-") ++ word err d))
             2 7 1 10 (Checks.tens_checked err)); lia.
  - intros o Ho.
    rewrite !(Entries.spelled_numeral db lim err self) by (exact H || lia).
    apply str_eqb_eq.
    apply (forallb_range _ 10 20 (Checks.seventies_checked err) o). lia.
  - intros o Ho.
    rewrite !(Entries.spelled_numeral db lim err self) by (exact H || lia).
    apply str_eqb_eq.
    apply (forallb_range _ 1 20 (Checks.eighties_checked err) o). lia.
Qed.

Lemma X3_tens_are_composed_witness :
  spelled latin1_db default_limit operation_failed fresh (str_of_int 42)
    = u "quarante-deux" /\
  spelled latin1_db default_limit operation_failed fresh (str_of_int 77)
    = u "soixante-dix-sept" /\
  spelled latin1_db default_limit operation_failed fresh (str_of_int 91)
    = u "quatre-vingt-onze".
Proof.
  destruct (X3_tens_are_composed latin1_db default_limit operation_failed
              fresh fresh_constructed) as [Ha [Hb Hc]].
  repeat apply conj.
  - change 42 with (10 * 4 + 2). rewrite (Ha 4 2) by lia.
    vm_compute. reflexivity.
  - change 77 with (60 + 17). rewrite (Hb 17) by lia.
    vm_compute. reflexivity.
  - change 91 with (80 + 11). rewrite (Hc 11) by lia.
    vm_compute. reflexivity.
Defined.

(** X4. Where the conjunction is used.  Over the whole range, the
    spelling of n contains [ et ] exactly when the last two digits of n
    are 21, 31, 41, 51, 61 or 71.  So 1, 101 or 201, on which
    [apply_et_rule] answers yes, are spelled without it. *)
Theorem X4_where_et_occurs (db : unicode_db) (lim : nat) (err : str)
    (self : FrenchNormalizer) (n : Z)
    (H : constructed self) (Hn : 0 <= n <= 1000) :
  infix_of (u " et ") (spelled db lim err self (str_of_int n))
  <-> In (n mod 100) [21; 31; 41; 51; 61; 71].
Proof.
  rewrite (Entries.spelled_numeral db lim err self n H Hn).
  rewrite <- Entries.infixb_iff.
  pose proof (forallb_range _ 0 1001 (Checks.et_checked err) n
                ltac:(lia)) as Hc.
  cbv beta in Hc. apply eqb_prop in Hc. rewrite Hc.
  unfold rules.in_list. rewrite existsb_exists. split.
  - intros [x [Hx E]]. apply Z.eqb_eq in E. rewrite E. exact Hx.
  - intros Hx. exists (n mod 100). split; [exact Hx | apply Z.eqb_refl].
Qed.

Lemma X4_where_et_occurs_witness :
  infix_of (u " et ")
    (spelled latin1_db default_limit operation_failed fresh
       (str_of_int 371)) /\
  ~ infix_of (u " et ")
      (spelled latin1_db default_limit operation_failed fresh
         (str_of_int 201)) /\
  rules.apply_et_rule 201 = true.
Proof.
  split; [|split].
  - apply (X4_where_et_occurs latin1_db default_limit operation_failed
             fresh 371 fresh_constructed); [lia|].
    vm_compute. tauto.
  - intros Hi.
    apply (X4_where_et_occurs latin1_db default_limit operation_failed
             fresh 201 fresh_constructed) in Hi; [|lia].
    vm_compute in Hi. intuition discriminate.
  - reflexivity.
Defined.

(** X5. Where the plural s is written.  Over the whole range, the
    spelling of n ends in [cents] exactly when [apply_s_to_cents] holds of
    n and n is below 1000, and it ends in [vingts] exactly when the last
    two digits of n are 80: [apply_s_to_vingts] is consulted for 80 only,
    but 180, 280, ... inherit the s through the spelling of 80. *)
Theorem X5_where_the_plural_is_written (db : unicode_db) (lim : nat)
    (err : str) (self : FrenchNormalizer) (n : Z)
    (H : constructed self) (Hn : 0 <= n <= 1000) :
  let r := spelled db lim err self (str_of_int n) in
  (endswith (u "cents") r = true
   <-> rules.apply_s_to_cents n = true /\ n < 1000) /\
  (endswith (u "vingts") r = true <-> n mod 100 = 80).
Proof.
  cbv beta zeta.
  rewrite (Entries.spelled_numeral db lim err self n H Hn).
  pose proof (forallb_range _ 0 1001 (Checks.plural_checked err) n
                ltac:(lia)) as Hc.
  cbv beta in Hc. apply andb_true_iff in Hc as [Hc Hv].
  apply eqb_prop in Hc. apply eqb_prop in Hv.
  rewrite Hc, Hv. split.
  - rewrite andb_true_iff, Z.ltb_lt. reflexivity.
  - unfold rules.apply_s_to_vingts. apply Z.eqb_eq.
Qed.

Lemma X5_where_the_plural_is_written_witness :
  endswith (u "cents")
    (spelled latin1_db default_limit operation_failed fresh
       (str_of_int 900)) = true /\
  endswith (u "vingts")
    (spelled latin1_db default_limit operation_failed fresh
       (str_of_int 480)) = true.
Proof.
  pose proof (X5_where_the_plural_is_written latin1_db default_limit
                operation_failed fresh 900 fresh_constructed
                ltac:(lia)) as H900.
  pose proof (X5_where_the_plural_is_written latin1_db default_limit
                operation_failed fresh 480 fresh_constructed
                ltac:(lia)) as H480.
  cbv zeta in H900, H480.
  destruct H900 as [[_ Hc] _]. destruct H480 as [_ [_ Hv]].
  split.
  - apply Hc. split; [reflexivity | lia].
  - apply Hv. reflexivity.
Defined.

(** X6. Spelling is injective on the range: two different numbers from
    0 to 1000 never get the same spelled form. *)
Theorem X6_spelling_is_injective (db : unicode_db) (lim : nat) (err : str)
    (self : FrenchNormalizer) (n m : Z)
    (H : constructed self) (Hn : 0 <= n <= 1000) (Hm : 0 <= m <= 1000)
    (E : spelled db lim err self (str_of_int n)
         = spelled db lim err self (str_of_int m)) :
  n = m.
Proof.
  rewrite !(Entries.spelled_numeral db lim err self) in E
    by (exact H || lia).
  apply (Entries.NoDup_map_injective (word err) (range 0 1001)).
  - apply distinct_NoDup. apply Entries.words_distinct.
  - apply range_In. lia.
  - apply range_In. lia.
  - exact E.
Qed.

Lemma X6_spelling_is_injective_witness :
  spelled latin1_db default_limit operation_failed fresh (str_of_int 80)
    = spelled latin1_db default_limit operation_failed fresh
        (str_of_int (4 * 20)) /\
  80 = 4 * 20.
Proof.
  assert (E : spelled latin1_db default_limit operation_failed fresh
                (str_of_int 80)
              = spelled latin1_db default_limit operation_failed fresh
                  (str_of_int (4 * 20))) by reflexivity.
  split; [exact E|].
  apply (X6_spelling_is_injective latin1_db default_limit operation_failed
           fresh 80 (4 * 20) fresh_constructed); [lia | lia | exact E].
Defined.

(** X7. A digit string without a path.  The program applies
    [apply_fst] to digit strings.  On the built transducer, for every
    string that [str.isdigit] accepts and that is not the decimal
    rendering of a number from 0 to 1000 (a numeral above 1000, one with
    a leading zero, digits of another script), [apply_fst] does not raise
    but returns the error marker made of the library's exception text and
    the input, and [classify_token] wraps that marker in a cardinal
    tag. *)
Theorem X7_no_path_gives_the_error_marker (db : unicode_db)
    (err text : str) (self : FrenchNormalizer) (H : constructed self)
    (Hd : Builtins.str_isdigit db text = true)
    (Hm : forall n, 0 <= n <= 1000 -> text <> str_of_int n) :
  apply_fst err text (self_fst self)
    = u "Error: " ++ err ++ u ", for input:'" ++ text ++ u "'" /\
  classify_token db err text (self_fst self) = marker_tag err text.
Proof.
  apply constructed_fst in H. rewrite H.
  assert (E : apply_fst err text lexicon
              = u "Error: " ++ err ++ u ", for input:'" ++ text ++ u "'").
  { apply Entries.apply_fst_miss. rewrite Entries.keys_lexicon.
    unfold numerals. intros Hin. apply in_map_iff in Hin as [n [E Hr]].
    apply range_In in Hr. apply (Hm n); [lia | symmetry; exact E]. }
  split; [exact E|].
  unfold classify_token, marker_tag. rewrite Hd, E. reflexivity.
Qed.

Lemma X7_no_path_gives_the_error_marker_witness :
  apply_fst operation_failed (u "007") (self_fst fresh)
    = u "Error: Operation failed, for input:'007'" /\
  classify_token latin1_db operation_failed (u "007") (self_fst fresh)
    = marker_tag operation_failed (u "007").
Proof.
  destruct (X7_no_path_gives_the_error_marker latin1_db operation_failed
              (u "007") fresh fresh_constructed)
    as [Ha Hc].
  - reflexivity.
  - apply Entries.not_numeral. vm_compute. reflexivity.
  - split; [|exact Hc]. rewrite Ha. vm_compute. reflexivity.
Defined.

(** X8. The counters behind [get_stats].  After any run of calls of
    [normalize_number], on any normalizer: the transducer is the one the
    normalizer had; [normalized] has grown by the number of arguments that
    [int] read as a number from 0 to 1000; [errors] has grown by the
    number of arguments on which [int] raised.  An argument read as a
    number outside the range is counted in neither. *)
Theorem X8_counters_of_get_stats (db : unicode_db) (lim : nat) (err : str)
    (self : FrenchNormalizer) (inputs : list str) :
  let self' := after_calls db lim err self inputs in
  self_fst self' = self_fst self /\
  normalized (get_stats self')
    = normalized (get_stats self) + count (spellable db lim) inputs /\
  errors (get_stats self')
    = errors (get_stats self) + count (unparsable db lim) inputs.
Proof.
  cbv zeta. revert self.
  induction inputs as [|s inputs IH]; intros self.
  - unfold after_calls, count. cbn. repeat apply conj; try reflexivity; lia.
  - unfold after_calls in *. cbn [fold_left].
    destruct (IH (snd (normalize_number db lim err self s)))
      as [Hf [Hn He]].
    destruct (Counters.one_call db lim err self s) as [Hf1 [Hn1 He1]].
    cbv zeta in Hf1, Hn1, He1.
    rewrite Hf, Hn, He, Hf1, Hn1, He1, !Counters.count_cons.
    repeat apply conj; try reflexivity; lia.
Qed.

(** X9. [normalize_number] is idempotent: normalizing its own result
    returns that result.  A string it passes through is passed through
    again, and a spelled form starts with a letter, which [int] rejects. *)
Theorem X9_normalize_number_is_idempotent (db : unicode_db) (lim : nat)
    (err : str) (self : FrenchNormalizer) (s : str)
    (H : constructed self) :
  spelled db lim err self (spelled db lim err self s)
  = spelled db lim err self s.
Proof.
  destruct (Builtins.int db lim s) as [n|] eqn:E.
  - destruct (in_range n) eqn:R.
    + rewrite (spelled_in_range db lim err self s n E R).
      apply constructed_fst in H. rewrite H.
      apply in_range_iff in R.
      destruct (numeral_facts db lim err n R)
        as [_ [_ [[c [t [Hw Hc]]] _]]].
      rewrite Hw. apply spelled_unparsable.
      apply int_of_word. exact Hc.
    + rewrite (spelled_out_of_range db lim err self s n E R).
      apply (spelled_out_of_range db lim err self s n E R).
  - rewrite (spelled_unparsable db lim err self s E).
    apply (spelled_unparsable db lim err self s E).
Qed.

Lemma X9_normalize_number_is_idempotent_witness :
  spelled latin1_db default_limit operation_failed fresh (u " +21 ")
    = u "vingt et un" /\
  spelled latin1_db default_limit operation_failed fresh (u "vingt et un")
    = u "vingt et un".
Proof.
  assert (E : spelled latin1_db default_limit operation_failed fresh
                (u " +21 ") = u "vingt et un")
    by (vm_compute; reflexivity).
  split; [exact E|].
  rewrite <- E at 1.
  rewrite (X9_normalize_number_is_idempotent latin1_db default_limit
             operation_failed fresh (u " +21 ") fresh_constructed).
  exact E.
Defined.

(** X10. Tokenization loses nothing but the characters no alternative
    of the pattern accepts.  For every text, the tokens put end to end are
    the text without its dropped characters (word characters that are
    neither decimal digits, letters of the pattern's class nor white
    space, such as the underscore), in the order of the text; and no token
    is empty. *)
Theorem X10_tokens_keep_the_text (db : unicode_db) (text : str) :
  List.concat (tokenize_text db text) = filter (kept db) text /\
  Forall (fun t => t <> []) (tokenize_text db text).
Proof.
  unfold tokenize_text, Re.findall.
  apply Tokens.findall_from_keeps. apply Nat.le_refl.
Qed.

(** X11. The tags are transparent for a text without double quote.
    Whatever the text, as long as it holds no double quote (and the text
    of the library's exception holds neither a double quote nor an
    opening brace), [normalize_text] returns the values of the tokens,
    joined by single spaces and respaced: every tag that
    [classify_sentence] writes is taken away again by [strip_tags], with
    nothing but its value left, and no pattern matches anywhere else. *)
Theorem X11_tags_are_transparent (db : unicode_db) (err : str)
    (self : FrenchNormalizer) (text : str)
    (H : constructed self) (Hq : ~ In dq text) (He : Forall clean err) :
  normalize_text db err self text
  = respace db
      (join (u " ")
         (map (value db err (self_fst self)) (tokenize_text db text))).
Proof.
  apply constructed_fst in H.
  unfold normalize_text. cbv zeta. rewrite H.
  now apply Transparent.tags_off.
Qed.

Lemma X11_tags_are_transparent_witness :
  normalize_text latin1_db operation_failed fresh
    (u "Le nombre 71 utilise le système soixante-dix")
  = u "Le nombre soixante et onze utilise le système soixante - dix".
Proof.
  rewrite (X11_tags_are_transparent latin1_db operation_failed fresh
             (u "Le nombre 71 utilise le système soixante-dix")
             fresh_constructed).
  - vm_compute. reflexivity.
  - vm_compute. intuition discriminate.
  - apply Forall_forall. intros c Hc. apply Transparent.cleanb_clean.
    revert c Hc. apply forallb_forall. vm_compute. reflexivity.
Defined.

(** X12. What [strip_tags] returns is well spaced, whatever it is
    given.  Every white-space character of the result is a U+0020; it is
    neither the first nor the last character; the character before it is
    not white space; and the character after it is neither white space
    nor one of the marks . , : ; ! ? *)
Theorem X12_strip_tags_returns_well_spaced_text (db : unicode_db)
    (s a b : str) (c : char)
    (E : strip_tags db s = a ++ c :: b)
    (Hc : Unicode.isspace db c = true) :
  c = 32%N /\
  (exists a' p, a = a' ++ [p] /\ Unicode.isspace db p = false) /\
  (exists d b',
     b = d :: b' /\ Unicode.isspace db d = false /\ punctuation d = false).
Proof.
  change (strip_tags db s)
    with (respace db
            (Re.sub word_tag [Re.Backref]
               (Re.sub cardinal_tag [Re.Backref] s))) in E.
  destruct (WellSpaced.respace_spaced db
              (Re.sub word_tag [Re.Backref]
                 (Re.sub cardinal_tag [Re.Backref] s)))
    as (Hs & Hfirst & Hlast).
  exact (WellSpaced.spaced_at db _ a b c Hs Hfirst Hlast E Hc).
Qed.

Lemma X12_strip_tags_returns_well_spaced_text_witness :
  strip_tags latin1_db (u "  un ,  deux" ++ 9%N :: u " !  ") = u "un, deux!" /\
  exists d b',
    u "deux!" = d :: b' /\ Unicode.isspace latin1_db d = false /\
    punctuation d = false.
Proof.
  assert (E : strip_tags latin1_db (u "  un ,  deux" ++ 9%N :: u " !  ")
              = u "un," ++ 32%N :: u "deux!")
    by (vm_compute; reflexivity).
  split; [exact E|].
  apply (X12_strip_tags_returns_well_spaced_text latin1_db
           (u "  un ,  deux" ++ 9%N :: u " !  ") (u "un,") (u "deux!") 32%N E).
  reflexivity.
Defined.

(** X13. The layout of the normalized text.  For every text without
    double quote, [normalize_text] returns the values of the tokens that
    are not white space, in order, each separated from the one before by
    a single space, or by nothing when it opens with one of the marks
    . , : ; ! ?  (The database is assumed to class no white-space
    character as a digit or as a letter of the token pattern, and the
    exception text to be a plain message.)  So white space of any kind and
    length between tokens becomes one space or none, and a space is put
    between tokens that touched, as around a hyphen. *)
Theorem X13_layout_of_the_normalized_text (db : unicode_db) (err : str)
    (self : FrenchNormalizer) (text : str)
    (H : constructed self) (Hdb : sane db)
    (He : plain_message db err = true) (Hq : ~ In dq text) :
  normalize_text db err self text
  = render
      (map (value db err (self_fst self))
         (filter (fun t => negb (blank db t)) (tokenize_text db text))).
Proof.
  apply constructed_fst in H.
  unfold normalize_text. cbv zeta. rewrite H.
  now apply Values.layout.
Qed.

Lemma X13_layout_of_the_normalized_text_witness :
  normalize_text latin1_db operation_failed fresh
    (u " J'ai  3 chiens , 21 chats-tigres et 2025 puces !")
  = u "J'ai trois chiens, vingt et un chats - tigres et Error: Operation failed, for input:'2025' puces!".
Proof.
  rewrite (X13_layout_of_the_normalized_text latin1_db operation_failed
             fresh (u " J'ai  3 chiens , 21 chats-tigres et 2025 puces !")
             fresh_constructed Values.latin1_db_sane).
  - vm_compute. reflexivity.
  - vm_compute. reflexivity.
  - vm_compute. intuition discriminate.
Defined.

(** X14. Sentences of words and numbers.  A text made of items
    separated by single spaces, each part a word of letters of the token
    class below U+0100 or the decimal rendering of a number from 0 to
    1000, is normalized part by part: [normalize_text] returns the words
    as they are and, in place of each number, what [normalize_number]
    returns for it, separated by single spaces. *)
Theorem X14_sentences_are_normalized_item_by_item (db : unicode_db)
    (lim : nat) (err : str) (self : FrenchNormalizer) (items : list part)
    (H : constructed self)
    (Hitems : Forall (fun i => in_scope i = true) items) :
  normalize_text db err self (join (u " ") (map shown items))
  = join (u " ") (map (spoken db lim err self) items).
Proof.
  pose proof (constructed_fst self H) as Hf.
  unfold normalize_text. cbv zeta. rewrite Hf.
  rewrite (Sentences.sentence db err items Hitems). f_equal.
  apply map_ext_in. intros i Hin.
  rewrite Forall_forall in Hitems. specialize (Hitems i Hin).
  destruct i as [w | n]; cbn [shown spoken in_scope] in *.
  - destruct (Sentences.item_facts db err (Word w) Hitems)
      as (_ & Hne & Hc & _).
    unfold value. cbn [shown] in *.
    destruct (Builtins.str_isdigit db w) eqn:Hd; [|reflexivity].
    exfalso. apply andb_true_iff in Hitems as [Ho _].
    destruct w as [|c w]; [discriminate Ho|].
    unfold Builtins.str_isdigit in Hd. cbn [forallb] in Hd.
    apply andb_true_iff in Hd as [Hd _].
    destruct (Sentences.plain_letter_facts db c Ho) as (_ & _ & Hn & _).
    congruence.
  - apply in_range_iff in Hitems.
    rewrite (Entries.spelled_numeral db lim err self n H Hitems).
    pose proof (forallb_range _ 0 1001 (Sentences.numbers_checked db err) n
                  ltac:(lia)) as Hc.
    cbv beta zeta in Hc.
    repeat (apply andb_true_iff in Hc as [Hc ?]).
    unfold value, word.
    replace (Builtins.str_isdigit db (str_of_int n)) with true
      by (symmetry; assumption).
    reflexivity.
Qed.

Lemma X14_sentences_are_normalized_item_by_item_witness :
  normalize_text latin1_db operation_failed fresh
    (u "été comme hiver il pleut 291 jours sur 365")
  = u "été comme hiver il pleut deux cent quatre-vingt-onze jours sur trois cent soixante-cinq".
Proof.
  assert (E : u "été comme hiver il pleut 291 jours sur 365"
              = join (u " ")
                  (map shown
                     [Word (u "été"); Word (u "comme"); Word (u "hiver");
                      Word (u "il"); Word (u "pleut"); Number 291;
                      Word (u "jours"); Word (u "sur"); Number 365]))
    by (vm_compute; reflexivity).
  rewrite E.
  rewrite (X14_sentences_are_normalized_item_by_item latin1_db
             default_limit operation_failed fresh _ fresh_constructed).
  - vm_compute. reflexivity.
  - repeat constructor.
Defined.

(** X15. The self-test passes.  Run as the program runs it,
    [run_comprehensive_tests] does not raise; each of its eight rule
    tests gets the status Bon, the result being the expected text; the
    twelve standard numbers are all spelled; its four sentences come out
    with their numbers spelled, the hyphen of soixante-dix set between
    spaces; and the counters it prints at the end are 20 normalized
    numbers and no error. *)
Theorem X15_the_self_test_passes (db : unicode_db) (lim : nat) (err : str) :
  run_comprehensive_tests db lim err
  = Some
      {| rule_lines :=
           map (fun test => (u "Bon", snd (fst test))) rule_tests;
         standard_lines :=
           [ u "zéro"; u "sept"; u "dix-sept"; u "vingt et un";
             u "quarante-deux"; u "soixante et onze"; u "quatre-vingts";
             u "quatre-vingt-dix-neuf"; u "cent"; u "deux cents";
             u "trois cent quarante-deux"; u "mille" ];
         sentence_lines :=
           [ u "J'ai trois chiens et vingt et un chats";
             u "Le nombre soixante et onze utilise le système soixante - dix";
             u "Il y a quatre-vingts personnes et quatre-vingt-un chaises";
             u "J'ai deux cents euros mais mon ami a deux cent un euros" ];
         statistics := {| normalized := 20; errors := 0 |} |}.
Proof. vm_compute. reflexivity. Qed.
